(** * IBD segment calling from per-window pairwise identities

    A shallow embedding of [IBDnetwork/ibd.py]: table ingestion, window
    indexing, pair tracks, the run-length (RLE) caller, the seed-and-extend
    caller, segment summaries and merging, and the driver loop of [main].

    Conventions of the embedding.
    - Python [int] is [Z]; a window index (always produced by [enumerate] or
      by a loop counter starting at 0) is [nat].
    - Python [float] is a type [T] with a [Number] instance.  The callers
      are written once, for any [Number]; two instances are given: IEEE
      binary64 (Rocq's primitive floats, the arithmetic Python runs) and
      exact rationals [Q].  The second is an idealisation: it serves to
      evaluate the callers next to binary64 and to say what holds when
      nothing is rounded, and it returns other segments than binary64 on
      some inputs.
    - Python [str] is [string], a sequence of bytes (UTF-8); the order of
      strings is the lexicographic order of their bytes, which is the order
      of their code points.
    - A Python [dict] used as a map is a [gmap]; a [dict] whose iteration
      order is observable ([defaultdict] walked by [items()]) is an
      association list in insertion order.
    - A read [l[i]] is [l !! i : option _]; [None] stands for the raised
      [IndexError] or [KeyError] and is propagated by the option monad. *)

From Stdlib Require Import ZArith QArith Floats Ascii String.
From stdpp Require Import base option list gmap strings sorting.

Local Open Scope Z_scope.

(** ** Numbers *)

Class Number (T : Type) := {
  n0 : T;                      (* the literal 0.0 *)
  n1 : T;                      (* the literal 1.0 *)
  nadd : T → T → T;
  nsub : T → T → T;
  ndiv : T → T → T;
  nle : T → T → bool;
  nlt : T → T → bool;
  nofZ : Z → T                 (* int to float, as in float / int *)
}.

(** Python's [x >= y] and [x > y]. *)
Definition nge `{Number T} (x y : T) : bool := nle y x.
Definition ngt `{Number T} (x y : T) : bool := nlt y x.

(** The conversion of an int to binary64, for ints below 2^63 in absolute
    value (counts of windows, here). *)
Definition float_of_Z (z : Z) : float :=
  match z with
  | Z0 => 0%float
  | Zpos _ => PrimFloat.of_uint63 (Uint63.of_Z z)
  | Zneg p => PrimFloat.opp (PrimFloat.of_uint63 (Uint63.of_Z (Zpos p)))
  end.

#[export] Instance float_Number : Number float := {|
  n0 := 0%float; n1 := 1%float;
  nadd := PrimFloat.add; nsub := PrimFloat.sub; ndiv := PrimFloat.div;
  nle := PrimFloat.leb; nlt := PrimFloat.ltb;
  nofZ := float_of_Z |}.

#[export] Instance Q_Number : Number Q := {|
  n0 := 0%Q; n1 := 1%Q;
  nadd := Qplus; nsub := Qminus; ndiv := Qdiv;
  nle := Qle_bool; nlt := fun x y => negb (Qle_bool y x);
  nofZ := inject_Z |}.

(** ** Data model *)

(** [Row = namedtuple("Row", "region chr start end length a b ident")],
    as [parse_table] appends it.  The four text fields are cells of a
    [csv.DictReader] row taken as they are: a line with fewer cells than
    the header has [None] in the columns it does not reach. *)
Module Parsed.
Record t (T : Type) := mk {
  region : option string; chr : option string; start : Z; end_ : Z;
  length : Z; a : option string; b : option string; ident : T }.
Arguments mk {T}. Arguments region {T}. Arguments chr {T}.
Arguments start {T}. Arguments end_ {T}. Arguments length {T}.
Arguments a {T}. Arguments b {T}. Arguments ident {T}.
End Parsed.

(** A [Row] whose [chr], [a] and [b] are text.  These are the rows that
    the functions after [parse_table] are embedded for. *)
Module Row.
Record t (T : Type) := mk {
  region : option string; chr : string; start : Z; end_ : Z; length : Z;
  a : string; b : string; ident : T }.
Arguments mk {T}. Arguments region {T}. Arguments chr {T}.
Arguments start {T}. Arguments end_ {T}. Arguments length {T}.
Arguments a {T}. Arguments b {T}. Arguments ident {T}.
End Row.

Definition to_row {T} (p : Parsed.t T) : option (Row.t T) :=
  chr ← Parsed.chr p;
  a ← Parsed.a p;
  b ← Parsed.b p;
  Some (Row.mk (Parsed.region p) chr (Parsed.start p) (Parsed.end_ p)
               (Parsed.length p) a b (Parsed.ident p)).

(** [Win = namedtuple("Win", "chr start end length")] *)
Module Win.
Record t := mk { chr : string; start : Z; end_ : Z; length : Z }.
End Win.

(** The dictionaries returned by [finalize_segment] and
    [summarize_segment]; only the former has the key ["n_gaps"]. *)
Module Seg.
Record t (T : Type) := mk {
  chr : string; start : Z; end_ : Z; n_windows : Z; covered_bp : Z;
  mean_ident : T; min_ident : T; n_gaps : option Z; frac_called : T }.
Arguments mk {T}. Arguments chr {T}. Arguments start {T}.
Arguments end_ {T}. Arguments n_windows {T}. Arguments covered_bp {T}.
Arguments mean_ident {T}. Arguments min_ident {T}. Arguments n_gaps {T}.
Arguments frac_called {T}.
End Seg.

(** An entry [(idx, ident, length)] of a track. *)
Definition TrackEntry (T : Type) : Type := nat * T * Z.

(** [current = {"start_idx": ..., "end_idx": ...}] *)
Record Cur := mkCur { start_idx : nat; end_idx : nat }.

(** [sum(...)] over Python ints. *)
Definition sum_Z (l : list Z) : Z := foldr Z.add 0 l.

(** The slice [l[s:e1]] for [0 <= s]. *)
Definition slice {A} (l : list A) (s e1 : nat) : list A :=
  take (e1 - s) (drop s l).

(** [sum(w.length for w in wins[s:e+1])] *)
Definition covered (wins : list Win.t) (s e : nat) : Z :=
  sum_Z (Win.length <$> slice wins s (e + 1)).

(** [range(s, e+1)] *)
Definition range_incl (s e : nat) : list nat := seq s (e + 1 - s).

(** A [for x in l] (or counted [while]) loop whose body may raise. *)
Fixpoint for_each {S A} (body : S → A → option S) (st : S) (l : list A)
    : option S :=
  match l with
  | [] => Some st
  | x :: l' => st' ← body st x; for_each body st' l'
  end.

(** [sorted(l, key=key)]: the stable sort, by insertion.  [lt] is Python's
    [<] on keys.  An element goes in front of the first element of the
    sorted tail whose key is not smaller than its own, so elements with
    equal keys keep their order. *)
Fixpoint insert_by {A K} (lt : K → K → bool) (key : A → K) (x : A)
    (l : list A) : list A :=
  match l with
  | [] => [x]
  | y :: l' =>
      if lt (key y) (key x) then y :: insert_by lt key x l' else x :: y :: l'
  end.

Definition sorted_by {A K} (lt : K → K → bool) (key : A → K) (l : list A)
    : list A :=
  foldr (insert_by lt key) [] l.

Section callers.
Context {T : Type} `{Number T}.

(** [{idx: ident for idx, ident, _ in track_list}]: a later entry for the
    same index overwrites an earlier one. *)
Definition ident_by_idx_of (track_list : list (TrackEntry T)) : gmap nat T :=
  foldl (λ m '(idx, ident, _), <[idx := ident]> m) ∅ track_list.

(** *** finalize_segment *)

(** The outer [None] is an [IndexError]; the inner one is the [None] the
    function returns for a run that the size filter rejects. *)
Definition finalize_segment (current : Cur) (wins : list Win.t)
    (called : Z) (ident_sum min_ident : T)
    (min_windows min_len_bp gaps_allowed : Z) : option (option (Seg.t T)) :=
  let s := start_idx current in
  let e := end_idx current in
  let n_windows := Z.of_nat e - Z.of_nat s + 1 in
  ws ← wins !! s;
  we ← wins !! e;
  let start_bp := Win.start ws in
  let end_bp := Win.end_ we in
  let covered_bp := covered wins s e in
  let mean_ident := if 0 <? called then ndiv ident_sum (nofZ called) else n0 in
  let frac_called :=
    if 0 <? n_windows then ndiv (nofZ called) (nofZ n_windows) else n0 in
  if (min_windows <=? n_windows) && (min_len_bp <=? covered_bp)
  then Some (Some (Seg.mk (Win.chr ws) start_bp end_bp n_windows covered_bp
                          mean_ident min_ident (Some gaps_allowed) frac_called))
  else Some None.

(** *** rle_segments_for_pair *)

(** The variables of the scan, apart from the counter [i]. *)
Record RleState := mkRle {
  current : option Cur;
  gaps : Z;
  called : Z;
  ident_sum : T;
  min_ident : T;
  segments : list (Seg.t T) }.

Section rle.
Variables (track_list : list (TrackEntry T)) (wins : list Win.t)
          (min_id : T) (max_gap min_windows min_len_bp : Z)
          (treat_missing_as_gap : bool) (drop_tolerance : T).

Let ident_by_idx := ident_by_idx_of track_list.

(** [qualifies], on an identity that is not [None]. *)
Definition qualifies (ident : T) : bool :=
  nge ident min_id
  || (ngt drop_tolerance n0 && nge ident (nsub min_id drop_tolerance)).

(** [current = {"start_idx": i, "end_idx": i}; gaps = 0; called = 1;
    ident_sum = ident; min_ident = ident] *)
Definition start_run (st : RleState) (i : nat) (ident : T) : RleState :=
  mkRle (Some (mkCur i i)) 0 1 ident ident (segments st).

(** [seg = finalize_segment(...); if seg: segments.append(seg);
    current = None; gaps = 0; called = 0; ident_sum = 0.0;
    min_ident = 1.0] *)
Definition close_run (st : RleState) (cur : Cur) (gaps_allowed : Z)
    : option RleState :=
  seg ← finalize_segment cur wins (called st) (ident_sum st) (min_ident st)
                         min_windows min_len_bp gaps_allowed;
  Some (mkRle None 0 0 n0 n1
              (match seg with
               | Some sg => segments st ++ [sg]
               | None => segments st
               end)).

(** The extending branch up to the test of [gaps]:
    [current["end_idx"] = i], then [gaps += 1] for a missing window and
    [called += 1; ident_sum += ident; if ident < min_ident: min_ident = ident]
    for a present one. *)
Definition extend_run (st : RleState) (cur : Cur) (i : nat) (ident : option T)
    : RleState :=
  match ident with
  | None =>
      mkRle (Some (mkCur (start_idx cur) i)) (gaps st + 1) (called st)
            (ident_sum st) (min_ident st) (segments st)
  | Some x =>
      mkRle (Some (mkCur (start_idx cur) i)) (gaps st) (called st + 1)
            (nadd (ident_sum st) x)
            (if nlt x (min_ident st) then x else min_ident st) (segments st)
  end.

(** [if gaps > max_gap:] finalize with [end_idx = i-1] and
    [gaps_allowed=max_gap].  A run is active only from the window after
    its first one, so [i >= 1] here. *)
Definition check_gaps (st : RleState) (cur : Cur) (i : nat)
    : option RleState :=
  if max_gap <? gaps st
  then close_run st (mkCur (start_idx cur) (i - 1)) max_gap
  else Some st.

(** One iteration of [while i < n_wins_total] (without [i += 1]).  The
    source computes [missing] and [good] first and then branches on
    [current]; here the case [ident is None] (where [missing] is true
    and [good] false) comes first.  [extend_condition] is
    [treat_missing_as_gap] in the first case and [good] in the second. *)
Definition rle_body (st : RleState) (i : nat) : option RleState :=
  match ident_by_idx !! i with
  | None =>
      match current st with
      | None => Some st
      | Some cur =>
          if treat_missing_as_gap
          then check_gaps (extend_run st cur i None) cur i
          else close_run st cur (gaps st)
      end
  | Some ident =>
      let good := qualifies ident in
      match current st with
      | None => if good then Some (start_run st i ident) else Some st
      | Some cur =>
          if good
          then check_gaps (extend_run st cur i (Some ident)) cur i
          else st' ← close_run st cur (gaps st);
               Some (if good then start_run st' i ident else st')
      end
  end.

(** The loop, over [i = 0 .. n_wins_total - 1]. *)
Definition rle_loop (st : RleState) (idxs : list nat) : option RleState :=
  for_each rle_body st idxs.

Definition rle_init : RleState := mkRle None 0 0 n0 n1 [].

Definition rle_segments_for_pair : option (list (Seg.t T)) :=
  let n_wins_total := length wins in
  st ← rle_loop rle_init (seq 0 n_wins_total);
  match current st with
  | Some cur => st' ← close_run st cur (gaps st); Some (segments st')
  | None => Some (segments st)
  end.
End rle.

(** *** summarize_segment *)

(** [min(l)] for a non-empty list: the first element, replaced whenever a
    later one is strictly smaller. *)
Definition min_of (x : T) (l : list T) : T :=
  foldl (λ m y, if nlt y m then y else m) x l.

(** [sum(l)] over floats, added from left to right.  (From version 3.12
    on, CPython compensates the rounding errors of this sum; the plain
    left-to-right sum is the one of earlier versions.) *)
Definition sum_of (l : list T) : T := foldl nadd n0 l.

(** [[ident_by_idx[i] for i in range(s, e+1) if i in ident_by_idx]] *)
Definition called_idents_of (ident_by_idx : gmap nat T) (s e : nat) : list T :=
  omap (λ i, ident_by_idx !! i) (range_incl s e).

Definition summarize_segment (s e : nat) (wins : list Win.t)
    (ident_by_idx : gmap nat T) : option (Seg.t T) :=
  ws ← wins !! s;
  we ← wins !! e;
  let start_bp := Win.start ws in
  let end_bp := Win.end_ we in
  let n_windows := Z.of_nat e - Z.of_nat s + 1 in
  let covered_bp := covered wins s e in
  let called_idents := called_idents_of ident_by_idx s e in
  let len := Z.of_nat (length called_idents) in
  let mean_ident :=
    match called_idents with
    | [] => n0
    | _ => ndiv (sum_of called_idents) (nofZ len)
    end in
  let min_ident :=
    match called_idents with
    | [] => n0
    | x :: l => min_of x l
    end in
  let frac_called :=
    if 0 <? n_windows then ndiv (nofZ len) (nofZ n_windows) else n0 in
  Some (Seg.mk (Win.chr ws) start_bp end_bp n_windows covered_bp
               mean_ident min_ident None frac_called).

(** *** merge_segments *)

(** The sort key [(s["chr"], s["start"], s["end"])] and Python's [<] on
    such tuples: the first differing component decides. *)
Definition seg_key (s : Seg.t T) : string * Z * Z :=
  (Seg.chr s, Seg.start s, Seg.end_ s).

Definition key_lt (k1 k2 : string * Z * Z) : bool :=
  let '(c1, s1, e1) := k1 in
  let '(c2, s2, e2) := k2 in
  if negb (String.eqb c1 c2) then String.ltb c1 c2
  else if negb (s1 =? s2) then s1 <? s2
  else e1 <? e2.

(** The loop body.  [out] is kept as the pair of [out[:-1]] and
    [last = out[-1]]; the in-place update of [last] changes that entry. *)
Definition merge_body (out : list (Seg.t T) * Seg.t T) (s : Seg.t T)
    : list (Seg.t T) * Seg.t T :=
  let '(init, last) := out in
  if String.eqb (Seg.chr s) (Seg.chr last) && (Seg.start s <=? Seg.end_ last)
  then (init,
        Seg.mk (Seg.chr last)
               (Z.min (Seg.start last) (Seg.start s))
               (Z.max (Seg.end_ last) (Seg.end_ s))
               (Seg.n_windows last) (Seg.covered_bp last)
               (Seg.mean_ident last) (Seg.min_ident last) (Seg.n_gaps last)
               (Seg.frac_called last))
  else (init ++ [last], s).

(** [wins] is a parameter the source does not use. *)
Definition merge_segments (segs : list (Seg.t T)) (wins : list Win.t)
    : list (Seg.t T) :=
  match sorted_by key_lt seg_key segs with
  | [] => []
  | s0 :: rest =>
      let '(init, last) := foldl merge_body ([], s0) rest in
      init ++ [last]
  end.

(** *** seed_extend_segments_for_pair *)

Section seed.
Variables (track_list : list (TrackEntry T)) (wins : list Win.t)
          (seed_thr : T) (seed_k : Z)
          (ext_thr xdrop reward pen_bad pen_miss : T)
          (min_windows min_len_bp : Z) (treat_missing_as_gap : bool).

Let ident_by_idx := ident_by_idx_of track_list.
Let n := length wins.

(** [ident_by_idx.get(i) is not None and ident_by_idx[i] >= seed_thr] *)
Definition seed_window (i : nat) : bool :=
  match ident_by_idx !! i with
  | Some ident => nge ident seed_thr
  | None => false
  end.

(** The inner [while j < n and ...: run += 1; j += 1], returning the final
    [(j, run)].  [fuel] bounds the iterations; [None] is fuel exhausted. *)
Fixpoint seed_run (fuel : nat) (j : nat) (run : Z) : option (nat * Z) :=
  match fuel with
  | O => None
  | S fuel' =>
      if (j <? n)%nat && seed_window j
      then seed_run fuel' (j + 1)%nat (run + 1)
      else Some (j, run)
  end.

(** The outer [while i < n], returning [seeds]; [None] is fuel
    exhausted. *)
Fixpoint find_seeds (fuel : nat) (i : nat) (seeds : list (nat * nat))
    : option (list (nat * nat)) :=
  match fuel with
  | O => None
  | S fuel' =>
      if (i <? n)%nat then
        if seed_window i then
          '(j, run) ← seed_run (S n) i 0;
          find_seeds fuel' j
            (if seed_k <=? run then seeds ++ [(i, (j - 1)%nat)] else seeds)
        else find_seeds fuel' (i + 1)%nat seeds
      else Some seeds
  end.

(** The two extension loops, which differ only in the order of the window
    indices they walk: [s-1, s-2, ..., 0] to the left and
    [e+1, e+2, ..., n-1] to the right.  [ks] lists the indices not visited
    yet; the result is [best_left] (or [best_right]). *)
Fixpoint xdrop_extend (ks : list nat) (score best_score : T) (best : nat)
    : nat :=
  match ks with
  | [] => best
  | k :: ks' =>
      match ident_by_idx !! k with
      | None =>
          if negb treat_missing_as_gap
          then xdrop_extend ks' score best_score best
          else
            let score := nsub score pen_miss in
            let '(best_score, best) :=
              if ngt score best_score then (score, k) else (best_score, best) in
            if ngt (nsub best_score score) xdrop then best
            else xdrop_extend ks' score best_score best
      | Some ident =>
          let score :=
            if nge ident ext_thr then nadd score reward
            else nsub score pen_bad in
          let '(best_score, best) :=
            if ngt score best_score then (score, k) else (best_score, best) in
          if ngt (nsub best_score score) xdrop then best
          else xdrop_extend ks' score best_score best
      end
  end.

Definition extend_left (s : nat) : nat :=
  xdrop_extend (reverse (seq 0 s)) n0 n0 s.

Definition extend_right (e : nat) : nat :=
  xdrop_extend (seq (e + 1) (n - (e + 1))) n0 n0 e.

(** [all(used[k] for k in ks)], which stops at the first [False]. *)
Fixpoint all_used (used : list bool) (ks : list nat) : option bool :=
  match ks with
  | [] => Some true
  | k :: ks' =>
      match used !! k with
      | Some true => all_used used ks'
      | Some false => Some false
      | None => None
      end
  end.

(** [for k in ks: used[k] = True] *)
Fixpoint mark_used (used : list bool) (ks : list nat) : option (list bool) :=
  match ks with
  | [] => Some used
  | k :: ks' =>
      if (k <? length used)%nat then mark_used (<[k := true]> used) ks'
      else None
  end.

(** The body of [for (s, e) in seeds], on the state [(used, segments)]. *)
Definition seed_body (st : list bool * list (Seg.t T)) (se : nat * nat)
    : option (list bool * list (Seg.t T)) :=
  let '(used, segments) := st in
  let '(s, e) := se in
  match all_used used (range_incl s e) with
  | None => None
  | Some true => Some st
  | Some false =>
      let best_left := extend_left s in
      let best_right := extend_right e in
      seg ← summarize_segment best_left best_right wins ident_by_idx;
      if (min_windows <=? Seg.n_windows seg)
         && (min_len_bp <=? Seg.covered_bp seg)
      then used' ← mark_used used (range_incl best_left best_right);
           Some (used', segments ++ [seg])
      else Some st
  end.

(** [segments] before the merge step.  The fuel [n + 1] is enough for
    both seed loops ([seed_candidates_spec] below). *)
Definition seed_candidates : option (list (Seg.t T)) :=
  seeds ← find_seeds (S n) 0 [];
  st ← for_each seed_body (replicate n false, []) seeds;
  Some (snd st).

Definition seed_extend_segments_for_pair : option (list (Seg.t T)) :=
  segments ← seed_candidates;
  Some (merge_segments segments wins).
End seed.

End callers.

Arguments RleState : clear implicits.

(** ** Outcomes of the program *)

(** A run of [parse_table] or [main] ends normally, by [SystemExit] /
    [sys.exit] (a fatal error, reported), or by an uncaught exception. *)
Inductive Outcome (A : Type) : Type :=
  | Ok (a : A)
  | Exit
  | Raised.
Arguments Ok {A}. Arguments Exit {A}. Arguments Raised {A}.

(** An exception raised inside a helper ([None]) surfaces uncaught. *)
Definition of_option {A} (o : option A) : Outcome A :=
  match o with Some a => Ok a | None => Raised end.

(** ** parse_table *)

Section ingestion.
Context {T : Type}.

(** Python's [int(...)] and [float(...)] on the text of a cell; [None] is
    the [ValueError]. *)
Variables (int_ : string → option Z) (float_ : string → option T).

(** A row of [csv.DictReader] is a dictionary with a key for every column
    of the header.  It is embedded as the map from the columns that have a
    cell on the line to the text of the cell: a column without a binding
    is one that the reader filled with [None].  (Cells beyond the header,
    which the reader collects under the key [None], are not read by the
    program and are left out.) *)

Definition req (identity_col : string) : gset string :=
  list_to_set ["REGION"; "CHR"; "START"; "END"; "LENGTH"; "group.a";
               "group.b"; identity_col].

(** The body of [for r in dr]: the row appended, or [None] when an
    exception was raised and the line is skipped.  Only [int(...)] and
    [float(...)] can raise: a [ValueError] on text that is no number, a
    [TypeError] on the [None] of a missing cell; both are caught.  The
    cells of REGION, CHR, group.a and group.b are stored as they are,
    [None] included. *)
Definition parse_row (identity_col : string) (r : gmap string string)
    : option (Parsed.t T) :=
  let region := r !! "REGION" in
  let chr := r !! "CHR" in
  start ← r !! "START" ≫= int_;
  end_ ← r !! "END" ≫= int_;
  length ← r !! "LENGTH" ≫= int_;
  let a := r !! "group.a" in
  let b := r !! "group.b" in
  ident ← r !! identity_col ≫= float_;
  Some (Parsed.mk region chr start end_ length a b ident).

(** [fieldnames] is [dr.fieldnames] ([None] for an empty file) and
    [records] the rows that follow the header. *)
Definition parse_table (fieldnames : option (list string))
    (records : list (gmap string string)) (identity_col : string)
    : Outcome (list (Parsed.t T)) :=
  let no_fieldnames :=
    match fieldnames with None | Some [] => true | Some _ => false end in
  if no_fieldnames
     || negb (bool_decide
                (req identity_col ⊆ list_to_set (default [] fieldnames)))
  then Exit
  else Ok (omap (parse_row identity_col) records).
End ingestion.

(** ** pair_key, build_windows, build_pair_tracks *)

Definition pair_key (a b : string) : string * string :=
  if String.leb a b then (a, b) else (b, a).

(** Python's [<] on tuples of ints, for [sorted(d.keys())]. *)
Definition triple_lt (k1 k2 : Z * Z * Z) : bool :=
  let '(s1, e1, l1) := k1 in
  let '(s2, e2, l2) := k2 in
  if negb (s1 =? s2) then s1 <? s2
  else if negb (e1 =? e2) then e1 <? e2
  else l1 <? l2.

(** An insertion-ordered dictionary with default values ([defaultdict]):
    [d[k] = f(d[k])], where a missing key is first created with [dflt] at
    the end of the dictionary. *)
Fixpoint dd_update {K V} `{EqDecision K} (k : K) (dflt : V) (f : V → V)
    (d : list (K * V)) : list (K * V) :=
  match d with
  | [] => [(k, f dflt)]
  | (k', v) :: d' =>
      if decide (k = k') then (k', f v) :: d'
      else (k', v) :: dd_update k dflt f d'
  end.

(** [tracks]: pair key, then chromosome, then the list of entries; both
    levels keep the order in which their keys first appeared. *)
Definition ChrTracks (T : Type) : Type := string * list (TrackEntry T).
Definition PairTracks (T : Type) : Type :=
  (string * string) * list (ChrTracks T).

Section tracks.
Context {T : Type}.

(** [uniq]: per chromosome, the keys [(start, end, length)] seen. *)
Definition uniq_of (rows : list (Row.t T)) : gmap string (gset (Z * Z * Z)) :=
  foldl (λ uniq r,
           <[Row.chr r :=
               {[ (Row.start r, Row.end_ r, Row.length r) ]}
               ∪ default ∅ (uniq !! Row.chr r)]> uniq)
        ∅ rows.

(** [[Win(chr_, s, e, l) for (s, e, l) in sorted(d.keys())]] *)
Definition wins_of (chr_ : string) (d : gset (Z * Z * Z)) : list Win.t :=
  (λ '(s, e, l), Win.mk chr_ s e l) <$> sorted_by triple_lt id (elements d).

(** [{(w.start, w.end): i for i, w in enumerate(wins)}] *)
Definition index_of (wins : list Win.t) : gmap (Z * Z) nat :=
  foldl (λ m iw, <[(Win.start iw.2, Win.end_ iw.2) := iw.1]> m) ∅
        (imap pair wins).

Definition build_windows (rows : list (Row.t T))
    : gmap string (list Win.t) * gmap string (gmap (Z * Z) nat) :=
  let uniq := uniq_of rows in
  let wins_by_chr := map_imap (λ chr_ d, Some (wins_of chr_ d)) uniq in
  let index_by_chr := index_of <$> wins_by_chr in
  (wins_by_chr, index_by_chr).

(** The body of [for r in rows]. *)
Definition track_body (index_by_chr : gmap string (gmap (Z * Z) nat))
    (tracks : list (PairTracks T)) (r : Row.t T)
    : option (list (PairTracks T)) :=
  index ← index_by_chr !! Row.chr r;
  match index !! (Row.start r, Row.end_ r) with
  | None => Some tracks
  | Some idx =>
      Some (dd_update (pair_key (Row.a r) (Row.b r)) []
              (dd_update (Row.chr r) []
                 (λ l, l ++ [(idx, Row.ident r, Row.length r)]))
              tracks)
  end.

(** [tracks[p][chr_].sort(key=lambda x: x[0])], for every [p] and [chr_]. *)
Definition sort_track (ct : ChrTracks T) : ChrTracks T :=
  (ct.1, sorted_by Nat.ltb (λ x : TrackEntry T, x.1.1) ct.2).

Definition sort_tracks (tracks : list (PairTracks T)) : list (PairTracks T) :=
  (λ pt : PairTracks T, (pt.1, sort_track <$> pt.2)) <$> tracks.

Definition build_pair_tracks (rows : list (Row.t T))
    (index_by_chr : gmap string (gmap (Z * Z) nat))
    : option (list (PairTracks T)) :=
  tracks ← for_each (track_body index_by_chr) [] rows;
  Some (sort_tracks tracks).
End tracks.

(** ** main *)

(** [args.mode] *)
Inductive Mode := mode_rle | mode_seed.

(** The namespace returned by [ap.parse_args()], without [pairs]. *)
Module Args.
Record t (T : Type) := mk {
  mode : Mode;
  min_windows : Z;
  min_length_bp : Z;
  missing_as_gap : bool;
  min_identity : T;
  max_gap : Z;
  drop_tolerance : T;
  seed_threshold : T;
  seed_k : Z;
  extend_threshold : T;
  xdrop : T;
  reward : T;
  penalty_bad : T;
  penalty_miss : T;
  identity_col : string }.
Arguments mk {T}. Arguments mode {T}. Arguments min_windows {T}.
Arguments min_length_bp {T}. Arguments missing_as_gap {T}.
Arguments min_identity {T}. Arguments max_gap {T}.
Arguments drop_tolerance {T}. Arguments seed_threshold {T}.
Arguments seed_k {T}. Arguments extend_threshold {T}. Arguments xdrop {T}.
Arguments reward {T}. Arguments penalty_bad {T}. Arguments penalty_miss {T}.
Arguments identity_col {T}.
End Args.

(** A line written after the header:
    [CHR START END HAP1 HAP2 N_WINDOWS COVERED_BP MEAN_IDENTITY
     MIN_IDENTITY FRACTION_CALLED MODE]. *)
Module Out.
Record t := mk {
  chr : string; start : Z; end_ : Z; hap1 : string; hap2 : string;
  n_windows : Z; covered_bp : Z; mean_identity : string;
  min_identity : string; fraction_called : string; mode : Mode }.
End Out.

(** *** The pairs file *)

(** The characters [str.strip()] removes are those of [str.isspace()].
    Those of one byte in UTF-8: U+0009..U+000D and U+001C..U+0020. *)
Definition is_space (c : ascii) : bool :=
  let n := nat_of_ascii c in
  ((9 <=? n) && (n <=? 13) || (28 <=? n) && (n <=? 32))%nat.

(** Those of two bytes: U+0085 (C2 85) and U+00A0 (C2 A0). *)
Definition is_space2 (c1 c2 : ascii) : bool :=
  let '(n1, n2) := (nat_of_ascii c1, nat_of_ascii c2) in
  ((n1 =? 194) && ((n2 =? 133) || (n2 =? 160)))%nat.

(** Those of three bytes: U+1680 (E1 9A 80), U+2000..U+200A (E2 80 80 to
    E2 80 8A), U+2028 and U+2029 (E2 80 A8, E2 80 A9), U+202F (E2 80 AF),
    U+205F (E2 81 9F) and U+3000 (E3 80 80). *)
Definition is_space3 (c1 c2 c3 : ascii) : bool :=
  let '(n1, n2, n3) := (nat_of_ascii c1, nat_of_ascii c2, nat_of_ascii c3) in
  ((n1 =? 225) && (n2 =? 154) && (n3 =? 128)
   || (n1 =? 226) && (n2 =? 128)
      && ((128 <=? n3) && (n3 <=? 138) || (n3 =? 168) || (n3 =? 169)
          || (n3 =? 175))
   || (n1 =? 226) && (n2 =? 129) && (n3 =? 159)
   || (n1 =? 227) && (n2 =? 128) && (n3 =? 128))%nat.

(** Every character of the text is one of those. *)
Fixpoint all_space (l : list ascii) : bool :=
  match l with
  | [] => true
  | c1 :: l1 =>
      if is_space c1 then all_space l1
      else match l1 with
           | [] => false
           | c2 :: l2 =>
               if is_space2 c1 c2 then all_space l2
               else match l2 with
                    | [] => false
                    | c3 :: l3 => is_space3 c1 c2 c3 && all_space l3
                    end
           end
  end.

(** [not line.strip()] *)
Definition blank (line : string) : bool :=
  all_space (list_ascii_of_string line).

(** [line.startswith("#")] *)
Definition is_comment (line : string) : bool :=
  match line with
  | String c _ => Ascii.eqb c "#"
  | EmptyString => false
  end.

(** [line.rstrip("\n")], on the reversed line. *)
Fixpoint lstrip_nl (l : list ascii) : list ascii :=
  match l with
  | c :: l' => if Ascii.eqb c "010" then lstrip_nl l' else l
  | [] => []
  end.

Definition rstrip_nl (line : string) : string :=
  string_of_list_ascii
    (reverse (lstrip_nl (reverse (list_ascii_of_string line)))).

(** [line.split("\t")] *)
Fixpoint split_tab (line : string) : list string :=
  match line with
  | EmptyString => [EmptyString]
  | String c rest =>
      if Ascii.eqb c "009" then EmptyString :: split_tab rest
      else match split_tab rest with
           | f :: fs => String c f :: fs
           | [] => [String c EmptyString]
           end
  end.

(** One line of the pairs file: skipped, or added to [pair_filter];
    [None] is the [ValueError] of unpacking fewer than two fields. *)
Definition pairs_body (pair_filter : gset (string * string)) (line : string)
    : option (gset (string * string)) :=
  if blank line || is_comment line then Some pair_filter
  else match take 2 (split_tab (rstrip_nl line)) with
       | [a; b] => Some ({[ pair_key a b ]} ∪ pair_filter)
       | _ => None
       end.

(** [pair_filter]; [pairs] holds the lines of the file named by
    [args.pairs], or [None] when the option is absent (or empty). *)
Definition load_pairs (pairs : option (list string))
    : option (option (gset (string * string))) :=
  match pairs with
  | None => Some None
  | Some lines => pf ← for_each pairs_body ∅ lines; Some (Some pf)
  end.

(** [pair_filter and pair_key(a, b) not in pair_filter] *)
Definition skip_pair (pair_filter : option (gset (string * string)))
    (a b : string) : bool :=
  match pair_filter with
  | None => false
  | Some pf =>
      negb (bool_decide (pf = ∅)) && negb (bool_decide (pair_key a b ∈ pf))
  end.

Section main.
Context {T : Type} `{Number T}.

(** [f"{x:.6f}"] and [f"{x:.3f}"]. *)
Variables (fmt6 fmt3 : T → string).

Definition call_segments (args : Args.t T) (track : list (TrackEntry T))
    (wins : list Win.t) : option (list (Seg.t T)) :=
  match Args.mode args with
  | mode_rle =>
      rle_segments_for_pair track wins (Args.min_identity args)
        (Args.max_gap args) (Args.min_windows args) (Args.min_length_bp args)
        (Args.missing_as_gap args) (Args.drop_tolerance args)
  | mode_seed =>
      seed_extend_segments_for_pair track wins (Args.seed_threshold args)
        (Args.seed_k args) (Args.extend_threshold args) (Args.xdrop args)
        (Args.reward args) (Args.penalty_bad args) (Args.penalty_miss args)
        (Args.min_windows args) (Args.min_length_bp args)
        (Args.missing_as_gap args)
  end.

(** The list given to [w.writerow] for the segment [s]. *)
Definition out_row (args : Args.t T) (chr_ a b : string) (s : Seg.t T) : Out.t :=
  Out.mk chr_ (Seg.start s) (Seg.end_ s) a b (Seg.n_windows s)
         (Seg.covered_bp s) (fmt6 (Seg.mean_ident s)) (fmt6 (Seg.min_ident s))
         (fmt3 (Seg.frac_called s)) (Args.mode args).

(** The body of [for chr_, track in tracks_by_chr.items()]; [w] collects
    the lines written. *)
Definition chr_body (args : Args.t T) (wins_by_chr : gmap string (list Win.t))
    (a b : string) (w : list Out.t) (ct : ChrTracks T)
    : option (list Out.t) :=
  let '(chr_, track) := ct in
  wins ← wins_by_chr !! chr_;
  segs ← call_segments args track wins;
  Some (w ++ (out_row args chr_ a b <$> segs)).

(** The body of [for (a, b), tracks_by_chr in tracks.items()]. *)
Definition pair_body (args : Args.t T) (wins_by_chr : gmap string (list Win.t))
    (pair_filter : option (gset (string * string))) (w : list Out.t)
    (pt : PairTracks T) : option (list Out.t) :=
  let '((a, b), tracks_by_chr) := pt in
  if skip_pair pair_filter a b then Some w
  else for_each (chr_body args wins_by_chr a b) w tracks_by_chr.

(** [main] from the parsed rows on, for rows whose [chr], [a] and [b] are
    text: the lines written after the header when the run ends normally. *)
Definition main_rows (args : Args.t T) (pairs : option (list string))
    (rows : list (Row.t T)) : Outcome (list Out.t) :=
  match rows with
  | [] => Exit
  | _ =>
      let '(wins_by_chr, index_by_chr) := build_windows rows in
      of_option (
        tracks ← build_pair_tracks rows index_by_chr;
        pair_filter ← load_pairs pairs;
        for_each (pair_body args wins_by_chr pair_filter) [] tracks)
  end.

(** A row whose [a] or [b] is [None]. *)
Definition no_group (p : Parsed.t T) : bool :=
  bool_decide (Parsed.a p = None ∨ Parsed.b p = None).

(** [main].  After [if not rows], the rows go through [build_windows] and
    [build_pair_tracks].  The first never raises.  The second calls
    [pair_key(r.a, r.b)] on every row, and [a <= b] is a [TypeError] as
    soon as one of the two is [None]: a row without a group label ends the
    run by an uncaught exception, before anything is written.  When every
    row has both labels and its [chr], the run is that of [main_rows].
    There remains a row with both labels and [None] as [chr]: the program
    takes [None] as one more chromosome and writes an empty cell for it,
    whereas [Win.chr], [Seg.chr] and [Out.chr] are text here.  Such a run
    is outside the embedding, and [main] is [None] for it. *)
Definition main (int_ : string → option Z) (float_ : string → option T)
    (args : Args.t T) (pairs : option (list string))
    (fieldnames : option (list string)) (records : list (gmap string string))
    : option (Outcome (list Out.t)) :=
  match parse_table int_ float_ fieldnames records (Args.identity_col args) with
  | Ok [] => Some Exit
  | Ok parsed =>
      if existsb no_group parsed then Some Raised
      else main_rows args pairs <$> mapM to_row parsed
  | Exit => Some Exit
  | Raised => Some Raised
  end.
End main.

(** * Concrete inputs

    The tracks of the toy tables and a few small tracks, used to evaluate
    the callers. *)

#[local] Set Warnings "-inexact-float".

(** [n] consecutive 5000 bp windows on chr1. *)
Definition toy_wins (n : nat) : list Win.t :=
  (λ i, Win.mk "chr1" (5000 * Z.of_nat i) (5000 * Z.of_nat i + 5000) 5000)
    <$> seq 0 n.

(** Consecutive windows on chr1 with the given [LENGTH] entries. *)
Definition wins_of_lengths (lengths : list Z) : list Win.t :=
  imap (λ i l, Win.mk "chr1" (5000 * Z.of_nat i) (5000 * Z.of_nat i + 5000) l)
       lengths.

(** The track with identity [idents[i]] at window [i]. *)
Definition toy_track {T} (idents : list T) : list (TrackEntry T) :=
  imap (λ i x, (i, x, 5000)) idents.

(** The rows of pair [(a, b)] for that track. *)
Definition toy_rows {T} (a b : string) (idents : list T) : list (Row.t T) :=
  imap (λ i x, Row.mk (Some "") "chr1" (5000 * Z.of_nat i)
                      (5000 * Z.of_nat i + 5000) 5000 a b x) idents.

(** Pair A/B of [toy1]. *)
Definition toy1_float : list float :=
  [0.9950; 0.9998; 0.9998; 0.9998; 0.9997; 0.9998; 0.9998; 0.9950; 0.9950;
   0.9950]%float.

Definition toy1_Q : list Q :=
  [0.9950; 0.9998; 0.9998; 0.9998; 0.9997; 0.9998; 0.9998; 0.9950; 0.9950;
   0.9950]%Q.

(** Pair A/B of [toy3]: window 3 is missing from the track. *)
Definition toy3_float : list (TrackEntry float) :=
  [(0%nat, 0.9950%float, 5000); (1%nat, 0.9997%float, 5000);
   (2%nat, 0.9998%float, 5000); (4%nat, 0.9998%float, 5000);
   (5%nat, 0.9998%float, 5000); (6%nat, 0.9950%float, 5000)].

(** One window below the threshold between two windows above it. *)
Definition dip_float : list float := [0.9998; 0.9950; 0.9998]%float.
Definition dip_Q : list Q := [0.9998; 0.9950; 0.9998]%Q.

(** Six windows, of which windows 1 and 3 are missing from the track. *)
Definition gapped_float : list (TrackEntry float) :=
  [(0%nat, 0.9992%float, 5000); (2%nat, 0.9998%float, 5000);
   (4%nat, 0.9998%float, 5000); (5%nat, 0.9998%float, 5000)].

Definition gapped_Q : list (TrackEntry Q) :=
  [(0%nat, 0.9992%Q, 5000); (2%nat, 0.9998%Q, 5000);
   (4%nat, 0.9998%Q, 5000); (5%nat, 0.9998%Q, 5000)].

(** A candidate segment on chr1 with the given base-pair range. *)
Definition seg_at (start end_ : Z) : Seg.t Q :=
  Seg.mk "chr1" start end_ 3 15000 1%Q 1%Q None 1%Q.

(** The defaults of the command line. *)
Definition default_args {T} `{Number T} (mode : Mode)
    (min_identity seed_threshold extend_threshold : T) : Args.t T :=
  Args.mk mode 3 5000 false min_identity 1 n0 seed_threshold 2
          extend_threshold (nadd n1 n1) n1 n1 n1 "estimated.identity".

Definition default_args_Q (mode : Mode) : Args.t Q :=
  default_args mode 0.9995%Q 0.9998%Q 0.9995%Q.

(** A pairs file with a comment, an empty line and a line of blanks. *)
Definition tab : string := String "009" EmptyString.
Definition nl : string := String "010" EmptyString.

Definition comment_lines : list string :=
  ["# A" +:+ tab +:+ "B" +:+ nl; nl; " " +:+ tab +:+ nl].

(** * Loops, and the RLE scan as a step relation

    From here on the file states and proves properties of the embedding.
    Lemmas that hold for any [Number] hold in particular for binary64;
    those that need the laws of an ordered field are stated for [Q]. *)

(** An invariant indexed by the loop counter, for a loop over
    [a, a+1, ..., a+len-1] whose body cannot raise under the invariant. *)
Lemma for_each_seq_inv {S} (body : S → nat → option S) (I : nat → S → Prop)
    (len a : nat) (st : S) :
  I a st →
  (∀ i st, (a ≤ i < a + len)%nat → I i st →
           ∃ st', body st i = Some st' ∧ I (Datatypes.S i) st') →
  ∃ st', for_each body st (seq a len) = Some st' ∧ I (a + len)%nat st'.
Proof.
  revert a st. induction len as [|len IH]; intros a st Ha Hstep; simpl.
  - exists st. by rewrite Nat.add_0_r.
  - destruct (Hstep a st) as (st1 & -> & H1); [lia|done|]. simpl.
    destruct (IH (Datatypes.S a) st1) as (st2 & -> & H2); [done| |].
    + intros i st' Hi. apply Hstep. lia.
    + exists st2. split; [done|].
      by replace (a + Datatypes.S len)%nat with (Datatypes.S a + len)%nat by lia.
Qed.

Section rle_facts.
Context {T : Type} `{Number T}.
Variables (track_list : list (TrackEntry T)) (wins : list Win.t)
          (min_id : T) (max_gap min_windows min_len_bp : Z)
          (treat_missing_as_gap : bool) (drop_tolerance : T).

Local Abbreviation body :=
  (rle_body track_list wins min_id max_gap min_windows min_len_bp
     treat_missing_as_gap drop_tolerance).
Local Abbreviation close := (close_run wins min_windows min_len_bp).

(** The segment [finalize_segment] builds from the windows at the two ends
    of the run. *)
Definition run_segment (cur : Cur) (called : Z) (ident_sum min_ident : T)
    (gaps_allowed : Z) (ws we : Win.t) : Seg.t T :=
  let n_windows := Z.of_nat (end_idx cur) - Z.of_nat (start_idx cur) + 1 in
  Seg.mk (Win.chr ws) (Win.start ws) (Win.end_ we) n_windows
         (covered wins (start_idx cur) (end_idx cur))
         (if 0 <? called then ndiv ident_sum (nofZ called) else n0)
         min_ident (Some gaps_allowed)
         (if 0 <? n_windows then ndiv (nofZ called) (nofZ n_windows) else n0).

Definition passes (seg : Seg.t T) : bool :=
  (min_windows <=? Seg.n_windows seg) && (min_len_bp <=? Seg.covered_bp seg).

Lemma finalize_segment_eq cur called ident_sum min_ident g ws we :
  wins !! start_idx cur = Some ws → wins !! end_idx cur = Some we →
  finalize_segment cur wins called ident_sum min_ident min_windows min_len_bp g
  = Some (let seg := run_segment cur called ident_sum min_ident g ws we in
          if passes seg then Some seg else None).
Proof.
  intros Hs He. unfold finalize_segment. rewrite Hs, He. simpl.
  unfold passes, run_segment. simpl. by case_match.
Qed.

(** What closing the run [cur] leaves in [segments]: the segment of the
    run is appended if it passes the size filter. *)
Definition closes (st : RleState T) (cur : Cur) (g : Z)
    (segs : list (Seg.t T)) : Prop :=
  ∃ ws we, wins !! start_idx cur = Some ws ∧ wins !! end_idx cur = Some we ∧
    let seg := run_segment cur (called st) (ident_sum st) (min_ident st) g ws we in
    segs = segments st ++ (if passes seg then [seg] else []).

Lemma close_run_spec st cur g :
  (start_idx cur < length wins)%nat → (end_idx cur < length wins)%nat →
  ∃ segs, close st cur g = Some (mkRle None 0 0 n0 n1 segs)
          ∧ closes st cur g segs.
Proof.
  intros Hs He.
  destruct (lookup_lt_is_Some_2 _ _ Hs) as [ws Hws].
  destruct (lookup_lt_is_Some_2 _ _ He) as [we Hwe].
  unfold close_run. rewrite (finalize_segment_eq _ _ _ _ _ ws we) by done. simpl.
  eexists. split; [done|]. exists ws, we. repeat split; [done..|].
  simpl. destruct (passes _); [done|by rewrite app_nil_r].
Qed.

(** A property of the segments kept by closing a run, when the segment of
    the run has it whenever it passes the filter. *)
Lemma closes_Forall (P : Seg.t T → Prop) st cur g segs :
  Forall P (segments st) →
  (∀ ws we,
     wins !! start_idx cur = Some ws → wins !! end_idx cur = Some we →
     let seg := run_segment cur (called st) (ident_sum st) (min_ident st) g ws we in
     passes seg = true → P seg) →
  closes st cur g segs → Forall P segs.
Proof.
  intros Hst HP (ws & we & Hws & Hwe & ->). simpl.
  apply Forall_app. split; [done|].
  destruct (passes _) eqn:Hp; [|constructor].
  constructor; [by apply HP|constructor].
Qed.

(** ** The loop body as a step relation *)

Local Abbreviation ident_at i := (ident_by_idx_of track_list !! i).

(** Before window [i] is read, an active run ends at window [i-1]. *)
Definition rle_wf (i : nat) (st : RleState T) : Prop :=
  match current st with
  | None => True
  | Some cur => (start_idx cur < i)%nat ∧ end_idx cur = (i - 1)%nat
  end.

(** [extend_condition] *)
Definition absorbs (ident : option T) : bool :=
  match ident with
  | None => treat_missing_as_gap
  | Some x => qualifies min_id drop_tolerance x
  end.

Inductive rle_step (i : nat) (st : RleState T) : RleState T → Prop :=
  | rle_idle :
      current st = None →
      from_option (qualifies min_id drop_tolerance) false (ident_at i) = false →
      rle_step i st st
  | rle_start x :
      current st = None → ident_at i = Some x →
      qualifies min_id drop_tolerance x = true →
      rle_step i st (start_run st i x)
  | rle_extend cur :
      current st = Some cur → absorbs (ident_at i) = true →
      gaps (extend_run st cur i (ident_at i)) ≤ max_gap →
      rle_step i st (extend_run st cur i (ident_at i))
  | rle_overflow cur segs :
      current st = Some cur → absorbs (ident_at i) = true →
      max_gap < gaps (extend_run st cur i (ident_at i)) →
      closes (extend_run st cur i (ident_at i))
             (mkCur (start_idx cur) (i - 1)) max_gap segs →
      rle_step i st (mkRle None 0 0 n0 n1 segs)
  | rle_break cur segs :
      current st = Some cur → absorbs (ident_at i) = false →
      closes st cur (gaps st) segs →
      rle_step i st (mkRle None 0 0 n0 n1 segs).

Lemma rle_body_step i st :
  (i < length wins)%nat → rle_wf i st →
  ∃ st', body st i = Some st' ∧ rle_step i st st' ∧ rle_wf (S i) st'.
Proof.
  intros Hi Hwf. unfold rle_wf in Hwf. unfold rle_body.
  destruct (ident_at i) as [x|] eqn:Hx; destruct (current st) as [cur|] eqn:Hc.
  - destruct Hwf as [Hs He].
    destruct (qualifies min_id drop_tolerance x) eqn:Hq.
    + unfold check_gaps.
      destruct (max_gap <? gaps (extend_run st cur i (Some x))) eqn:Hg.
      * destruct (close_run_spec (extend_run st cur i (Some x))
                    (mkCur (start_idx cur) (i - 1)) max_gap)
          as (segs & -> & Hsegs); simpl; [lia..|].
        eexists; split; [done|]. split; [|done].
        eapply rle_overflow; rewrite ?Hx; eauto. simpl in *. lia.
      * eexists; split; [done|]. split.
        -- rewrite <- Hx. apply rle_extend; rewrite ?Hx; auto.
           simpl in *. lia.
        -- unfold rle_wf. simpl. lia.
    + destruct (close_run_spec st cur (gaps st)) as (segs & -> & Hsegs);
        simpl; [lia..|].
      eexists; split; [done|]. split; [|done].
      eapply rle_break; rewrite ?Hx; eauto.
  - destruct (qualifies min_id drop_tolerance x) eqn:Hq.
    + eexists; split; [done|]. split.
      * by apply rle_start.
      * unfold rle_wf. simpl. lia.
    + eexists; split; [done|]. split.
      * apply rle_idle; rewrite ?Hx; auto.
      * unfold rle_wf. by rewrite Hc.
  - destruct Hwf as [Hs He]. destruct treat_missing_as_gap eqn:Ht.
    + unfold check_gaps.
      destruct (max_gap <? gaps (extend_run st cur i None)) eqn:Hg.
      * destruct (close_run_spec (extend_run st cur i None)
                    (mkCur (start_idx cur) (i - 1)) max_gap)
          as (segs & -> & Hsegs); simpl; [lia..|].
        eexists; split; [done|]. split; [|done].
        eapply rle_overflow; rewrite ?Hx; eauto. simpl in *. lia.
      * eexists; split; [done|]. split.
        -- rewrite <- Hx. apply rle_extend; rewrite ?Hx; auto.
           simpl in *. lia.
        -- unfold rle_wf. simpl. lia.
    + destruct (close_run_spec st cur (gaps st)) as (segs & -> & Hsegs);
        simpl; [lia..|].
      eexists; split; [done|]. split; [|done].
      eapply rle_break; rewrite ?Hx; eauto.
  - eexists; split; [done|]. split.
    + apply rle_idle; rewrite ?Hx; auto.
    + unfold rle_wf. by rewrite Hc.
Qed.

(** The scan of the first [len] windows: the loop never raises, and an
    invariant kept by every step holds after it. *)
Lemma rle_loop_inv (I : nat → RleState T → Prop) (len : nat) :
  (len ≤ length wins)%nat →
  I 0%nat rle_init →
  (∀ i st st', (i < length wins)%nat → rle_wf i st → I i st →
               rle_step i st st' → I (S i) st') →
  ∃ st, rle_loop track_list wins min_id max_gap min_windows min_len_bp
          treat_missing_as_gap drop_tolerance rle_init (seq 0 len)
        = Some st
        ∧ rle_wf len st ∧ I len st.
Proof.
  intros Hlen H0 Hstep. unfold rle_loop.
  destruct (for_each_seq_inv body (λ i st, rle_wf i st ∧ I i st)
              len 0 rle_init) as (st & Hrun & Hwf & HI).
  - split; [exact Logic.I|done].
  - intros i st [_ Hi] [Hwf HI].
    assert (i < length wins)%nat as Hi' by lia.
    destruct (rle_body_step i st) as (st' & Hb & Hs & Hwf'); [done..|].
    exists st'. eauto.
  - exists st. simpl in *. auto.
Qed.

(** The result of the caller: the segments of the final state, plus the
    run still open at the end of the chromosome. *)
Lemma rle_result (I : nat → RleState T → Prop) :
  I 0%nat rle_init →
  (∀ i st st', (i < length wins)%nat → rle_wf i st → I i st →
               rle_step i st st' → I (S i) st') →
  ∃ st segs,
    rle_segments_for_pair track_list wins min_id max_gap min_windows
      min_len_bp treat_missing_as_gap drop_tolerance = Some segs
    ∧ I (length wins) st ∧ rle_wf (length wins) st
    ∧ match current st with
      | None => segs = segments st
      | Some cur => closes st cur (gaps st) segs
      end.
Proof.
  intros H0 Hstep.
  destruct (rle_loop_inv I (length wins) (Nat.le_refl _) H0 Hstep)
    as (st & Hrun & Hwf & HI).
  unfold rle_segments_for_pair. rewrite Hrun. simpl.
  destruct (current st) as [cur|] eqn:Hc.
  - pose proof Hwf as Hwf'. unfold rle_wf in Hwf'. rewrite Hc in Hwf'.
    destruct (close_run_spec st cur (gaps st)) as (segs & -> & Hsegs); [lia..|].
    exists st, segs. simpl. rewrite Hc. eauto.
  - exists st, (segments st). rewrite Hc. eauto.
Qed.

End rle_facts.

(** The five cases of a step, with the names the proofs below use. *)
Ltac rle_step_cases Hstep :=
  destruct Hstep as [Hc Hq|x Hc Hx Hq|cur Hc Hab Hle
                    |cur segs Hc Hab Hgt Hcl|cur segs Hc Hab Hcl].

(** * Sorting and merging *)

Section sorting.
Context {A K : Type} (lt : K → K → bool) (key : A → K).

Lemma insert_by_perm x l : insert_by lt key x l ≡ₚ x :: l.
Proof.
  induction l as [|y l IH]; simpl; [done|].
  case_match; [|done]. rewrite IH. apply Permutation_swap.
Qed.

Lemma sorted_by_perm l : sorted_by lt key l ≡ₚ l.
Proof.
  induction l as [|x l IH]; simpl; [done|].
  rewrite insert_by_perm. by constructor.
Qed.

Lemma sorted_by_elem x l : x ∈ sorted_by lt key l ↔ x ∈ l.
Proof. by rewrite sorted_by_perm. Qed.

(** Sortedness for any transitive relation [R] that the comparison of keys
    decides in both directions. *)
Lemma insert_by_sorted (R : relation A) `{!Transitive R} x l :
  (∀ y, y ∈ l → lt (key y) (key x) = true → R y x) →
  (∀ y, y ∈ l → lt (key y) (key x) = false → R x y) →
  StronglySorted R l → StronglySorted R (insert_by lt key x l).
Proof.
  intros Hlt Hge Hs. induction Hs as [|y l Hs IH Hy]; simpl.
  - repeat constructor.
  - destruct (lt (key y) (key x)) eqn:Hc.
    + constructor.
      * apply IH; intros z Hz; [apply Hlt|apply Hge]; by right.
      * apply Forall_forall. intros z Hz.
        rewrite insert_by_perm in Hz. apply elem_of_cons in Hz as [->|Hz].
        -- apply Hlt; [left|done].
        -- by eapply Forall_forall in Hy.
    + constructor; [by constructor|].
      assert (R x y) by (apply Hge; [left|done]).
      constructor; [done|].
      eapply Forall_impl; [exact Hy|]. intros z Hz. by etrans.
Qed.

Lemma sorted_by_sorted (R : relation A) `{!Transitive R} l :
  (∀ x y, x ∈ l → y ∈ l → lt (key y) (key x) = true → R y x) →
  (∀ x y, x ∈ l → y ∈ l → lt (key y) (key x) = false → R x y) →
  StronglySorted R (sorted_by lt key l).
Proof.
  intros Hlt Hge. induction l as [|x l IH]; simpl; [constructor|].
  apply insert_by_sorted; [done|..].
  - intros y Hy. apply Hlt; [left|right; by apply sorted_by_elem].
  - intros y Hy. apply Hge; [left|right; by apply sorted_by_elem].
  - apply IH; intros y z Hy Hz; [apply Hlt|apply Hge]; by right.
Qed.
End sorting.

Section merge_facts.
Context {T : Type} `{Number T}.

(** [out] is [c] with its base-pair range widened; nothing else changes. *)
Definition widened (c out : Seg.t T) : Prop :=
  Seg.chr out = Seg.chr c ∧ Seg.start out ≤ Seg.start c ∧
  Seg.end_ c ≤ Seg.end_ out ∧ Seg.n_windows out = Seg.n_windows c ∧
  Seg.covered_bp out = Seg.covered_bp c ∧
  Seg.mean_ident out = Seg.mean_ident c ∧
  Seg.min_ident out = Seg.min_ident c ∧ Seg.n_gaps out = Seg.n_gaps c ∧
  Seg.frac_called out = Seg.frac_called c.

Lemma widened_refl c : widened c c.
Proof. unfold widened. repeat split; lia. Qed.

Lemma merge_fold_widened (rest : list (Seg.t T)) init last
    (l0 : list (Seg.t T)) :
  (∀ x, x ∈ init ++ [last] → ∃ c, c ∈ l0 ∧ widened c x) →
  (∀ x, x ∈ rest → x ∈ l0) →
  ∀ x, x ∈ (let '(i, l) := foldl merge_body (init, last) rest in i ++ [l]) →
       ∃ c, c ∈ l0 ∧ widened c x.
Proof.
  revert init last.
  induction rest as [|s rest IH]; intros init last Hout Hrest; simpl.
  - done.
  - destruct (String.eqb (Seg.chr s) (Seg.chr last)
              && (Seg.start s <=? Seg.end_ last)) eqn:Hc.
    + apply IH.
      * intros x Hx. apply elem_of_app in Hx as [Hx|Hx].
        -- apply Hout. apply elem_of_app. by left.
        -- apply list_elem_of_singleton in Hx as ->.
           destruct (Hout last) as (c & Hc0 & Hw);
             [apply elem_of_app; right; by left|].
           exists c. split; [done|]. unfold widened in *. simpl. intuition lia.
      * intros x Hx. apply Hrest. by right.
    + apply IH.
      * intros x Hx. apply elem_of_app in Hx as [Hx|Hx]; [by apply Hout|].
        apply list_elem_of_singleton in Hx as ->. exists s.
        split; [apply Hrest; left|apply widened_refl].
      * intros x Hx. apply Hrest. by right.
Qed.

(** Every merged segment is one of the candidates, widened. *)
Lemma merge_segments_widened (segs : list (Seg.t T)) wins x :
  x ∈ merge_segments segs wins → ∃ c, c ∈ segs ∧ widened c x.
Proof.
  unfold merge_segments.
  destruct (sorted_by key_lt seg_key segs) as [|s0 rest] eqn:Hs;
    [by intros ?%elem_of_nil|].
  assert (Hin : ∀ y, y ∈ s0 :: rest → y ∈ segs).
  { intros y Hy. rewrite <- Hs in Hy. by apply sorted_by_elem in Hy. }
  apply (merge_fold_widened rest [] s0 segs).
  - intros y Hy. apply list_elem_of_singleton in Hy as ->.
    exists s0. split; [apply Hin; left|apply widened_refl].
  - intros y Hy. apply Hin. by right.
Qed.
End merge_facts.

(** * The seed-and-extend caller *)

Section seed_facts.
Context {T : Type} `{Number T}.
Variables (track_list : list (TrackEntry T)) (wins : list Win.t)
          (seed_thr : T) (seed_k : Z) (ext_thr xdrop reward pen_bad pen_miss : T)
          (min_windows min_len_bp : Z) (treat_missing_as_gap : bool).

Local Abbreviation n := (length wins).
Local Abbreviation idents := (ident_by_idx_of track_list).
Local Abbreviation is_seed := (seed_window track_list seed_thr).

(** A seed run: windows [s..e], all present with identity at least
    [seed_thr], and at least [seed_k] of them. *)
Definition seed_range (se : nat * nat) : Prop :=
  (se.1 ≤ se.2 < n)%nat ∧
  (∀ k, (se.1 ≤ k ≤ se.2)%nat →
        ∃ x, idents !! k = Some x ∧ nge x seed_thr = true) ∧
  seed_k ≤ Z.of_nat se.2 - Z.of_nat se.1 + 1.

Lemma seed_window_true k :
  is_seed k = true ↔ ∃ x, idents !! k = Some x ∧ nge x seed_thr = true.
Proof.
  unfold seed_window. destruct (idents !! k) as [x|]; split.
  - intros Hx. by exists x.
  - by intros (y & [= <-] & Hy).
  - done.
  - by intros (y & [=] & _).
Qed.

Lemma seed_run_spec fuel j run :
  (n - j < fuel)%nat →
  ∃ j', seed_run track_list wins seed_thr fuel j run
        = Some (j', run + Z.of_nat (j' - j))
      ∧ (j ≤ j')%nat ∧ (j' ≤ n ∨ j' = j)%nat
      ∧ (∀ k, (j ≤ k < j')%nat → is_seed k = true)
      ∧ ((j < n)%nat → is_seed j = true → (j < j')%nat).
Proof.
  revert j run. induction fuel as [|fuel IH]; intros j run Hf; [lia|]. simpl.
  destruct (j <? n)%nat eqn:Hj; simpl.
  - apply Nat.ltb_lt in Hj. destruct (is_seed j) eqn:Hs.
    + destruct (IH (j + 1)%nat (run + 1)) as (j' & -> & Hle & Hn & Hall & _); [lia|].
      exists j'. split; [f_equal; f_equal; lia|]. split; [lia|]. split; [lia|].
      split; [|lia]. intros k Hk.
      destruct (decide (k = j)) as [->|]; [done|apply Hall; lia].
    + exists j. split; [f_equal; f_equal; lia|]. split; [lia|]. split; [lia|].
      split; [lia|]. congruence.
  - apply Nat.ltb_ge in Hj. exists j.
    split; [f_equal; f_equal; lia|]. split; [lia|]. split; [lia|]. split; lia.
Qed.

Lemma find_seeds_S fuel i seeds :
  find_seeds track_list wins seed_thr seed_k (S fuel) i seeds =
  if (i <? n)%nat then
    if is_seed i then
      seed_run track_list wins seed_thr (S n) i 0 ≫= λ '(j, run),
        find_seeds track_list wins seed_thr seed_k fuel j
          (if seed_k <=? run then seeds ++ [(i, (j - 1)%nat)] else seeds)
    else find_seeds track_list wins seed_thr seed_k fuel (i + 1)%nat seeds
  else Some seeds.
Proof. done. Qed.

Lemma find_seeds_spec fuel i seeds :
  (n - i < fuel)%nat → Forall seed_range seeds →
  ∃ seeds', find_seeds track_list wins seed_thr seed_k fuel i seeds = Some seeds'
            ∧ Forall seed_range seeds'.
Proof.
  revert i seeds. induction fuel as [|fuel IH]; intros i seeds Hf Hs; [lia|].
  rewrite find_seeds_S. destruct (i <? n)%nat eqn:Hi; [|by exists seeds].
  apply Nat.ltb_lt in Hi. destruct (is_seed i) eqn:Hw.
  - destruct (seed_run_spec (S n) i 0) as (j & -> & Hle & Hn & Hall & Hlt); [lia|].
    specialize (Hlt Hi Hw). cbn [mbind option_bind]. apply IH; [lia|].
    destruct (seed_k <=? 0 + Z.of_nat (j - i)) eqn:Hk; [|done].
    apply Forall_app. split; [done|]. constructor; [|constructor].
    apply Z.leb_le in Hk. split; simpl; [lia|]. split; [|lia].
    intros k Hk'. apply seed_window_true, Hall. lia.
  - apply IH; [lia|done].
Qed.

(** The extension returns the seed boundary or a window it walked over. *)
Lemma xdrop_extend_in ks score best_score best :
  let r := xdrop_extend track_list ext_thr xdrop reward pen_bad pen_miss
             treat_missing_as_gap ks score best_score best in
  r = best ∨ r ∈ ks.
Proof.
  revert score best_score best.
  induction ks as [|k ks IH]; intros score best_score best; simpl; [by left|].
  assert (Hstep : ∀ sc,
    let r := (let '(bs, b) :=
                if ngt sc best_score then (sc, k) else (best_score, best) in
              if ngt (nsub bs sc) xdrop then b
              else xdrop_extend track_list ext_thr xdrop reward pen_bad pen_miss
                     treat_missing_as_gap ks sc bs b) in
    r = best ∨ r ∈ k :: ks).
  { intros sc. simpl. destruct (ngt sc best_score).
    - destruct (ngt _ xdrop); [right; left|].
      destruct (IH sc sc k) as [->|?]; right; [left|by right].
    - destruct (ngt _ xdrop); [by left|].
      destruct (IH sc best_score best) as [->|?]; [by left|right; by right]. }
  destruct (idents !! k) as [x|].
  - apply Hstep.
  - destruct treat_missing_as_gap; simpl; [apply Hstep|].
    destruct (IH score best_score best) as [?|?]; [by left|right; by right].
Qed.

Lemma extend_left_le s :
  (extend_left track_list ext_thr xdrop reward pen_bad pen_miss
     treat_missing_as_gap s ≤ s)%nat.
Proof.
  unfold extend_left.
  destruct (xdrop_extend_in (reverse (seq 0 s)) n0 n0 s) as [->|Hin]; [done|].
  apply elem_of_reverse, elem_of_seq in Hin. lia.
Qed.

Lemma extend_right_bounds e :
  (e < n)%nat →
  (e ≤ extend_right track_list wins ext_thr xdrop reward pen_bad pen_miss
         treat_missing_as_gap e < n)%nat.
Proof.
  intros He. unfold extend_right.
  destruct (xdrop_extend_in (seq (e + 1) (n - (e + 1))) n0 n0 e) as [->|Hin]; [lia|].
  apply elem_of_seq in Hin. lia.
Qed.

Lemma all_used_total (used : list bool) ks :
  (∀ k, k ∈ ks → (k < length used)%nat) → is_Some (all_used used ks).
Proof.
  induction ks as [|k ks IH]; intros Hks; simpl; [done|].
  destruct (lookup_lt_is_Some_2 used k) as [u ->]; [apply Hks; left|].
  destruct u; [|done]. apply IH. intros k' Hk'. apply Hks. by right.
Qed.

Lemma mark_used_total (used : list bool) ks :
  (∀ k, k ∈ ks → (k < length used)%nat) →
  ∃ used', mark_used used ks = Some used' ∧ length used' = length used.
Proof.
  revert used. induction ks as [|k ks IH]; intros used Hks; simpl; [by exists used|].
  assert (k < length used)%nat as Hk by (apply Hks; left).
  apply Nat.ltb_lt in Hk as ->.
  destruct (IH (<[k := true]> used)) as (used' & -> & Hlen).
  - intros k' Hk'. rewrite length_insert. apply Hks. by right.
  - exists used'. by rewrite Hlen, length_insert.
Qed.

Lemma elem_of_range_incl k s e : k ∈ range_incl s e ↔ (s ≤ k ≤ e)%nat.
Proof. unfold range_incl. rewrite elem_of_seq. lia. Qed.

(** A candidate: the summary of a window range [l..r] around a seed run,
    accepted by the size filter. *)
Definition candidate (seg : Seg.t T) : Prop :=
  ∃ l r se, seed_range se ∧ (l ≤ se.1)%nat ∧ (se.2 ≤ r < n)%nat ∧
    summarize_segment l r wins idents = Some seg ∧
    min_windows ≤ Seg.n_windows seg ∧ min_len_bp ≤ Seg.covered_bp seg.

Lemma summarize_segment_total l r :
  (l < n)%nat → (r < n)%nat → is_Some (summarize_segment l r wins idents).
Proof.
  intros Hl Hr. unfold summarize_segment.
  destruct (lookup_lt_is_Some_2 wins l Hl) as [ws ->].
  destruct (lookup_lt_is_Some_2 wins r Hr) as [we ->]. done.
Qed.

Lemma seed_body_spec used segs se :
  length used = n → seed_range se → Forall candidate segs →
  ∃ used' segs',
    seed_body track_list wins ext_thr xdrop reward pen_bad pen_miss
      min_windows min_len_bp treat_missing_as_gap (used, segs) se
    = Some (used', segs')
    ∧ length used' = n ∧ Forall candidate segs'.
Proof.
  intros Hlen Hse Hsegs. destruct se as [s e].
  pose proof Hse as ([Hs He] & Hall & Hk).
  simpl in *. unfold seed_body.
  destruct (all_used_total used (range_incl s e)) as [u ->].
  { intros k Hk'%elem_of_range_incl. lia. }
  destruct u; [by exists used, segs|].
  set (l := extend_left _ _ _ _ _ _ _ s).
  set (r := extend_right _ _ _ _ _ _ _ _ e).
  assert (l ≤ s)%nat by apply extend_left_le.
  assert (e ≤ r < n)%nat by by apply extend_right_bounds.
  destruct (summarize_segment_total l r) as [seg Hseg]; [lia..|].
  rewrite Hseg. simpl.
  destruct ((min_windows <=? Seg.n_windows seg)
            && (min_len_bp <=? Seg.covered_bp seg)) eqn:Hf;
    [|by exists used, segs].
  destruct (mark_used_total used (range_incl l r)) as (used' & -> & Hlen').
  { intros k Hk'%elem_of_range_incl. lia. }
  simpl. exists used', (segs ++ [seg]). split; [done|]. split; [congruence|].
  apply Forall_app. split; [done|]. constructor; [|constructor].
  apply andb_prop in Hf as [?%Z.leb_le ?%Z.leb_le].
  exists l, r, (s, e). simpl. repeat split; auto; lia.
Qed.

Lemma seed_loop_spec seeds used segs :
  length used = n → Forall seed_range seeds → Forall candidate segs →
  ∃ used' segs',
    for_each (seed_body track_list wins ext_thr xdrop reward pen_bad pen_miss
                min_windows min_len_bp treat_missing_as_gap) (used, segs) seeds
    = Some (used', segs')
    ∧ Forall candidate segs'.
Proof.
  revert used segs.
  induction seeds as [|se seeds IH]; intros used segs Hlen Hseeds Hsegs.
  - by exists used, segs.
  - apply Forall_cons in Hseeds as [Hse Hseeds]. cbn [for_each].
    destruct (seed_body_spec used segs se)
      as (used1 & segs1 & -> & Hlen1 & Hsegs1); [done..|].
    simpl. by apply IH.
Qed.

(** The candidates before merging: the caller never raises, and each
    candidate is the summary of a window range holding a seed run. *)
Lemma seed_candidates_spec :
  ∃ segs, seed_candidates track_list wins seed_thr seed_k ext_thr xdrop reward
            pen_bad pen_miss min_windows min_len_bp treat_missing_as_gap
          = Some segs
          ∧ Forall candidate segs.
Proof.
  unfold seed_candidates.
  destruct (find_seeds_spec (S n) 0 []) as (seeds & -> & Hseeds); [lia|constructor|].
  simpl.
  destruct (seed_loop_spec seeds (replicate n false) [])
    as (used & segs & -> & Hsegs);
    [by rewrite length_replicate|done|constructor|].
  by exists segs.
Qed.

(** After merging: every segment returned is a candidate with a widened
    base-pair range. *)
Lemma seed_extend_spec :
  ∃ segs, seed_extend_segments_for_pair track_list wins seed_thr seed_k ext_thr
            xdrop reward pen_bad pen_miss min_windows min_len_bp
            treat_missing_as_gap
          = Some segs
          ∧ Forall (λ seg, ∃ c, candidate c ∧ widened c seg) segs.
Proof.
  unfold seed_extend_segments_for_pair.
  destruct seed_candidates_spec as (cands & -> & Hc). simpl.
  eexists; split; [done|]. apply Forall_forall. intros seg Hseg.
  apply merge_segments_widened in Hseg as (c & Hin & Hw).
  exists c. split; [|done]. by eapply Forall_forall in Hc.
Qed.
End seed_facts.

(** * Filter enforcement and seed containment *)

Section emitted.
Context {T : Type} `{Number T}.

(** The size filter of both callers. *)
Definition size_ok (min_windows min_len_bp : Z) (seg : Seg.t T) : Prop :=
  min_windows ≤ Seg.n_windows seg ∧ min_len_bp ≤ Seg.covered_bp seg.

Lemma passes_size_ok (wins : list Win.t) min_windows min_len_bp cur
    called ident_sum min_ident g ws we :
  wins !! start_idx cur = Some ws → wins !! end_idx cur = Some we →
  let seg := run_segment wins cur called ident_sum min_ident g ws we in
  passes min_windows min_len_bp seg = true →
  size_ok min_windows min_len_bp seg.
Proof.
  intros _ _ seg Hp. unfold passes in Hp.
  apply andb_prop in Hp as [?%Z.leb_le ?%Z.leb_le]. by split.
Qed.

(** C6. Filter enforcement: both callers return normally, and every
    segment they return, in the seed-and-extend caller after the merge
    step, reports [n_windows >= min_windows] and
    [covered_bp >= min_len_bp]. *)
Theorem filter_enforcement :
  ∀ (track_list : list (TrackEntry T)) (wins : list Win.t)
    (min_windows min_len_bp : Z) (treat_missing_as_gap : bool),
    (∀ min_id max_gap drop_tolerance,
       ∃ segs, rle_segments_for_pair track_list wins min_id max_gap min_windows
                 min_len_bp treat_missing_as_gap drop_tolerance = Some segs
               ∧ Forall (size_ok min_windows min_len_bp) segs) ∧
    (∀ seed_thr seed_k ext_thr xdrop reward pen_bad pen_miss,
       ∃ segs, seed_extend_segments_for_pair track_list wins seed_thr seed_k
                 ext_thr xdrop reward pen_bad pen_miss min_windows min_len_bp
                 treat_missing_as_gap = Some segs
               ∧ Forall (size_ok min_windows min_len_bp) segs).
Proof.
  intros track_list wins min_windows min_len_bp treat. split.
  - intros min_id max_gap drop.
    destruct (rle_result track_list wins min_id max_gap min_windows min_len_bp
                treat drop
                (λ _ st, Forall (size_ok min_windows min_len_bp) (segments st)))
      as (st & segs & Hrun & HI & _ & Hfin).
    + constructor.
    + intros i st st' _ _ HI Hstep.
      rle_step_cases Hstep; simpl; try done.
      * by destruct (ident_by_idx_of track_list !! i).
      * eapply closes_Forall; [|apply passes_size_ok|exact Hcl].
        by destruct (ident_by_idx_of track_list !! i).
      * eapply closes_Forall; [exact HI|apply passes_size_ok|exact Hcl].
    + exists segs. split; [done|]. destruct (current st) as [cur|]; [|by subst].
      eapply closes_Forall; [exact HI|apply passes_size_ok|exact Hfin].
  - intros seed_thr seed_k ext_thr xdrop reward pen_bad pen_miss.
    destruct (seed_extend_spec track_list wins seed_thr seed_k ext_thr xdrop
                reward pen_bad pen_miss min_windows min_len_bp treat)
      as (segs & Hrun & Hsegs).
    exists segs. split; [done|]. eapply Forall_impl; [exact Hsegs|].
    intros seg (c & (l & r & se & _ & _ & _ & _ & Hw & Hb) & Hwid).
    unfold widened in Hwid. unfold size_ok. intuition congruence.
Qed.

(** The window range [l..r] of a returned segment: the segment is the
    summary of these windows, its base-pair range possibly widened by the
    merge step. *)
Definition spans (track_list : list (TrackEntry T)) (wins : list Win.t)
    (seg : Seg.t T) (l r : nat) : Prop :=
  ∃ c, summarize_segment l r wins (ident_by_idx_of track_list) = Some c
       ∧ widened c seg.

(** C5. Seed containment: the seed-and-extend caller returns normally, and
    every segment it returns spans a window range [l..r] that contains a
    seed run [s..e]: at least [seed_k] consecutive windows, each present in
    the track with identity at least [seed_thr]. *)
Theorem seed_containment :
  ∀ (track_list : list (TrackEntry T)) (wins : list Win.t) (seed_thr : T)
    (seed_k : Z) (ext_thr xdrop reward pen_bad pen_miss : T)
    (min_windows min_len_bp : Z) (treat_missing_as_gap : bool),
    ∃ segs, seed_extend_segments_for_pair track_list wins seed_thr seed_k
              ext_thr xdrop reward pen_bad pen_miss min_windows min_len_bp
              treat_missing_as_gap = Some segs
            ∧ ∀ seg, seg ∈ segs →
                ∃ l r s e : nat,
                  spans track_list wins seg l r ∧
                  (l ≤ s ≤ e)%nat ∧ (e ≤ r < length wins)%nat ∧
                  seed_k ≤ Z.of_nat e - Z.of_nat s + 1 ∧
                  ∀ k, (s ≤ k ≤ e)%nat →
                       ∃ x, ident_by_idx_of track_list !! k = Some x
                            ∧ nge x seed_thr = true.
Proof.
  intros.
  destruct (seed_extend_spec track_list wins seed_thr seed_k ext_thr xdrop
              reward pen_bad pen_miss min_windows min_len_bp treat_missing_as_gap)
    as (segs & Hrun & Hsegs).
  exists segs. split; [done|]. intros seg Hseg.
  eapply Forall_forall in Hsegs
    as (c & (l & r & [s e] & Hse & Hl & Hr & Hsum & _) & Hw);
    [|exact Hseg].
  destruct Hse as (Hb & Hall & Hk). simpl in *.
  exists l, r, s, e. split; [by exists c|]. repeat split; auto; lia.
Qed.
End emitted.

(** The seed-and-extend scenario of [toy3], with the default
    configuration and missing windows counted as gaps: the seed is the run
    of windows 4..5, the extension to the left reaches window 1 across the
    missing window 3, and the segment spans windows 1..5. *)
Example seed_toy3_scenario :
  ∃ seg, seed_extend_segments_for_pair toy3_float (toy_wins 7) 0.9998%float 2
           0.9995%float 2%float 1%float 1%float 1%float 3 5000 true
         = Some [seg]
         ∧ Seg.start seg = 5000 ∧ Seg.end_ seg = 30000
         ∧ Seg.n_windows seg = 5 ∧ Seg.covered_bp seg = 25000.
Proof. eexists. split; [vm_compute; reflexivity|]. repeat split. Qed.
(** * Merge correctness *)

Section merge_correct.
Context {T : Type} `{Number T}.

(** [x] lies before [y]: it starts no later, and ends before [y] starts. *)
Definition before (x y : Seg.t T) : Prop :=
  Seg.start x ≤ Seg.start y ∧ Seg.end_ x < Seg.start y.

(** The closed ranges [start, end] of [x] and [y] share a position. *)
Definition overlap (x y : Seg.t T) : Prop :=
  ∃ p, (Seg.start x ≤ p ≤ Seg.end_ x) ∧ (Seg.start y ≤ p ≤ Seg.end_ y).

#[local] Instance before_trans : Transitive before.
Proof. intros x y z [? ?] [? ?]. unfold before. lia. Qed.

Definition start_le (x y : Seg.t T) : Prop := Seg.start x ≤ Seg.start y.

#[local] Instance start_le_trans : Transitive start_le.
Proof. intros x y z. unfold start_le. lia. Qed.

(** On one chromosome the sort key orders the segments by [start]. *)
Lemma sorted_by_start (segs : list (Seg.t T)) c :
  Forall (λ s, Seg.chr s = c) segs →
  StronglySorted start_le (sorted_by key_lt seg_key segs).
Proof.
  intros Hc. apply sorted_by_sorted; [apply _|..];
    intros x y Hx%(proj1 (Forall_forall _ _) Hc) Hy%(proj1 (Forall_forall _ _) Hc);
    unfold seg_key, key_lt, start_le; rewrite Hx, Hy, String.eqb_refl; simpl;
    destruct (Seg.start y =? Seg.start x) eqn:He; simpl; lia.
Qed.

Lemma merge_fold_before c (rest : list (Seg.t T)) init last :
  Forall (λ s, Seg.chr s = c) (last :: rest) →
  StronglySorted start_le (last :: rest) →
  StronglySorted before (init ++ [last]) →
  StronglySorted before
    (let '(i, l) := foldl merge_body (init, last) rest in i ++ [l]).
Proof.
  revert init last.
  induction rest as [|s rest IH]; intros init last Hc Hs Hb; [done|].
  apply Forall_cons in Hc as [Hcl Hc]. pose proof Hc as [Hcs Hc']%Forall_cons.
  apply StronglySorted_inv in Hs as [Hs Hl].
  pose proof Hl as [Hls Hl']%Forall_cons. unfold start_le in Hls.
  apply StronglySorted_app in Hb as (Hil & Hi & _).
  cbn [foldl]. unfold merge_body at 2.
  rewrite Hcs, Hcl, String.eqb_refl. simpl.
  destruct (Seg.start s <=? Seg.end_ last) eqn:Hm.
  - apply IH.
    + by constructor.
    + apply StronglySorted_inv in Hs as [Hs Hs'].
      constructor; [done|]. eapply Forall_impl; [exact Hl'|].
      intros z. unfold start_le. simpl. lia.
    + apply StronglySorted_app. split; [|split; [done|repeat constructor]].
      intros x y Hx ->%list_elem_of_singleton.
      destruct (Hil x last) as [? ?]; [done|by left|]. unfold before. simpl. lia.
  - apply Z.leb_gt in Hm. apply IH; [done|done|].
    apply StronglySorted_app. split; [|split; [|repeat constructor]].
    + intros x y Hx ->%list_elem_of_singleton. unfold before.
      apply elem_of_app in Hx as [Hx| ->%list_elem_of_singleton]; [|lia].
      destruct (Hil x last) as [? ?]; [done|by left|]. lia.
    + apply StronglySorted_app. split; [done|split; [done|repeat constructor]].
Qed.

Lemma merge_segments_before (segs : list (Seg.t T)) wins c :
  Forall (λ s, Seg.chr s = c) segs →
  StronglySorted before (merge_segments segs wins).
Proof.
  intros Hc. unfold merge_segments.
  pose proof (sorted_by_start segs c Hc) as Hs.
  assert (Hc' : Forall (λ s, Seg.chr s = c) (sorted_by key_lt seg_key segs)).
  { apply Forall_forall. intros x Hx%sorted_by_elem. by eapply Forall_forall in Hc. }
  destruct (sorted_by key_lt seg_key segs) as [|s0 rest]; [constructor|].
  apply (merge_fold_before c rest [] s0); [done..|repeat constructor].
Qed.

Lemma before_no_overlap x y : before x y → ¬ overlap x y ∧ ¬ overlap y x.
Proof. intros [? ?]. split; intros (p & ? & ?); lia. Qed.

Lemma StronglySorted_lookup_lt (R : relation (Seg.t T)) l i j x y :
  StronglySorted R l → (i < j)%nat →
  l !! i = Some x → l !! j = Some y → R x y.
Proof.
  intros Hs Hij Hi Hj.
  rewrite <- (take_drop j l) in Hs.
  eapply StronglySorted_app_1_elem_of; [exact Hs|..].
  - apply list_elem_of_lookup. exists i. rewrite lookup_take_lt; done.
  - apply list_elem_of_lookup. exists 0%nat. by rewrite lookup_drop, Nat.add_0_r.
Qed.

(** C7. Merge correctness: for candidate segments on one chromosome, the
    list returned by the merge step is ordered by [start], each segment
    starts strictly after every earlier one ends, and no two of its
    segments have overlapping [start, end] ranges. *)
Theorem merge_correctness :
  ∀ (segs : list (Seg.t T)) (wins : list Win.t) (c : string),
    Forall (λ s, Seg.chr s = c) segs →
    ∀ (i j : nat) (x y : Seg.t T),
      merge_segments segs wins !! i = Some x →
      merge_segments segs wins !! j = Some y →
      ((i < j)%nat → Seg.start x ≤ Seg.start y ∧ Seg.end_ x < Seg.start y) ∧
      (i ≠ j → ¬ overlap x y).
Proof.
  intros segs wins c Hc i j x y Hi Hj.
  pose proof (merge_segments_before segs wins c Hc) as Hs.
  split.
  - intros Hij. exact (StronglySorted_lookup_lt before _ i j x y Hs Hij Hi Hj).
  - intros Hne. destruct (decide (i < j)%nat) as [Hij|Hij].
    + apply (before_no_overlap x y).
      exact (StronglySorted_lookup_lt before _ i j x y Hs Hij Hi Hj).
    + apply (before_no_overlap y x).
      apply (StronglySorted_lookup_lt before _ j i y x Hs); [lia|done..].
Qed.
End merge_correct.

(** [merge_correctness] on three candidates, two of which overlap. *)
Lemma merge_correctness_witness :
  let segs := [seg_at 30000 45000; seg_at 0 15000; seg_at 10000 25000] in
  let x := seg_at 0 25000 in
  let y := seg_at 30000 45000 in
  Forall (λ s, Seg.chr s = "chr1") segs ∧
  merge_segments segs [] !! 0%nat = Some x ∧
  merge_segments segs [] !! 1%nat = Some y ∧
  ((0 < 1)%nat → Seg.start x ≤ Seg.start y ∧ Seg.end_ x < Seg.start y) ∧
  (0%nat ≠ 1%nat → ¬ overlap x y).
Proof.
  simpl.
  assert (Hc : Forall (λ s : Seg.t Q, Seg.chr s = "chr1")
                 [seg_at 30000 45000; seg_at 0 15000; seg_at 10000 25000])
    by (repeat constructor).
  split; [exact Hc|]. split; [reflexivity|]. split; [reflexivity|].
  exact (merge_correctness _ [] "chr1" Hc 0%nat 1%nat (seg_at 0 25000)
           (seg_at 30000 45000) eq_refl eq_refl).
Defined.
(** * Gap tolerance of the RLE caller *)

Lemma sum_Z_app l1 l2 : sum_Z (l1 ++ l2) = sum_Z l1 + sum_Z l2.
Proof. unfold sum_Z. induction l1 as [|x l1 IH]; simpl; lia. Qed.

Lemma range_incl_S s e :
  (s ≤ S e)%nat → range_incl s (S e) = range_incl s e ++ [S e].
Proof.
  intros Hse. unfold range_incl.
  replace (S e + 1 - s)%nat with (S (e + 1 - s)) by lia.
  rewrite seq_S. do 2 f_equal. lia.
Qed.

Lemma range_incl_one s : range_incl s s = [s].
Proof. unfold range_incl. by replace (s + 1 - s)%nat with 1%nat by lia. Qed.

Section gap_tolerance.
Context {T : Type} `{Number T}.
Variables (track_list : list (TrackEntry T)) (wins : list Win.t)
          (min_id : T) (max_gap min_windows min_len_bp : Z)
          (treat_missing_as_gap : bool) (drop_tolerance : T).

Local Abbreviation ident_at i := (ident_by_idx_of track_list !! i).

(** The state of the scan when window [i] is about to be read. *)
Definition rle_state_at (i : nat) (st : RleState T) : Prop :=
  rle_loop track_list wins min_id max_gap min_windows min_len_bp
    treat_missing_as_gap drop_tolerance rle_init (seq 0 i) = Some st.

(** The number of windows in [s..e] that are missing from the track. *)
Definition missing_in (s e : nat) : Z :=
  sum_Z ((λ k, if ident_at k is None then 1 else 0) <$> range_incl s e).

(** The number of consecutive windows, up to and including [i], that are
    missing or do not qualify: the windows seen since the last qualifying
    one. *)
Fixpoint nonqualifying_streak (i : nat) : Z :=
  let bad := match ident_at i with
             | Some x => negb (qualifies min_id drop_tolerance x)
             | None => true
             end in
  match i with
  | O => if bad then 1 else 0
  | S i' => if bad then 1 + nonqualifying_streak i' else 0
  end.

Lemma missing_in_S s e :
  (s ≤ S e)%nat →
  missing_in s (S e) = missing_in s e + (if ident_at (S e) is None then 1 else 0).
Proof.
  intros Hse. unfold missing_in. rewrite range_incl_S by done.
  rewrite fmap_app, sum_Z_app. simpl. lia.
Qed.

Lemma missing_in_step s i :
  (s < i)%nat →
  missing_in s i
  = missing_in s (i - 1) + (if ident_at i is None then 1 else 0).
Proof.
  intros Hs. destruct i as [|i]; [lia|].
  rewrite missing_in_S by lia. by replace (S i - 1)%nat with i by lia.
Qed.

(** While a run is active, [gaps] counts the missing windows of the run. *)
Definition gaps_inv (i : nat) (st : RleState T) : Prop :=
  ∀ cur, current st = Some cur → gaps st = missing_in (start_idx cur) (i - 1).

Lemma gaps_inv_step i st st' :
  rle_wf i st → gaps_inv i st →
  rle_step track_list wins min_id max_gap min_windows min_len_bp
    treat_missing_as_gap drop_tolerance i st st' →
  gaps_inv (S i) st'.
Proof.
  intros Hwf HG Hstep. unfold gaps_inv, rle_wf in *.
  destruct Hstep as [Hc|x Hc Hx|cur Hc|cur segs|cur segs]; simpl.
  - rewrite Hc. done.
  - intros cur [= <-]. simpl. rewrite Nat.sub_0_r. unfold missing_in.
    rewrite range_incl_one. simpl. by rewrite Hx.
  - rewrite Hc in Hwf. destruct Hwf as [Hs He].
    specialize (HG cur Hc). rewrite Nat.sub_0_r.
    pose proof (missing_in_step (start_idx cur) i Hs) as Hm.
    destruct (ident_at i); simpl; intros c [= <-]; simpl; lia.
  - done.
  - done.
Qed.

Lemma rle_state_at_inv i st :
  (i ≤ length wins)%nat → rle_state_at i st → rle_wf i st ∧ gaps_inv i st.
Proof.
  intros Hi Hst.
  destruct (rle_loop_inv track_list wins min_id max_gap min_windows min_len_bp
              treat_missing_as_gap drop_tolerance gaps_inv i Hi)
    as (st0 & Hrun & Hwf & HG).
  - by intros cur.
  - intros k st1 st2 _. apply gaps_inv_step.
  - unfold rle_state_at in Hst. by simplify_eq.
Qed.

(** Window [i] is present and does not qualify. *)
Definition below_threshold (i : nat) : Prop :=
  ∃ x, ident_at i = Some x ∧ qualifies min_id drop_tolerance x = false.

(** Window [i] is missing and missing windows are not gaps. *)
Definition hard_break (i : nat) : Prop :=
  ident_at i = None ∧ treat_missing_as_gap = false.

(** The rule by which reading window [i] closes the active run [cur],
    [st'] being the state after the window. *)
Definition gap_rule (i : nat) (cur : Cur) (st' : RleState T) : Prop :=
  (below_threshold i ∨ hard_break i → current st' = None) ∧
  (current st' = None →
   below_threshold i ∨ hard_break i ∨ max_gap < missing_in (start_idx cur) i).

(** What the scan does.  When window [i] is read while a run is active,
    the run is closed at once by a present window that does not qualify,
    and by a missing window when [treat_missing_as_gap] is off; otherwise
    it is closed only if more than [max_gap] missing windows have been
    taken into the run since it started. *)
Lemma rle_gap_rule (i : nat) (st : RleState T) (cur : Cur) :
  (i < length wins)%nat → rle_state_at i st → current st = Some cur →
  ∃ st',
    rle_body track_list wins min_id max_gap min_windows min_len_bp
      treat_missing_as_gap drop_tolerance st i = Some st' ∧
    gap_rule i cur st'.
Proof.
  intros Hi Hst Hc.
  destruct (rle_state_at_inv i st) as [Hwf HG]; [lia|done|].
  destruct (rle_body_step track_list wins min_id max_gap min_windows min_len_bp
              treat_missing_as_gap drop_tolerance i st Hi Hwf)
    as (st' & Hb & Hstep & _).
  exists st'. split; [done|]. unfold gap_rule, below_threshold, hard_break.
  pose proof (HG cur Hc) as Hg. unfold rle_wf in Hwf. rewrite Hc in Hwf.
  destruct Hwf as [Hs He].
  assert (Hm : missing_in (start_idx cur) i
               = gaps st + (if ident_at i is None then 1 else 0)).
  { rewrite missing_in_step by done. lia. }
  destruct Hstep as [Hc'|x Hc' Hx|cur' Hc' Ha Hle
                    |cur' segs Hc' Ha Hgt|cur' segs Hc' Ha];
    try congruence; simpl.
  - split.
    + intros [(x & Hx & Hq)|[Hx Ht]]; rewrite Hx in Ha; simpl in Ha; congruence.
    + by destruct (ident_at i).
  - split; [done|]. intros _. right; right. rewrite Hm.
    destruct (ident_at i); simpl in *; lia.
  - split; [done|]. intros _. destruct (ident_at i) as [x|]; simpl in Ha.
    + left. by exists x.
    + right; left. done.
Qed.

(** The claim as the specification words it: a run is closed only after
    more than [max_gap] consecutive windows that are missing or below the
    threshold. *)
Definition closed_at (i : nat) : Prop :=
  ∃ st cur st',
    rle_state_at i st ∧ current st = Some cur ∧
    rle_body track_list wins min_id max_gap min_windows min_len_bp
      treat_missing_as_gap drop_tolerance st i = Some st' ∧
    current st' = None.

Definition tolerates_max_gap : Prop :=
  ∀ i, (i < length wins)%nat → closed_at i → max_gap < nonqualifying_streak i.
End gap_tolerance.

(** The base-pair range of a segment. *)
Definition seg_range {T} (seg : Seg.t T) : Z * Z :=
  (Seg.start seg, Seg.end_ seg).

(** C1.  The scan keeps neither the claim nor the help text of
    [--max-gap], "Max consecutive sub-threshold/missing windows in RLE
    mode".  With [max_gap = 1] and [min_windows = 1], in binary64:
    - on the track 0.9998, 0.9950, 0.9998 at threshold 0.9995, the run
      opened at window 0 is closed by window 1, a single window below the
      threshold, and the caller returns the segments 0..5000 and
      10000..15000 instead of one run over the three windows, whether
      missing windows count as gaps or not;
    - on the track with windows 1 and 3 missing at threshold 0.9990,
      missing windows counting as gaps, the run opened at window 0 takes
      in window 1 and is closed by window 3, although window 2 qualifies
      in between: the missing windows of a run are counted from its start
      and the count is never reset. *)
Theorem rle_gap_tolerance_failing_input :
  (¬ tolerates_max_gap (toy_track dip_float) (toy_wins 3)
       0.9995%float 1 1 5000 true 0%float ∧
   fmap (M := list) seg_range
     <$> rle_segments_for_pair (toy_track dip_float) (toy_wins 3)
           0.9995%float 1 1 5000 true 0%float
   = Some [(0, 5000); (10000, 15000)] ∧
   fmap (M := list) seg_range
     <$> rle_segments_for_pair (toy_track dip_float) (toy_wins 3)
           0.9995%float 1 1 5000 false 0%float
   = Some [(0, 5000); (10000, 15000)]) ∧
  (¬ tolerates_max_gap gapped_float (toy_wins 6)
       0.9990%float 1 1 5000 true 0%float ∧
   fmap (M := list) seg_range
     <$> rle_segments_for_pair gapped_float (toy_wins 6)
           0.9990%float 1 1 5000 true 0%float
   = Some [(0, 15000); (20000, 30000)]).
Proof.
  split; (split; [|repeat split; vm_compute; reflexivity]).
  - intros Hclaim.
    assert (Hclosed : closed_at (toy_track dip_float) (toy_wins 3)
                        0.9995%float 1 1 5000 true 0%float 1).
    { eexists _, _, _. repeat split; vm_compute; reflexivity. }
    apply Hclaim in Hclosed; [|simpl; lia]. vm_compute in Hclosed. discriminate.
  - intros Hclaim.
    assert (Hclosed : closed_at gapped_float (toy_wins 6)
                        0.9990%float 1 1 5000 true 0%float 3).
    { eexists _, _, _. repeat split; vm_compute; reflexivity. }
    apply Hclaim in Hclosed; [|simpl; lia]. vm_compute in Hclosed. discriminate.
Qed.

(** * Coverage as a difference of prefix sums *)

Section coverage.
Variable wins : list Win.t.

(** The length of window [k] (0 past the end of the chromosome). *)
Definition len_at (k : nat) : Z := from_option Win.length 0 (wins !! k).

(** The base pairs of the windows [0..k-1]. *)
Definition pre (k : nat) : Z := sum_Z (len_at <$> seq 0 k).

Lemma slice_sum s m :
  sum_Z (Win.length <$> take m (drop s wins)) = sum_Z (len_at <$> seq s m).
Proof.
  revert s. induction m as [|m IH]; intros s; [done|].
  cbn [seq fmap list_fmap sum_Z foldr]. fold (sum_Z (len_at <$> seq (S s) m)).
  rewrite <- IH. unfold len_at.
  destruct (wins !! s) as [w|] eqn:Hw.
  - by rewrite (drop_S _ _ _ Hw).
  - apply lookup_ge_None in Hw.
    rewrite !drop_ge by lia. by rewrite !take_nil.
Qed.

Lemma pre_S k : pre (S k) = pre k + len_at k.
Proof. unfold pre. rewrite seq_S, fmap_app, sum_Z_app. simpl. lia. Qed.

Lemma covered_pre s e :
  (s ≤ e + 1)%nat → covered wins s e = pre (e + 1) - pre s.
Proof.
  intros Hs. unfold covered, slice, pre. rewrite slice_sum.
  replace (e + 1)%nat with (s + (e + 1 - s))%nat at 2 by lia.
  rewrite seq_app, fmap_app, sum_Z_app. simpl. lia.
Qed.

Hypothesis lengths_nonneg : Forall (λ w, 0 ≤ Win.length w) wins.

Lemma len_at_nonneg k : 0 ≤ len_at k.
Proof.
  unfold len_at. destruct (wins !! k) as [w|] eqn:Hw; simpl; [|done].
  eapply Forall_forall in lengths_nonneg; [exact lengths_nonneg|].
  by eapply list_elem_of_lookup_2.
Qed.

Lemma pre_mono s t : (s ≤ t)%nat → pre s ≤ pre t.
Proof.
  induction 1 as [|t _ IH]; [done|].
  rewrite pre_S. pose proof (len_at_nonneg t). lia.
Qed.
End coverage.

(** * The run-length model behind the RLE caller *)

Section abstract_runs.
Variables (wins : list Win.t) (min_windows min_len_bp : Z).

(** The base pairs a run over the windows [s..i-1] adds to the output when
    it is closed: all of them, or none when the size filter rejects it. *)
Definition emit_cov (s i : nat) : Z :=
  if (min_windows <=? Z.of_nat i - Z.of_nat s)
     && (min_len_bp <=? pre wins i - pre wins s)
  then pre wins i - pre wins s else 0.

(** A state of the model: the start of the active run, if any, and the
    base pairs output so far. *)
Definition abs_step (good : bool) (i : nat) (st : option nat * Z)
    : option nat * Z :=
  if good then (Some (default i st.1), st.2)
  else (None, st.2 + from_option (λ s, emit_cov s i) 0 st.1).

Fixpoint abs_run (good : nat → bool) (i : nat) : option nat * Z :=
  match i with
  | O => (None, 0)
  | S k => abs_step (good k) k (abs_run good k)
  end.

Hypothesis lengths_nonneg : Forall (λ w, 0 ≤ Win.length w) wins.

(** The coupling of two runs of the model, the second with fewer good
    windows: what the second has output is covered by what the first has
    output plus the part [D] of its active run. *)
Definition coupled (i : nat) (st1 st2 : option nat * Z) : Prop :=
  ∃ D, 0 ≤ D ∧ st2.2 ≤ st1.2 + D ∧
    match st1.1 with
    | None => D = 0 ∧ st2.1 = None
    | Some s1 =>
        (s1 ≤ i)%nat ∧
        (0 < D → min_windows ≤ Z.of_nat i - Z.of_nat s1
                 ∧ min_len_bp ≤ pre wins i - pre wins s1) ∧
        match st2.1 with
        | None => D ≤ pre wins i - pre wins s1
        | Some s2 =>
            (s1 ≤ s2 ≤ i)%nat ∧
            D + (pre wins i - pre wins s2) ≤ pre wins i - pre wins s1
        end
    end.

Lemma coupled_step i st1 st2 (good1 good2 : bool) :
  (good2 = true → good1 = true) → coupled i st1 st2 →
  coupled (S i) (abs_step good1 i st1) (abs_step good2 i st2).
Proof.
  intros Hg (D & HD & Htot & Hc).
  destruct st1 as [a1 tot1], st2 as [a2 tot2]. simpl in *.
  pose proof (pre_S wins i) as HS.
  pose proof (len_at_nonneg wins lengths_nonneg i) as Hl.
  unfold abs_step. simpl.
  destruct good2; [rewrite Hg by done|destruct good1]; simpl.
  - (* both extend or start *)
    destruct a1 as [s1|]; simpl.
    + destruct Hc as (Hs1 & Hp & Hc).
      exists D. split; [done|]. split; [done|]. split; [lia|].
      split; [intros HD'; destruct (Hp HD'); lia|].
      destruct a2 as [s2|]; simpl in *; lia.
    + destruct Hc as [-> ->]. simpl. exists 0. simpl. repeat split; lia.
  - (* the first run goes on, the second is closed *)
    destruct a1 as [s1|]; simpl.
    + destruct Hc as (Hs1 & Hp & Hc). destruct a2 as [s2|]; simpl in *.
      * destruct Hc as [Hs2 Hc].
        pose proof (pre_mono wins lengths_nonneg s1 s2 ltac:(lia)).
        pose proof (pre_mono wins lengths_nonneg s2 i ltac:(lia)).
        exists (D + emit_cov s2 i). unfold emit_cov.
        destruct ((min_windows <=? _) && (min_len_bp <=? _)) eqn:Hf.
        -- apply andb_prop in Hf as [?%Z.leb_le ?%Z.leb_le].
           simpl. repeat split; lia.
        -- simpl. split; [lia|]. split; [lia|]. split; [lia|].
           split; [intros HD'; destruct Hp; lia|lia].
      * exists D. simpl. split; [lia|]. split; [lia|]. split; [lia|].
        split; [intros HD'; destruct Hp; lia|lia].
    + destruct Hc as [-> ->]. exists 0. simpl. repeat split; lia.
  - (* both are closed *)
    exists 0. split; [done|]. split; [|done].
    destruct a1 as [s1|]; simpl.
    + destruct Hc as (Hs1 & Hp & Hc).
      pose proof (pre_mono wins lengths_nonneg s1 i ltac:(lia)).
      destruct a2 as [s2|]; simpl in *.
      * destruct Hc as [Hs2 Hc].
        pose proof (pre_mono wins lengths_nonneg s1 s2 ltac:(lia)).
        pose proof (pre_mono wins lengths_nonneg s2 i ltac:(lia)).
        unfold emit_cov. repeat case_match;
          rewrite ?andb_true_iff, ?andb_false_iff, ?Z.leb_le, ?Z.leb_gt in *;
          lia.
      * unfold emit_cov. repeat case_match;
          rewrite ?andb_true_iff, ?andb_false_iff, ?Z.leb_le, ?Z.leb_gt in *;
          lia.
    + destruct Hc as [-> ->]. simpl. lia.
Qed.

Lemma coupled_run (good1 good2 : nat → bool) i :
  (∀ k, good2 k = true → good1 k = true) →
  coupled i (abs_run good1 i) (abs_run good2 i).
Proof.
  intros Hg. induction i as [|i IH]; simpl.
  - exists 0. simpl. repeat split; lia.
  - apply coupled_step; [apply Hg|done].
Qed.

(** In the model, fewer good windows never give more base pairs. *)
Lemma abs_run_monotone (good1 good2 : nat → bool) i :
  (∀ k, good2 k = true → good1 k = true) →
  (abs_step false i (abs_run good2 i)).2 ≤ (abs_step false i (abs_run good1 i)).2.
Proof.
  intros Hg.
  destruct (coupled_step i _ _ false false (λ x, x) (coupled_run good1 good2 i Hg))
    as (D & HD & Htot & Hc).
  simpl in Hc. destruct Hc as [-> _]. lia.
Qed.
End abstract_runs.

(** * Threshold monotonicity of the RLE caller *)

(** [sum(s["covered_bp"] for s in segs)] *)
Definition total_covered {T} (segs : list (Seg.t T)) : Z :=
  sum_Z (Seg.covered_bp <$> segs).

Section rle_model.
Context {T : Type} `{Number T}.
Variables (track_list : list (TrackEntry T)) (wins : list Win.t)
          (min_id : T) (max_gap min_windows min_len_bp : Z)
          (treat_missing_as_gap : bool) (drop_tolerance : T).

Local Abbreviation ident_at i := (ident_by_idx_of track_list !! i).

(** Window [i] is present and qualifies. *)
Definition good_at (i : nat) : bool :=
  from_option (qualifies min_id drop_tolerance) false (ident_at i).

(** No missing window is ever taken into a run: missing windows are hard
    breaks, or the gap budget is zero, or the track has every window. *)
Definition no_gap_absorbed : Prop :=
  treat_missing_as_gap = false ∨ max_gap = 0 ∨
  ∀ i, (i < length wins)%nat → is_Some (ident_at i).

Hypothesis max_gap_nonneg : 0 ≤ max_gap.
Hypothesis no_gap : no_gap_absorbed.

Definition abstraction (st : RleState T) : option nat * Z :=
  (start_idx <$> current st, total_covered (segments st)).

Definition models (i : nat) (st : RleState T) : Prop :=
  (∀ cur, current st = Some cur → gaps st = 0) ∧
  abstraction st = abs_run wins min_windows min_len_bp good_at i.

Lemma closes_total st cur g segs :
  (start_idx cur ≤ end_idx cur + 1)%nat →
  closes wins min_windows min_len_bp st cur g segs →
  total_covered segs
  = total_covered (segments st)
    + emit_cov wins min_windows min_len_bp (start_idx cur) (end_idx cur + 1).
Proof.
  intros Hse (ws & we & _ & _ & ->). simpl. unfold total_covered.
  rewrite fmap_app, sum_Z_app. f_equal.
  unfold passes, emit_cov, run_segment. simpl.
  rewrite covered_pre by done.
  replace (Z.of_nat (end_idx cur + 1) - Z.of_nat (start_idx cur))
    with (Z.of_nat (end_idx cur) - Z.of_nat (start_idx cur) + 1) by lia.
  case_match; simpl; lia.
Qed.

Lemma models_step i st st' :
  (i < length wins)%nat → rle_wf i st → models i st →
  rle_step track_list wins min_id max_gap min_windows min_len_bp
    treat_missing_as_gap drop_tolerance i st st' →
  models (S i) st'.
Proof.
  intros Hi Hwf [Hg Ha] Hstep. unfold models, abstraction in *. simpl.
  rewrite <- Ha. unfold abs_step, good_at. unfold rle_wf in Hwf.
  rle_step_cases Hstep; rewrite Hc in *; simpl.
  - rewrite Hq. simpl. split; [done|]. f_equal. lia.
  - rewrite Hx. simpl. rewrite Hq. by split; [intros ? [= <-]|].
  - specialize (Hg cur eq_refl). destruct (ident_at i) as [x|] eqn:Hx; simpl in *.
    + rewrite Hab. split; [by intros ? [= <-]|done].
    + destruct no_gap as [?|[?|Hall]]; [congruence|lia|].
      destruct (Hall i Hi) as [x Hx']. congruence.
  - specialize (Hg cur eq_refl). destruct Hwf as [Hs He].
    apply closes_total in Hcl; simpl in *; [|lia].
    replace (i - 1 + 1)%nat with i in Hcl by lia.
    destruct (ident_at i) as [x|] eqn:Hx; simpl in *; [lia|].
    split; [done|]. by rewrite Hcl.
  - destruct Hwf as [Hs He]. apply closes_total in Hcl; [|lia].
    rewrite He in Hcl. replace (i - 1 + 1)%nat with i in Hcl by lia.
    assert (from_option (qualifies min_id drop_tolerance) false (ident_at i)
            = false) as ->.
    { by destruct (ident_at i). }
    split; [done|]. by rewrite Hcl.
Qed.

(** The base pairs the RLE caller outputs are those of the run-length
    model over the qualifying windows. *)
Lemma rle_total_covered :
  ∃ segs,
    rle_segments_for_pair track_list wins min_id max_gap min_windows
      min_len_bp treat_missing_as_gap drop_tolerance = Some segs
    ∧ total_covered segs
      = (abs_step wins min_windows min_len_bp false (length wins)
           (abs_run wins min_windows min_len_bp good_at (length wins))).2.
Proof.
  destruct (rle_result track_list wins min_id max_gap min_windows min_len_bp
              treat_missing_as_gap drop_tolerance models)
    as (st & segs & Hrun & [Hg Ha] & Hwf & Hfin).
  - split; [done|]. done.
  - intros i st st' Hi Hwf Hm. by apply models_step.
  - exists segs. split; [done|]. rewrite <- Ha. unfold abs_step, abstraction. simpl.
    unfold rle_wf in Hwf. destruct (current st) as [cur|]; simpl.
    + destruct Hwf as [Hs He]. apply closes_total in Hfin; [|lia].
      rewrite He in Hfin.
      by replace (length wins - 1 + 1)%nat with (length wins) in Hfin by lia.
    + subst. lia.
Qed.
End rle_model.

(** Monotonicity for any two thresholds such that every window that
    qualifies under the second qualifies under the first. *)
Lemma rle_monotone_qualifies {T : Type} `{Number T}
    (track_list : list (TrackEntry T)) (wins : list Win.t)
    (t1 t2 : T) (max_gap min_windows min_len_bp : Z)
    (treat_missing_as_gap : bool) (drop_tolerance : T) :
  (∀ x, qualifies t2 drop_tolerance x = true →
        qualifies t1 drop_tolerance x = true) →
  0 ≤ max_gap →
  Forall (λ w, 0 ≤ Win.length w) wins →
  no_gap_absorbed track_list wins max_gap treat_missing_as_gap →
  ∃ segs1 segs2,
    rle_segments_for_pair track_list wins t1 max_gap min_windows min_len_bp
      treat_missing_as_gap drop_tolerance = Some segs1 ∧
    rle_segments_for_pair track_list wins t2 max_gap min_windows min_len_bp
      treat_missing_as_gap drop_tolerance = Some segs2 ∧
    total_covered segs2 ≤ total_covered segs1.
Proof.
  intros Hq Hgap Hlen Hno.
  destruct (rle_total_covered track_list wins t1 max_gap min_windows min_len_bp
              treat_missing_as_gap drop_tolerance Hgap Hno) as (segs1 & Hr1 & Ht1).
  destruct (rle_total_covered track_list wins t2 max_gap min_windows min_len_bp
              treat_missing_as_gap drop_tolerance Hgap Hno) as (segs2 & Hr2 & Ht2).
  exists segs1, segs2. split; [done|]. split; [done|].
  rewrite Ht1, Ht2. apply abs_run_monotone; [done|].
  intros k. unfold good_at. destruct (ident_by_idx_of track_list !! k); simpl; auto.
Qed.

(** In exact arithmetic, where [t1 <= t2] makes every window that
    qualifies under [t2] qualify under [t1]: for a non-negative [max_gap],
    windows of non-negative length, and a configuration in which no missing
    window is taken into a run ([treat_missing_as_gap] off, or
    [max_gap = 0], or a track with every window), the segments returned
    for [t2] cover at most as many base pairs as those returned for [t1]. *)
Lemma rle_threshold_monotone
    (track_list : list (TrackEntry Q)) (wins : list Win.t)
    (t1 t2 : Q) (max_gap min_windows min_len_bp : Z)
    (treat_missing_as_gap : bool) (drop_tolerance : Q) :
  (t1 <= t2)%Q →
  0 ≤ max_gap →
  Forall (λ w, 0 ≤ Win.length w) wins →
  no_gap_absorbed track_list wins max_gap treat_missing_as_gap →
  ∃ segs1 segs2,
    rle_segments_for_pair track_list wins t1 max_gap min_windows min_len_bp
      treat_missing_as_gap drop_tolerance = Some segs1 ∧
    rle_segments_for_pair track_list wins t2 max_gap min_windows min_len_bp
      treat_missing_as_gap drop_tolerance = Some segs2 ∧
    total_covered segs2 ≤ total_covered segs1.
Proof.
  intros Ht. apply rle_monotone_qualifies. intros x.
  unfold qualifies, nge, ngt. simpl.
  rewrite !orb_true_iff, !andb_true_iff, !Qle_bool_iff.
  intros [Hx|[Hd Hx]]; [left|right; split; [done|]].
  - by eapply Qle_trans.
  - eapply Qle_trans; [|exact Hx].
    unfold Qminus. apply Qplus_le_compat; [done|apply Qle_refl].
Qed.

(** C2.  The scan breaks the claim once missing windows are taken into
    runs, in binary64 as in exact arithmetic.  On the track with windows 1
    and 3 missing, with [max_gap = 1] and [min_windows = 3]: at threshold
    0.9990 the run opened at window 0 spends its gap budget on window 1,
    is closed by window 3, and the run over windows 4..5 is too short,
    which leaves 15000 bp; at threshold 0.9995 the run opens at window 2
    and spans windows 2..5, 20000 bp.  The higher threshold covers more.
    The budget is spent on windows that are not consecutive, against the
    help text of [--max-gap], "Max consecutive sub-threshold/missing
    windows": were the count reset at window 2, the run at 0.9990 would
    span windows 0..5. *)
Theorem rle_threshold_monotone_failing_input :
  (nle 0.9990%float 0.9995%float = true ∧
   total_covered <$> rle_segments_for_pair gapped_float (toy_wins 6)
                       0.9990%float 1 3 5000 true 0%float = Some 15000 ∧
   total_covered <$> rle_segments_for_pair gapped_float (toy_wins 6)
                       0.9995%float 1 3 5000 true 0%float = Some 20000) ∧
  (nle 0.9990%Q 0.9995%Q = true ∧
   total_covered <$> rle_segments_for_pair gapped_Q (toy_wins 6)
                       0.9990%Q 1 3 5000 true 0%Q = Some 15000 ∧
   total_covered <$> rle_segments_for_pair gapped_Q (toy_wins 6)
                       0.9995%Q 1 3 5000 true 0%Q = Some 20000).
Proof. repeat split; vm_compute; reflexivity. Qed.

(** The two other conditions of [rle_threshold_monotone] are needed as
    well, missing windows being hard breaks: a [LENGTH] entry below zero
    makes the longer run cover less (1000 bp at 0.9990, 5000 bp at 0.9995),
    and with [max_gap = -1] every second window of a run is dropped, so
    the windows kept depend on where the run starts (2000 bp at 0.9990,
    10000 bp at 0.9995). *)
Remark rle_threshold_monotone_conditions :
  (total_covered <$> rle_segments_for_pair (toy_track [0.9998; 0.9992]%Q)
                       (wins_of_lengths [5000; -4000])
                       0.9990%Q 1 1 0 false 0%Q = Some 1000 ∧
   total_covered <$> rle_segments_for_pair (toy_track [0.9998; 0.9992]%Q)
                       (wins_of_lengths [5000; -4000])
                       0.9995%Q 1 1 0 false 0%Q = Some 5000) ∧
  (total_covered <$> rle_segments_for_pair
                       (toy_track [0.9992; 0.9998; 0.9998; 0.9998]%Q)
                       (wins_of_lengths [1000; 5000; 1000; 5000])
                       0.9990%Q (-1) 1 0 false 0%Q = Some 2000 ∧
   total_covered <$> rle_segments_for_pair
                       (toy_track [0.9992; 0.9998; 0.9998; 0.9998]%Q)
                       (wins_of_lengths [1000; 5000; 1000; 5000])
                       0.9995%Q (-1) 1 0 false 0%Q = Some 10000).
Proof. repeat split; vm_compute; reflexivity. Qed.

(** * Segment statistics *)

(** ** Counts, in any arithmetic *)

(** [frac_called] is the quotient [c / n_windows] for a count [c] of
    called windows, at least one and at most [n_windows]. *)
Definition counts_ok {T} `{Number T} (seg : Seg.t T) : Prop :=
  ∃ c : Z, 1 ≤ c ≤ Seg.n_windows seg ∧
           Seg.frac_called seg = ndiv (nofZ c) (nofZ (Seg.n_windows seg)).

Lemma omap_length_le {A B} (f : A → option B) (l : list A) :
  (length (omap f l) ≤ length l)%nat.
Proof.
  induction l as [|x l IH]; [done|].
  change (omap f (x :: l))
    with (match f x with Some y => y :: omap f l | None => omap f l end).
  destruct (f x); cbn [length]; lia.
Qed.

Section counts.
Context {T : Type} `{Number T}.
Variables (track_list : list (TrackEntry T)) (wins : list Win.t).

Local Abbreviation idents := (ident_by_idx_of track_list).

Section rle_counts.
Variables (min_id : T) (max_gap min_windows min_len_bp : Z)
          (treat_missing_as_gap : bool) (drop_tolerance : T).
Hypothesis max_gap_nonneg : 0 ≤ max_gap.

(** While a run is active: it has a called window, its missing windows
    are within the gap budget, and every window of the run is counted
    once, as called or as a gap. *)
Definition counts_inv (i : nat) (st : RleState T) : Prop :=
  Forall counts_ok (segments st) ∧
  ∀ cur, current st = Some cur →
    1 ≤ called st ∧ 0 ≤ gaps st ≤ max_gap ∧
    called st + gaps st = Z.of_nat i - Z.of_nat (start_idx cur).

Lemma run_segment_counts_ok cur called sum min g ws we :
  1 ≤ called ≤ Z.of_nat (end_idx cur) - Z.of_nat (start_idx cur) + 1 →
  counts_ok (run_segment wins cur called sum min g ws we).
Proof.
  intros Hc. exists called. simpl. split; [done|].
  destruct (0 <? _) eqn:Hn; [done|]. apply Z.ltb_ge in Hn. lia.
Qed.

Lemma counts_inv_step i st st' :
  rle_wf i st → counts_inv i st →
  rle_step track_list wins min_id max_gap min_windows min_len_bp
    treat_missing_as_gap drop_tolerance i st st' →
  counts_inv (S i) st'.
Proof.
  intros Hwf [Hsegs Hrun] Hstep. unfold counts_inv, rle_wf in *.
  rle_step_cases Hstep; rewrite Hc in *; simpl.
  - split; [done|]. by intros cur.
  - split; [done|]. intros cur [= <-]. simpl. lia.
  - destruct (Hrun cur eq_refl) as (Hcalled & Hgaps & Hcount).
    destruct Hwf as [Hs He].
    destruct (idents !! i) as [x|]; simpl in *;
      (split; [done|]); intros c [= <-]; simpl; lia.
  - destruct (Hrun cur eq_refl) as (Hcalled & Hgaps & Hcount).
    destruct Hwf as [Hs He]. split; [|done].
    eapply closes_Forall; [| |exact Hcl].
    + by destruct (idents !! i).
    + intros ws we _ _ seg _. subst seg.
      destruct (idents !! i) as [x|]; simpl in *; [lia|].
      apply run_segment_counts_ok. simpl. lia.
  - destruct (Hrun cur eq_refl) as (Hcalled & Hgaps & Hcount).
    destruct Hwf as [Hs He]. split; [|done].
    eapply closes_Forall; [exact Hsegs| |exact Hcl].
    intros ws we _ _ seg _. subst seg.
    apply run_segment_counts_ok. lia.
Qed.

Lemma counts_inv_final st segs :
  rle_wf (length wins) st → counts_inv (length wins) st →
  match current st with
  | None => segs = segments st
  | Some cur => closes wins min_windows min_len_bp st cur (gaps st) segs
  end →
  Forall counts_ok segs.
Proof.
  intros Hwf [Hsegs Hact] Hfin. unfold rle_wf in Hwf.
  destruct (current st) as [cur|]; [|by subst].
  destruct (Hact cur eq_refl) as (Hcalled & Hgaps & Hcount).
  destruct Hwf as [Hs He].
  eapply closes_Forall; [exact Hsegs| |exact Hfin].
  intros ws we _ _ seg _. subst seg. apply run_segment_counts_ok. lia.
Qed.

Lemma rle_counts_ok :
  ∃ segs, rle_segments_for_pair track_list wins min_id max_gap min_windows
            min_len_bp treat_missing_as_gap drop_tolerance = Some segs
          ∧ Forall counts_ok segs.
Proof.
  destruct (rle_result track_list wins min_id max_gap min_windows min_len_bp
              treat_missing_as_gap drop_tolerance counts_inv)
    as (st & segs & Hrun & Hinv & Hwf & Hfin).
  - split; [constructor|done].
  - intros i st st' _. apply counts_inv_step.
  - exists segs. split; [done|]. by eapply counts_inv_final.
Qed.
End rle_counts.

Lemma called_idents_length l r :
  (length (called_idents_of idents l r) ≤ r + 1 - l)%nat.
Proof.
  unfold called_idents_of, range_incl.
  etrans; [apply omap_length_le|]. by rewrite length_seq.
Qed.

Lemma called_idents_elem l r k x :
  (l ≤ k ≤ r)%nat → idents !! k = Some x → x ∈ called_idents_of idents l r.
Proof.
  intros Hk Hx. unfold called_idents_of. apply list_elem_of_omap.
  exists k. split; [by apply elem_of_range_incl|done].
Qed.

(** The summary of a window range that has a called window. *)
Lemma summarize_counts_ok l r k x seg :
  (l ≤ k ≤ r)%nat → idents !! k = Some x →
  summarize_segment l r wins idents = Some seg → counts_ok seg.
Proof.
  intros Hk Hx Hsum. unfold summarize_segment in Hsum.
  destruct (wins !! l) as [ws|]; [|done]. destruct (wins !! r) as [we|]; [|done].
  simpl in Hsum. injection Hsum as <-.
  pose proof (called_idents_length l r) as Hlen.
  pose proof (called_idents_elem l r k x Hk Hx) as Hin.
  destruct (called_idents_of idents l r) as [|y L] eqn:HL;
    [by apply elem_of_nil in Hin|].
  exists (Z.of_nat (length (y :: L))).
  cbn [Seg.n_windows Seg.frac_called length] in *. split; [lia|].
  destruct (0 <? _) eqn:Hn; [done|]. apply Z.ltb_ge in Hn. lia.
Qed.

Lemma seed_counts_ok seed_thr seed_k ext_thr xdrop reward pen_bad pen_miss
    min_windows min_len_bp treat_missing_as_gap :
  ∃ segs, seed_extend_segments_for_pair track_list wins seed_thr seed_k
            ext_thr xdrop reward pen_bad pen_miss min_windows min_len_bp
            treat_missing_as_gap = Some segs
          ∧ Forall counts_ok segs.
Proof.
  destruct (seed_extend_spec track_list wins seed_thr seed_k ext_thr xdrop
              reward pen_bad pen_miss min_windows min_len_bp treat_missing_as_gap)
    as (segs & Hrun & Hsegs).
  exists segs. split; [done|]. eapply Forall_impl; [exact Hsegs|].
  intros seg (c & (l & r & [s e] & Hse & Hl & Hr & Hsum & _) & Hw).
  destruct Hse as (Hb & Hall & _). simpl in *.
  destruct (Hall s) as (x & Hx & _); [lia|].
  pose proof (summarize_counts_ok l r s x c ltac:(lia) Hx Hsum) as Hok.
  destruct Hw as (_ & _ & _ & Hn & _ & _ & _ & _ & Hfrac).
  unfold counts_ok in *. by rewrite Hn, Hfrac.
Qed.
End counts.

(** In any arithmetic, binary64 included, and for a non-negative
    [max_gap]: both callers report, for every segment, the fraction of a
    count of called windows between 1 and [n_windows]. *)
Lemma segment_counts {T : Type} `{Number T}
    (track_list : list (TrackEntry T)) (wins : list Win.t)
    (min_id : T) (max_gap min_windows min_len_bp : Z)
    (treat_missing_as_gap : bool) (drop_tolerance : T)
    (seed_thr : T) (seed_k : Z) (ext_thr xdrop reward pen_bad pen_miss : T) :
  0 ≤ max_gap →
  (∃ segs, rle_segments_for_pair track_list wins min_id max_gap min_windows
             min_len_bp treat_missing_as_gap drop_tolerance = Some segs
           ∧ Forall counts_ok segs) ∧
  (∃ segs, seed_extend_segments_for_pair track_list wins seed_thr seed_k
             ext_thr xdrop reward pen_bad pen_miss min_windows min_len_bp
             treat_missing_as_gap = Some segs
           ∧ Forall counts_ok segs).
Proof.
  intros Hgap. split; [by apply rle_counts_ok|apply seed_counts_ok].
Qed.

(** ** Minimum and mean, in any arithmetic *)

Section stats.
Context {T : Type} `{Number T}.
Variables (track_list : list (TrackEntry T)) (wins : list Win.t).

Local Abbreviation idents := (ident_by_idx_of track_list).

(** The running sum of the RLE scan, [ident_sum = ident] and then
    [ident_sum += ident], and the [sum(called_idents)] of
    [summarize_segment], which starts from 0. *)
Definition running_sum (x : T) (l : list T) : T := foldl nadd x l.
Definition sum_from_zero (x : T) (l : list T) : T := sum_of (x :: l).

(** The statistics of [seg] are those of a range [s..e] of [n_windows]
    windows within the segment, of which [c >= 1] are present in the
    track, with identities [x :: l] in window order: [frac_called] is
    [c / n_windows], [min_ident] is the running minimum of [x :: l] and
    [mean_ident] is their sum divided by [c]. *)
Definition stats_of (sum : T → list T → T) (seg : Seg.t T) : Prop :=
  ∃ (s e : nat) (ws we : Win.t) (x : T) (l : list T),
    (s ≤ e)%nat ∧ wins !! s = Some ws ∧ wins !! e = Some we ∧
    Seg.start seg ≤ Win.start ws ∧ Win.end_ we ≤ Seg.end_ seg ∧
    Seg.n_windows seg = Z.of_nat e - Z.of_nat s + 1 ∧
    called_idents_of idents s e = x :: l ∧
    let c := Z.of_nat (length (x :: l)) in
    1 ≤ c ≤ Seg.n_windows seg ∧
    Seg.frac_called seg = ndiv (nofZ c) (nofZ (Seg.n_windows seg)) ∧
    Seg.min_ident seg = min_of x l ∧
    Seg.mean_ident seg = ndiv (sum x l) (nofZ c).

Lemma called_idents_step s i :
  (s < i)%nat →
  called_idents_of idents s i
  = called_idents_of idents s (i - 1) ++ option_list (idents !! i).
Proof.
  intros Hs. destruct i as [|i]; [lia|].
  replace (S i - 1)%nat with i by lia.
  unfold called_idents_of. rewrite range_incl_S by lia.
  rewrite omap_app. f_equal; simpl; by destruct (idents !! S i).
Qed.

Lemma called_idents_one s x :
  idents !! s = Some x → called_idents_of idents s s = [x].
Proof.
  intros Hx. unfold called_idents_of. rewrite range_incl_one. simpl.
  by rewrite Hx.
Qed.

Lemma min_of_snoc (x : T) (l : list T) (y : T) :
  min_of x (l ++ [y]) = if nlt y (min_of x l) then y else min_of x l.
Proof. unfold min_of. by rewrite foldl_app. Qed.

Lemma running_sum_snoc (x : T) (l : list T) (y : T) :
  running_sum x (l ++ [y]) = nadd (running_sum x l) y.
Proof. unfold running_sum. by rewrite foldl_app. Qed.

(** The segment of a run whose counters are those of its called windows. *)
Lemma run_segment_stats cur called sum min g ws we x l :
  (start_idx cur ≤ end_idx cur)%nat →
  wins !! start_idx cur = Some ws → wins !! end_idx cur = Some we →
  called_idents_of idents (start_idx cur) (end_idx cur) = x :: l →
  called = Z.of_nat (length (x :: l)) →
  sum = running_sum x l → min = min_of x l →
  stats_of running_sum (run_segment wins cur called sum min g ws we).
Proof.
  intros Hse Hws Hwe Hcalled -> -> ->.
  pose proof (called_idents_length track_list (start_idx cur) (end_idx cur))
    as Hlen.
  rewrite Hcalled in Hlen. cbn [length] in Hlen.
  exists (start_idx cur), (end_idx cur), ws, we, x, l.
  unfold run_segment. simpl.
  do 3 (split; [done|]). do 2 (split; [lia|]). do 2 (split; [done|]).
  split; [lia|]. split; [|done].
  destruct (0 <? _) eqn:Hn; [done|]. apply Z.ltb_ge in Hn. lia.
Qed.

Section rle_stats.
Variables (min_id : T) (max_gap min_windows min_len_bp : Z)
          (treat_missing_as_gap : bool) (drop_tolerance : T).
Hypothesis max_gap_nonneg : 0 ≤ max_gap.

(** While a run is active, [called], [ident_sum] and [min_ident] are the
    count, the running sum and the running minimum of the identities of
    the windows of the run that are present in the track. *)
Definition stats_inv (i : nat) (st : RleState T) : Prop :=
  counts_inv max_gap i st ∧
  Forall (stats_of running_sum) (segments st) ∧
  ∀ cur, current st = Some cur →
    ∃ x l, called_idents_of idents (start_idx cur) (i - 1) = x :: l ∧
           called st = Z.of_nat (length (x :: l)) ∧
           ident_sum st = running_sum x l ∧ min_ident st = min_of x l.

Lemma stats_inv_step i st st' :
  rle_wf i st → stats_inv i st →
  rle_step track_list wins min_id max_gap min_windows min_len_bp
    treat_missing_as_gap drop_tolerance i st st' →
  stats_inv (S i) st'.
Proof.
  intros Hwf (Hcounts & Hsegs & Hrun) Hstep.
  split; [by eapply counts_inv_step|].
  destruct Hcounts as [_ Hact]. unfold rle_wf in *.
  rle_step_cases Hstep; rewrite Hc in *; simpl.
  - split; [done|]. by intros cur.
  - split; [done|]. intros cur [= <-]. simpl. rewrite Nat.sub_0_r.
    exists x, []. by rewrite (called_idents_one i x).
  - destruct Hwf as [Hs He].
    destruct (Hrun cur eq_refl) as (y & l & Hcalled & Hn & Hsum & Hmin).
    rewrite Nat.sub_0_r.
    pose proof (called_idents_step (start_idx cur) i Hs) as Hstep.
    rewrite Hcalled in Hstep.
    destruct (idents !! i) as [x|]; simpl in *;
      (split; [done|]); intros c [= <-]; simpl.
    + exists y, (l ++ [x]). rewrite Hstep, Hn, Hsum, Hmin.
      rewrite min_of_snoc, running_sum_snoc, length_app. simpl.
      repeat split; lia.
    + exists y, l. rewrite Hstep, app_nil_r. done.
  - destruct Hwf as [Hs He].
    destruct (Hact cur eq_refl) as (Hcalled & Hgaps & _).
    destruct (Hrun cur eq_refl) as (y & l & Hy & Hn & Hsum & Hmin).
    split; [|done]. eapply closes_Forall; [| |exact Hcl].
    + by destruct (idents !! i).
    + intros ws we Hws Hwe seg _. subst seg.
      destruct (idents !! i) as [x|]; simpl in *; [lia|].
      eapply run_segment_stats; simpl; eauto. lia.
  - destruct Hwf as [Hs He].
    destruct (Hrun cur eq_refl) as (y & l & Hy & Hn & Hsum & Hmin).
    split; [|done]. eapply closes_Forall; [exact Hsegs| |exact Hcl].
    intros ws we Hws Hwe seg _. subst seg.
    eapply run_segment_stats; eauto; [lia|]. by rewrite He.
Qed.

Lemma rle_stats :
  ∃ segs, rle_segments_for_pair track_list wins min_id max_gap min_windows
            min_len_bp treat_missing_as_gap drop_tolerance = Some segs
          ∧ Forall (stats_of running_sum) segs.
Proof.
  destruct (rle_result track_list wins min_id max_gap min_windows min_len_bp
              treat_missing_as_gap drop_tolerance stats_inv)
    as (st & segs & Hrun & (Hcounts & Hsegs & Hact) & Hwf & Hfin).
  - split; [split; [constructor|done]|]. split; [constructor|done].
  - intros i st st' _. apply stats_inv_step.
  - exists segs. split; [done|]. unfold rle_wf in Hwf.
    destruct (current st) as [cur|]; [|by subst].
    destruct Hwf as [Hs He].
    destruct (Hact cur eq_refl) as (y & l & Hy & Hn & Hsum & Hmin).
    eapply closes_Forall; [exact Hsegs| |exact Hfin].
    intros ws we Hws Hwe seg _. subst seg.
    eapply run_segment_stats; eauto; [lia|]. by rewrite He.
Qed.
End rle_stats.

(** The summary of a window range that has a called window. *)
Lemma summarize_stats l r k x seg :
  (l ≤ k ≤ r)%nat → idents !! k = Some x →
  summarize_segment l r wins idents = Some seg →
  stats_of sum_from_zero seg.
Proof.
  intros Hk Hx Hsum. unfold summarize_segment in Hsum.
  destruct (wins !! l) as [ws|] eqn:Hws; [|done].
  destruct (wins !! r) as [we|] eqn:Hwe; [|done].
  simpl in Hsum. injection Hsum as <-.
  pose proof (called_idents_length track_list l r) as Hlen.
  pose proof (called_idents_elem track_list l r k x Hk Hx) as Hin.
  destruct (called_idents_of idents l r) as [|y L] eqn:HL;
    [by apply elem_of_nil in Hin|].
  exists l, r, ws, we, y, L.
  cbn [Seg.start Seg.end_ Seg.n_windows Seg.frac_called Seg.min_ident
       Seg.mean_ident length] in *.
  split; [lia|]. do 2 (split; [done|]). do 2 (split; [lia|]).
  do 2 (split; [done|]). split; [lia|]. split; [|done].
  destruct (0 <? _) eqn:Hn; [done|]. apply Z.ltb_ge in Hn. lia.
Qed.

Lemma seed_stats seed_thr seed_k ext_thr xdrop reward pen_bad pen_miss
    min_windows min_len_bp treat_missing_as_gap :
  ∃ segs, seed_extend_segments_for_pair track_list wins seed_thr seed_k
            ext_thr xdrop reward pen_bad pen_miss min_windows min_len_bp
            treat_missing_as_gap = Some segs
          ∧ Forall (stats_of sum_from_zero) segs.
Proof.
  destruct (seed_extend_spec track_list wins seed_thr seed_k ext_thr xdrop
              reward pen_bad pen_miss min_windows min_len_bp treat_missing_as_gap)
    as (segs & Hrun & Hsegs).
  exists segs. split; [done|]. eapply Forall_impl; [exact Hsegs|].
  intros seg (c & (l & r & [s e] & Hse & Hl & Hr & Hsum & _) & Hw).
  destruct Hse as (Hb & Hall & _). simpl in *.
  destruct (Hall s) as (x & Hx & _); [lia|].
  destruct (summarize_stats l r s x c ltac:(lia) Hx Hsum)
    as (s' & e' & ws & we & y & L & Hle & Hws & Hwe & Hstart & Hend & Hn
        & Hcalled & Hc & Hfrac & Hmin & Hmean).
  destruct Hw as (_ & Hs' & He' & Hn' & _ & Hmean' & Hmin' & _ & Hfrac').
  exists s', e', ws, we, y, L.
  rewrite Hn', Hfrac', Hmin', Hmean'. repeat split; try done; lia.
Qed.
End stats.

(** C10, as the code has it.  In any arithmetic, binary64 included, and
    for a non-negative [max_gap], every segment either caller returns
    (after the merge step, for the seed-and-extend caller) has the
    statistics of at least one called window: of a window range within
    the segment, [n_windows] long, the windows present in the track are
    [c] with [1 <= c <= n_windows]; [frac_called] is [c / n_windows],
    [min_ident] is the running minimum of their identities and
    [mean_ident] their sum divided by [c].  Nothing more is said of
    [min_ident <= mean_ident], which rounding can break. *)
Theorem segment_statistics {T : Type} `{Number T}
    (track_list : list (TrackEntry T)) (wins : list Win.t)
    (min_id : T) (max_gap min_windows min_len_bp : Z)
    (treat_missing_as_gap : bool) (drop_tolerance : T)
    (seed_thr : T) (seed_k : Z) (ext_thr xdrop reward pen_bad pen_miss : T) :
  0 ≤ max_gap →
  (∃ segs, rle_segments_for_pair track_list wins min_id max_gap min_windows
             min_len_bp treat_missing_as_gap drop_tolerance = Some segs
           ∧ Forall (stats_of track_list wins running_sum) segs) ∧
  (∃ segs, seed_extend_segments_for_pair track_list wins seed_thr seed_k
             ext_thr xdrop reward pen_bad pen_miss min_windows min_len_bp
             treat_missing_as_gap = Some segs
           ∧ Forall (stats_of track_list wins sum_from_zero) segs).
Proof.
  intros Hgap. split; [by apply rle_stats|apply seed_stats].
Qed.

(** The claim as worded fails in two ways.  With [max_gap = -1] the window
    that extends a run is counted and then left out of it, so two called
    windows are reported over one window: [frac_called = 2], in binary64
    and in exact arithmetic.  And in binary64, with the default
    configuration, three windows of identity 0.9995 give a running sum
    whose quotient by 3 rounds below 0.9995: [mean_ident < min_ident]. *)
Lemma segment_statistics_counterexample :
  (∃ seg, rle_segments_for_pair (toy_track [0.9998; 0.9998]%float) (toy_wins 2)
            0.9995%float (-1) 1 5000 false 0%float = Some [seg]
          ∧ nle (Seg.frac_called seg) 1%float = false) ∧
  (∃ seg, rle_segments_for_pair (toy_track [0.9998; 0.9998]%Q) (toy_wins 2)
            0.9995%Q (-1) 1 5000 false 0%Q = Some [seg]
          ∧ nle (Seg.frac_called seg) 1%Q = false) ∧
  (∃ seg, rle_segments_for_pair (toy_track [0.9995; 0.9995; 0.9995]%float)
            (toy_wins 3) 0.9995%float 1 3 5000 false 0%float = Some [seg]
          ∧ nlt (Seg.mean_ident seg) (Seg.min_ident seg) = true).
Proof.
  repeat split; eexists; (split; [vm_compute; reflexivity|]);
    vm_compute; reflexivity.
Qed.

(** [segment_statistics] in binary64, on the track of three windows of
    identity 0.9995 whose mean rounds below the minimum. *)
Lemma segment_statistics_witness :
  let track := toy_track [0.9995; 0.9995; 0.9995]%float in
  0 ≤ 1 ∧
  (∃ segs, rle_segments_for_pair track (toy_wins 3) 0.9995%float 1 3 5000
             false 0%float = Some segs
           ∧ Forall (stats_of track (toy_wins 3) running_sum) segs) ∧
  (∃ segs, seed_extend_segments_for_pair track (toy_wins 3) 0.9995%float 2
             0.9995%float 2%float 1%float 1%float 1%float 3 5000 false
           = Some segs
           ∧ Forall (stats_of track (toy_wins 3) sum_from_zero) segs).
Proof.
  simpl. assert (H1 : 0 ≤ 1) by lia. split; [exact H1|].
  exact (segment_statistics
           (toy_track [0.9995; 0.9995; 0.9995]%float) (toy_wins 3)
           0.9995%float 1 3 5000 false 0%float 0.9995%float 2 0.9995%float
           2%float 1%float 1%float 1%float H1).
Defined.

(** ** Minimum and mean, in exact arithmetic *)

(** The statistics of a segment are those of at least one called window,
    [frac_called] lies in (0, 1], and the minimum is at most the mean. *)
Definition stats_ok (seg : Seg.t Q) : Prop :=
  counts_ok seg ∧
  (0 < Seg.frac_called seg)%Q ∧ (Seg.frac_called seg <= 1)%Q ∧
  (Seg.min_ident seg <= Seg.mean_ident seg)%Q.

Lemma inject_Z_pos c : 0 < c → (0 < inject_Z c)%Q.
Proof. intros Hc. unfold Qlt. simpl. lia. Qed.

Lemma inject_Z_le a b : a ≤ b → (inject_Z a <= inject_Z b)%Q.
Proof. intros Hab. unfold Qle. simpl. lia. Qed.

Lemma counts_ok_frac (seg : Seg.t Q) :
  counts_ok seg →
  (0 < Seg.frac_called seg)%Q ∧ (Seg.frac_called seg <= 1)%Q.
Proof.
  intros (c & Hc & ->). simpl.
  assert (0 < inject_Z c)%Q by (apply inject_Z_pos; lia).
  assert (0 < inject_Z (Seg.n_windows seg))%Q by (apply inject_Z_pos; lia).
  split.
  - apply Qlt_shift_div_l; [done|]. by rewrite Qmult_0_l.
  - apply Qle_shift_div_r; [done|]. rewrite Qmult_1_l. apply inject_Z_le. lia.
Qed.

(** Taking one more identity into a running minimum and sum. *)
Lemma min_sum_step (m s x c : Q) :
  (0 <= c)%Q → (m * c <= s)%Q →
  ((if negb (Qle_bool m x) then x else m) * (c + 1) <= s + x)%Q.
Proof.
  intros Hc Hm. destruct (Qle_bool m x) eqn:Hle; simpl.
  - apply Qle_bool_iff in Hle.
    rewrite Qmult_plus_distr_r, Qmult_1_r. by apply Qplus_le_compat.
  - assert (x <= m)%Q as Hxm.
    { apply Qlt_le_weak, Qnot_le_lt. intros Hle'%Qle_bool_iff. congruence. }
    rewrite Qmult_plus_distr_r, Qmult_1_r.
    apply Qplus_le_compat; [|apply Qle_refl].
    eapply Qle_trans; [|exact Hm]. by apply Qmult_le_compat_r.
Qed.

Lemma min_of_le_sum (l : list Q) (m s : Q) (c : Z) :
  0 ≤ c → (m * inject_Z c <= s)%Q →
  (foldl (λ m y, if nlt y m then y else m) m l
   * inject_Z (c + Z.of_nat (length l)) <= foldl nadd s l)%Q.
Proof.
  revert m s c. induction l as [|x l IH]; intros m s c Hc Hm; cbn [foldl length].
  - by rewrite Z.add_0_r.
  - replace (c + Z.of_nat (S (length l)))
      with ((c + 1) + Z.of_nat (length l)) by lia.
    apply IH; [lia|]. rewrite inject_Z_plus.
    apply (min_sum_step m s x (inject_Z c)); [|done].
    by apply (inject_Z_le 0).
Qed.

Definition min_le_mean (seg : Seg.t Q) : Prop :=
  (Seg.min_ident seg <= Seg.mean_ident seg)%Q.

Section rle_mean.
Variables (track_list : list (TrackEntry Q)) (wins : list Win.t)
          (min_id : Q) (max_gap min_windows min_len_bp : Z)
          (treat_missing_as_gap : bool) (drop_tolerance : Q).
Hypothesis max_gap_nonneg : 0 ≤ max_gap.

(** While a run is active, the minimum times the number of called windows
    is at most their sum. *)
Definition mean_inv (i : nat) (st : RleState Q) : Prop :=
  counts_inv max_gap i st ∧
  Forall min_le_mean (segments st) ∧
  ∀ cur, current st = Some cur →
    (min_ident st * inject_Z (called st) <= ident_sum st)%Q.

Lemma run_segment_min_le_mean cur called sum min g ws we :
  1 ≤ called → (min * inject_Z called <= sum)%Q →
  min_le_mean (run_segment wins cur called sum min g ws we).
Proof.
  intros Hc Hm. unfold min_le_mean. simpl.
  destruct (0 <? called) eqn:Hn; [|apply Z.ltb_ge in Hn; lia].
  apply Qle_shift_div_l; [apply inject_Z_pos; lia|done].
Qed.

Lemma mean_inv_step i st st' :
  rle_wf i st → mean_inv i st →
  rle_step track_list wins min_id max_gap min_windows min_len_bp
    treat_missing_as_gap drop_tolerance i st st' →
  mean_inv (S i) st'.
Proof.
  intros Hwf (Hcounts & Hsegs & Hrun) Hstep.
  split; [by eapply counts_inv_step|].
  destruct Hcounts as [_ Hact]. unfold rle_wf in *.
  rle_step_cases Hstep; rewrite Hc in *; simpl.
  - split; [done|]. by intros cur.
  - split; [done|]. intros cur [= <-]. simpl. rewrite Qmult_1_r. apply Qle_refl.
  - destruct (Hact cur eq_refl) as (Hcalled & _).
    specialize (Hrun cur eq_refl).
    destruct (ident_by_idx_of track_list !! i) as [x|]; simpl in *;
      (split; [done|]); intros c [= <-]; simpl; [|done].
    rewrite inject_Z_plus.
    apply min_sum_step; [|done]. apply (inject_Z_le 0). lia.
  - destruct (Hact cur eq_refl) as (Hcalled & Hgaps & _).
    specialize (Hrun cur eq_refl). split; [|done].
    eapply closes_Forall; [| |exact Hcl].
    + by destruct (ident_by_idx_of track_list !! i).
    + intros ws we _ _ seg _. subst seg.
      destruct (ident_by_idx_of track_list !! i) as [x|]; simpl in *; [lia|].
      by apply run_segment_min_le_mean.
  - destruct (Hact cur eq_refl) as (Hcalled & _).
    specialize (Hrun cur eq_refl). split; [|done].
    eapply closes_Forall; [exact Hsegs| |exact Hcl].
    intros ws we _ _ seg _. subst seg. by apply run_segment_min_le_mean.
Qed.

Lemma rle_stats_ok :
  ∃ segs, rle_segments_for_pair track_list wins min_id max_gap min_windows
            min_len_bp treat_missing_as_gap drop_tolerance = Some segs
          ∧ Forall stats_ok segs.
Proof.
  destruct (rle_result track_list wins min_id max_gap min_windows min_len_bp
              treat_missing_as_gap drop_tolerance mean_inv)
    as (st & segs & Hrun & (Hcounts & Hsegs & Hact) & Hwf & Hfin).
  - split; [split; [constructor|done]|]. split; [constructor|done].
  - intros i st st' _. apply mean_inv_step.
  - exists segs. split; [done|].
    assert (Hc : Forall counts_ok segs) by by eapply counts_inv_final.
    assert (Hm : Forall min_le_mean segs).
    { destruct Hcounts as [_ Hcounts]. unfold rle_wf in Hwf.
      destruct (current st) as [cur|]; [|by subst].
      destruct (Hcounts cur eq_refl) as (Hcalled & _).
      eapply closes_Forall; [exact Hsegs| |exact Hfin].
      intros ws we _ _ seg _. subst seg.
      apply run_segment_min_le_mean; [done|exact (Hact cur eq_refl)]. }
    apply Forall_forall. intros seg Hseg.
    eapply Forall_forall in Hc; [|exact Hseg].
    eapply Forall_forall in Hm; [|exact Hseg].
    destruct (counts_ok_frac seg Hc). by repeat split.
Qed.
End rle_mean.

Section seed_mean.
Variables (track_list : list (TrackEntry Q)) (wins : list Win.t).

Local Abbreviation idents := (ident_by_idx_of track_list).

Lemma summarize_min_le_mean l r seg :
  summarize_segment l r wins idents = Some seg → min_le_mean seg.
Proof.
  intros Hsum. unfold summarize_segment in Hsum.
  destruct (wins !! l) as [ws|]; [|done]. destruct (wins !! r) as [we|]; [|done].
  simpl in Hsum. injection Hsum as <-. unfold min_le_mean.
  cbn [Seg.min_ident Seg.mean_ident].
  destruct (called_idents_of idents l r) as [|y L]; [apply Qle_refl|].
  apply Qle_shift_div_l; [apply inject_Z_pos; cbn [length]; lia|].
  cbn [length].
  replace (Z.of_nat (S (length L))) with (1 + Z.of_nat (length L)) by lia.
  apply (min_of_le_sum L y (0 + y)%Q 1); [lia|].
  rewrite Qmult_1_r, Qplus_0_l. apply Qle_refl.
Qed.

Lemma seed_stats_ok seed_thr seed_k ext_thr xdrop reward pen_bad pen_miss
    min_windows min_len_bp treat_missing_as_gap :
  ∃ segs, seed_extend_segments_for_pair track_list wins seed_thr seed_k
            ext_thr xdrop reward pen_bad pen_miss min_windows min_len_bp
            treat_missing_as_gap = Some segs
          ∧ Forall stats_ok segs.
Proof.
  destruct (seed_counts_ok track_list wins seed_thr seed_k ext_thr xdrop
              reward pen_bad pen_miss min_windows min_len_bp treat_missing_as_gap)
    as (segs & Hrun & Hcounts).
  destruct (seed_extend_spec track_list wins seed_thr seed_k ext_thr xdrop
              reward pen_bad pen_miss min_windows min_len_bp treat_missing_as_gap)
    as (segs' & Hrun' & Hsegs).
  assert (segs' = segs) as -> by congruence.
  exists segs. split; [done|]. apply Forall_forall. intros seg Hseg.
  eapply Forall_forall in Hcounts; [|exact Hseg].
  eapply Forall_forall in Hsegs as (c & (l & r & se & _ & _ & _ & Hsum & _) & Hw);
    [|exact Hseg].
  destruct (counts_ok_frac seg Hcounts).
  repeat split; try done.
  destruct Hw as (_ & _ & _ & _ & _ & Hmean & Hmin & _).
  rewrite Hmean, Hmin. by eapply summarize_min_le_mean.
Qed.
End seed_mean.

(** In exact arithmetic and for a non-negative [max_gap], the count makes
    [frac_called] lie in (0, 1], and [min_ident <= mean_ident] holds for
    every segment either caller returns. *)
Lemma segment_statistics_exact
    (track_list : list (TrackEntry Q)) (wins : list Win.t)
    (min_id : Q) (max_gap min_windows min_len_bp : Z)
    (treat_missing_as_gap : bool) (drop_tolerance : Q)
    (seed_thr : Q) (seed_k : Z) (ext_thr xdrop reward pen_bad pen_miss : Q) :
  0 ≤ max_gap →
  (∃ segs, rle_segments_for_pair track_list wins min_id max_gap min_windows
             min_len_bp treat_missing_as_gap drop_tolerance = Some segs
           ∧ Forall stats_ok segs) ∧
  (∃ segs, seed_extend_segments_for_pair track_list wins seed_thr seed_k
             ext_thr xdrop reward pen_bad pen_miss min_windows min_len_bp
             treat_missing_as_gap = Some segs
           ∧ Forall stats_ok segs).
Proof.
  intros Hgap. split; [by apply rle_stats_ok|apply seed_stats_ok].
Qed.

(** * Ingestion *)

(** The columns [parse_table] requires. *)
Definition required_columns (identity_col : string) : list string :=
  ["REGION"; "CHR"; "START"; "END"; "LENGTH"; "group.a"; "group.b";
   identity_col].

(** [sup] is a superset of [sub], as sets of column names. *)
Definition columns_superset (sup sub : list string) : Prop :=
  ∀ c, c ∈ sub → c ∈ sup.

Lemma req_subseteq identity_col (header : list string) :
  req identity_col ⊆ list_to_set header
  ↔ columns_superset header (required_columns identity_col).
Proof.
  unfold req, columns_superset. fold (required_columns identity_col).
  split.
  - intros Hsub c Hc. apply (elem_of_list_to_set (C := gset string)).
    apply Hsub. by apply elem_of_list_to_set.
  - intros Hsup c Hc%elem_of_list_to_set. apply elem_of_list_to_set. by apply Hsup.
Qed.

(** C3, as the code has it.  [parse_table] ends by [SystemExit] exactly
    when the file has no header or the header is not a superset of the
    required columns; otherwise it returns the rows that parse, in order. *)
Theorem schema_check {T : Type} (int_ : string → option Z)
    (float_ : string → option T) (fieldnames : option (list string))
    (records : list (gmap string string)) (identity_col : string) :
  let header := default [] fieldnames in
  let result := parse_table int_ float_ fieldnames records identity_col in
  (result = Exit
   ↔ header = []
     ∨ ¬ columns_superset header (required_columns identity_col)) ∧
  (result = Exit
   ∨ result = Ok (omap (parse_row int_ float_ identity_col) records)).
Proof.
  simpl. unfold parse_table.
  destruct (bool_decide
              (req identity_col ⊆ list_to_set (default [] fieldnames))) eqn:Hsub.
  - apply bool_decide_eq_true in Hsub. apply req_subseteq in Hsub.
    destruct fieldnames as [[|c header]|]; simpl in *.
    + split; [|by left]. split; [by left|done].
    + split; [|by right]. split; [done|]. by intros [?|?].
    + split; [|by left]. split; [by left|done].
  - apply bool_decide_eq_false in Hsub. rewrite req_subseteq in Hsub.
    rewrite orb_true_r. split; [|by left]. split; [by right|done].
Qed.

(** The claim as worded has the inclusion the wrong way round.  A header
    with one column more than the required ones is not contained in the
    required set, yet it is accepted; a header with only two of the
    required columns is contained in it, yet it is rejected. *)
Lemma schema_check_counterexample :
  let required := required_columns "estimated.identity" in
  let wider := required ++ ["EXTRA"] in
  let narrower := ["REGION"; "CHR"] in
  (¬ columns_superset required wider ∧
   parse_table (λ _, None) (λ _, @None Q) (Some wider) [] "estimated.identity"
   = Ok []) ∧
  (columns_superset required narrower ∧
   parse_table (λ _, None) (λ _, @None Q) (Some narrower) [] "estimated.identity"
   = Exit).
Proof.
  simpl. split; split; try reflexivity.
  - intros Hsup. specialize (Hsup "EXTRA").
    assert (Hin : "EXTRA" ∈ required_columns "estimated.identity" ++ ["EXTRA"]).
    { apply elem_of_app. right. by left. }
    apply Hsup in Hin. unfold required_columns in Hin.
    repeat (apply elem_of_cons in Hin as [Hin|Hin]; [discriminate|]).
    by apply elem_of_nil in Hin.
  - intros c Hc. unfold required_columns.
    apply elem_of_cons in Hc as [->|Hc]; [by left|].
    apply elem_of_cons in Hc as [->|Hc]; [right; by left|].
    by apply elem_of_nil in Hc.
Qed.

(** * Pair keys *)

Lemma pair_key_comm a b : pair_key b a = pair_key a b.
Proof.
  unfold pair_key.
  destruct (String.leb a b) eqn:Hab, (String.leb b a) eqn:Hba; try done.
  - by rewrite (String.leb_antisym a b Hab Hba).
  - destruct (String.leb_total a b); congruence.
Qed.

(** The row with its two group labels exchanged. *)
Definition swap_labels {T} (r : Row.t T) : Row.t T :=
  Row.mk (Row.region r) (Row.chr r) (Row.start r) (Row.end_ r) (Row.length r)
         (Row.b r) (Row.a r) (Row.ident r).

Lemma for_each_fmap_ext {S A B} (f : S → A → option S) (g : S → B → option S)
    (h : B → A) st l :
  (∀ st x, f st (h x) = g st x) →
  for_each f st (h <$> l) = for_each g st l.
Proof.
  intros Hfg. revert st. induction l as [|x l IH]; intros st; simpl; [done|].
  rewrite Hfg. destruct (g st x); simpl; auto.
Qed.

Section symmetry.
Context {T : Type} `{Number T}.
Variables (fmt6 fmt3 : T → string).

Lemma uniq_of_swap (rows : list (Row.t T)) :
  uniq_of (swap_labels <$> rows) = uniq_of rows.
Proof.
  unfold uniq_of. generalize (∅ : gmap string (gset (Z * Z * Z))).
  induction rows as [|r rows IH]; intros acc; simpl; [done|]. apply IH.
Qed.

Lemma build_windows_swap (rows : list (Row.t T)) :
  build_windows (swap_labels <$> rows) = build_windows rows.
Proof. unfold build_windows. by rewrite uniq_of_swap. Qed.

Lemma build_pair_tracks_swap (rows : list (Row.t T)) index_by_chr :
  build_pair_tracks (swap_labels <$> rows) index_by_chr
  = build_pair_tracks rows index_by_chr.
Proof.
  unfold build_pair_tracks. f_equal.
  apply for_each_fmap_ext. intros tracks r. unfold track_body. simpl.
  by rewrite pair_key_comm.
Qed.

(** C8. Pair-key symmetry: exchanging the two group labels on every row
    changes nothing in what [main] writes, neither the segments nor the
    canonical pair keys they are attributed to. *)
Theorem pair_key_symmetry (args : Args.t T) (pairs : option (list string))
    (rows : list (Row.t T)) :
  main_rows fmt6 fmt3 args pairs (swap_labels <$> rows)
  = main_rows fmt6 fmt3 args pairs rows.
Proof.
  unfold main_rows. rewrite build_windows_swap.
  destruct (build_windows rows) as [wins_by_chr index_by_chr].
  rewrite build_pair_tracks_swap. by destruct rows.
Qed.

(** * The pairs allow-list *)

Lemma load_pairs_skipped (lines : list string) :
  Forall (λ line, blank line || is_comment line = true) lines →
  load_pairs (Some lines) = Some (Some ∅).
Proof.
  intros Hlines. unfold load_pairs.
  assert (for_each pairs_body (∅ : gset (string * string)) lines = Some ∅)
    as ->; [|done].
  induction Hlines as [|line lines Hline _ IH]; [done|].
  cbn [for_each].
  assert (pairs_body ∅ line = Some ∅) as ->; [|exact IH].
  unfold pairs_body. by rewrite Hline.
Qed.

(** C9. An allow-list file in which every line is blank or a comment gives
    an empty [pair_filter], and [main] then writes exactly what it writes
    without an allow-list: no pair is skipped. *)
Theorem empty_allow_list (args : Args.t T) (rows : list (Row.t T))
    (lines : list string) :
  Forall (λ line, blank line || is_comment line = true) lines →
  load_pairs (Some lines) = Some (Some ∅) ∧
  (∀ a b, skip_pair (Some ∅) a b = false) ∧
  main_rows fmt6 fmt3 args (Some lines) rows
  = main_rows fmt6 fmt3 args None rows.
Proof.
  intros Hlines. split; [by apply load_pairs_skipped|]. split; [done|].
  unfold main_rows. destruct rows as [|r rows]; [done|].
  destruct (build_windows (r :: rows)) as [wins_by_chr index_by_chr].
  by rewrite load_pairs_skipped.
Qed.
End symmetry.

(** [empty_allow_list] on a pairs file without entries. *)
Lemma empty_allow_list_witness :
  let rows := toy_rows "B" "A" [0.9998; 0.9998; 0.9998; 0.9950]%Q in
  let fmt := λ _ : Q, EmptyString in
  Forall (λ line, blank line || is_comment line = true) comment_lines ∧
  load_pairs (Some comment_lines) = Some (Some ∅) ∧
  (∀ a b, skip_pair (Some ∅) a b = false) ∧
  main_rows fmt fmt (default_args_Q mode_rle) (Some comment_lines) rows
  = main_rows fmt fmt (default_args_Q mode_rle) None rows.
Proof.
  simpl.
  assert (Hl : Forall (λ line, blank line || is_comment line = true) comment_lines)
    by (repeat constructor).
  split; [exact Hl|].
  exact (empty_allow_list (λ _ : Q, EmptyString) (λ _ : Q, EmptyString)
           (default_args_Q mode_rle)
           (toy_rows "B" "A" [0.9998; 0.9998; 0.9998; 0.9950]%Q)
           comment_lines Hl).
Defined.
(** * The RLE scenario *)

(** What the scenario expects of the one segment. *)
Definition toy1_expected {T} (seg : Seg.t T) : Prop :=
  Some (Seg.start seg) = Win.start <$> toy_wins 10 !! 1%nat ∧
  Some (Seg.end_ seg) = Win.end_ <$> toy_wins 10 !! 6%nat ∧
  Seg.chr seg = "chr1" ∧ Seg.start seg = 5000 ∧ Seg.end_ seg = 35000 ∧
  Seg.n_windows seg = 6 ∧ Seg.covered_bp seg = 30000.

(** C4. On the ten-window track of the scenario, with min_identity 0.9995,
    max_gap 1, min_windows 3, min_length_bp 5000 and drop_tolerance 0, the
    RLE caller returns exactly one segment: windows 1 to 6, base pairs 5000
    to 35000, n_windows 6, covered_bp 30000.  This holds in binary64
    arithmetic and in exact arithmetic, and for either setting of
    treat_missing_as_gap. *)
Theorem rle_toy1_scenario :
  ∀ treat_missing_as_gap : bool,
    (∃ seg, rle_segments_for_pair (toy_track toy1_float) (toy_wins 10)
              0.9995%float 1 3 5000 treat_missing_as_gap 0%float = Some [seg]
            ∧ toy1_expected seg) ∧
    (∃ seg, rle_segments_for_pair (toy_track toy1_Q) (toy_wins 10)
              0.9995%Q 1 3 5000 treat_missing_as_gap 0%Q = Some [seg]
            ∧ toy1_expected seg).
Proof.
  intros [|]; split; eexists; (split; [vm_compute; reflexivity|]);
    repeat split; reflexivity.
Qed.

(** * Canonical pair keys *)

Lemma pair_key_leb (a b : string) :
  String.leb (pair_key a b).1 (pair_key a b).2 = true.
Proof.
  unfold pair_key. destruct (String.leb a b) eqn:Hab; simpl; [done|].
  destruct (String.leb_total a b); congruence.
Qed.

Lemma pair_key_fixed (a b : string) :
  String.leb a b = true → pair_key a b = (a, b).
Proof. intros Hab. unfold pair_key. by rewrite Hab. Qed.

(** X1.  [pair_key] returns its two arguments, in non-decreasing order, and a
    key is its own canonical form. *)
Theorem pair_key_canonical (a b : string) :
  let p := pair_key a b in
  String.leb p.1 p.2 = true ∧
  (p = (a, b) ∨ p = (b, a)) ∧
  pair_key p.1 p.2 = p.
Proof.
  simpl. split; [apply pair_key_leb|]. split.
  - unfold pair_key. destruct (String.leb a b); auto.
  - rewrite pair_key_fixed by apply pair_key_leb. by destruct (pair_key a b).
Qed.

(** * The exits of [main] *)

Lemma omap_None_nil {A B} (f : A → option B) (l : list A) :
  omap f l = [] ↔ Forall (λ x, f x = None) l.
Proof.
  induction l as [|x l IH].
  - split; [constructor|done].
  - change (omap f (x :: l))
      with (match f x with Some y => y :: omap f l | None => omap f l end).
    rewrite Forall_cons. destruct (f x) as [y|]; [|tauto].
    split; [done|]. by intros [? _].
Qed.

(** A run of [main_rows] on at least one row does not end by
    [sys.exit]. *)
Lemma main_rows_Exit {T : Type} `{Number T} (fmt6 fmt3 : T → string)
    (args : Args.t T) (pairs : option (list string)) (rows : list (Row.t T)) :
  main_rows fmt6 fmt3 args pairs rows = Exit ↔ rows = [].
Proof.
  unfold main_rows. destruct rows as [|r rows]; [done|].
  destruct (build_windows (r :: rows)) as [w ix].
  split; [|done]. by destruct (_ ≫= _).
Qed.

(** The text cells of a row are those of the line. *)
Lemma parse_row_cells {T : Type} (int_ : string → option Z)
    (float_ : string → option T) (identity_col : string)
    (r : gmap string string) (p : Parsed.t T) :
  parse_row int_ float_ identity_col r = Some p →
  Parsed.region p = r !! "REGION" ∧ Parsed.chr p = r !! "CHR" ∧
  Parsed.a p = r !! "group.a" ∧ Parsed.b p = r !! "group.b".
Proof.
  unfold parse_row. intros Hp.
  destruct (r !! "START" ≫= int_); [|done].
  destruct (r !! "END" ≫= int_); [|done].
  destruct (r !! "LENGTH" ≫= int_); [|done].
  destruct (r !! identity_col ≫= float_); [|done].
  simpl in Hp. by injection Hp as <-.
Qed.

(** X3.  [main] ends by a reported fatal error in exactly three cases: the
    table has no header, the header lacks a required column, or no line of
    the table gets through the [try] ("No valid rows"). *)
Theorem main_exit_iff {T : Type} `{Number T} (fmt6 fmt3 : T → string)
    (int_ : string → option Z) (float_ : string → option T)
    (args : Args.t T) (pairs : option (list string))
    (fieldnames : option (list string)) (records : list (gmap string string)) :
  let header := default [] fieldnames in
  let identity_col := Args.identity_col args in
  main fmt6 fmt3 int_ float_ args pairs fieldnames records = Some Exit
  ↔ header = []
    ∨ ¬ columns_superset header (required_columns identity_col)
    ∨ Forall (λ r, parse_row int_ float_ identity_col r = None) records.
Proof.
  simpl. unfold main, parse_table.
  destruct (bool_decide (req (Args.identity_col args)
                           ⊆ list_to_set (default [] fieldnames))) eqn:Hsub.
  - apply bool_decide_eq_true in Hsub. apply req_subseteq in Hsub.
    destruct fieldnames as [[|c header]|]; simpl in *.
    + split; [by left|done].
    + rewrite <- omap_None_nil.
      destruct (omap _ records) as [|p parsed] eqn:Hparsed.
      { split; [by right; right|done]. }
      split; [|by intros [?|[?|?]]].
      destruct (existsb no_group (p :: parsed)); [done|].
      destruct (mapM to_row (p :: parsed)) as [rows|] eqn:Hrows; [|done].
      simpl. intros [= Hexit%main_rows_Exit]. subst rows.
      by apply length_mapM in Hrows.
    + split; [by left|done].
  - apply bool_decide_eq_false in Hsub. rewrite req_subseteq in Hsub.
    rewrite orb_true_r. split; [by right; left|done].
Qed.

(** * Lines of the pairs file *)

(** The line holds a TAB. *)
Fixpoint has_tab (line : string) : bool :=
  match line with
  | EmptyString => false
  | String c rest => Ascii.eqb c "009" || has_tab rest
  end.

Lemma split_tab_cons (line : string) : ∃ f fs, split_tab line = f :: fs.
Proof.
  induction line as [|c rest (f & fs & IH)]; simpl; [by eexists _, _|].
  destruct (Ascii.eqb c "009"); [by eexists _, _|].
  rewrite IH. by eexists _, _.
Qed.

(** Without a TAB the line is its only field. *)
Lemma split_tab_no_tab (line : string) :
  has_tab line = false → split_tab line = [line].
Proof.
  induction line as [|c rest IH]; simpl; [done|].
  destruct (Ascii.eqb c "009"); simpl; [done|].
  intros Hrest. by rewrite IH.
Qed.

(** The first field ends at the first TAB. *)
Lemma split_tab_app (a rest : string) :
  has_tab a = false →
  split_tab (a +:+ tab +:+ rest) = a :: split_tab rest.
Proof.
  induction a as [|c a IH]; simpl; [done|].
  destruct (Ascii.eqb c "009"); simpl; [done|].
  intros Ha. by rewrite IH.
Qed.

Lemma split_tab_has_tab (line : string) :
  has_tab line = true → ∃ a b fs, split_tab line = a :: b :: fs.
Proof.
  induction line as [|c rest IH]; simpl; [done|].
  destruct (Ascii.eqb c "009"); simpl.
  - intros _. destruct (split_tab_cons rest) as (f & fs & ->). by eexists _, _, _.
  - intros Hrest. destruct (IH Hrest) as (a & b & fs & ->). by eexists _, _, _.
Qed.

(** X4.  A line that is not skipped and reads [a TAB b], or [a TAB b TAB ...],
    once its trailing newlines are removed, adds the canonical key of
    [(a, b)] to the filter; further fields are ignored. *)
Theorem pairs_line_parsed (pair_filter : gset (string * string))
    (line a b : string) (more : option string) :
  blank line = false → is_comment line = false →
  has_tab a = false → has_tab b = false →
  rstrip_nl line
  = a +:+ tab +:+ b +:+ from_option (λ rest, tab +:+ rest) "" more →
  pairs_body pair_filter line = Some ({[ pair_key a b ]} ∪ pair_filter).
Proof.
  intros Hb Hc Ha Hb' Hline. unfold pairs_body. rewrite Hb, Hc, Hline. simpl.
  rewrite split_tab_app by done. destruct more as [rest|]; simpl.
  - by rewrite split_tab_app.
  - assert (b +:+ "" = b) as ->.
    { clear. induction b as [|c b IH]; [done|].
      change (String c (b +:+ "") = String c b). by rewrite IH. }
    by rewrite split_tab_no_tab.
Qed.

Lemma pairs_body_None (pair_filter : gset (string * string)) (line : string) :
  pairs_body pair_filter line = None
  ↔ blank line = false ∧ is_comment line = false
    ∧ has_tab (rstrip_nl line) = false.
Proof.
  unfold pairs_body.
  destruct (blank line); simpl; [by split; [|intros (? & _)]|].
  destruct (is_comment line); simpl; [by split; [|intros (_ & ? & _)]|].
  destruct (has_tab (rstrip_nl line)) eqn:Ht.
  - destruct (split_tab_has_tab _ Ht) as (a & b & fs & ->). simpl.
    by split; [|intros (_ & _ & ?)].
  - by rewrite split_tab_no_tab.
Qed.

Lemma for_each_raises {S A} (body : S → A → option S) (x : A) (l : list A) :
  x ∈ l → (∀ st, body st x = None) → ∀ st, for_each body st l = None.
Proof.
  intros Hx Hnone. induction l as [|y l IH]; intros st; [by apply elem_of_nil in Hx|].
  simpl. apply elem_of_cons in Hx as [<-|Hx]; [by rewrite Hnone|].
  destruct (body st y); simpl; auto.
Qed.

(** X5.  A line of the pairs file that is neither blank nor a comment and holds
    no TAB is not skipped: unpacking its fields raises, outside any [try],
    and the run ends by an uncaught exception. *)
Theorem pairs_line_without_tab_raises {T : Type} `{Number T}
    (fmt6 fmt3 : T → string) (args : Args.t T) (lines : list string)
    (line : string) (rows : list (Row.t T)) :
  line ∈ lines →
  blank line = false → is_comment line = false →
  has_tab (rstrip_nl line) = false →
  rows ≠ [] →
  load_pairs (Some lines) = None ∧
  main_rows fmt6 fmt3 args (Some lines) rows = Raised.
Proof.
  intros Hin Hb Hc Ht Hrows.
  assert (Hload : load_pairs (Some lines) = None).
  { unfold load_pairs. rewrite (for_each_raises pairs_body line lines Hin); [done|].
    intros pf. by apply pairs_body_None. }
  split; [done|]. unfold main_rows. destruct rows as [|r rows]; [done|].
  destruct (build_windows (r :: rows)) as [w ix]. rewrite Hload.
  by destruct (build_pair_tracks _ _).
Qed.

(** * Windows and their index *)

(** Python's [<] on triples of ints is the lexicographic order. *)
Lemma triple_lt_spec (s1 e1 l1 s2 e2 l2 : Z) :
  triple_lt (s1, e1, l1) (s2, e2, l2) = true
  ↔ s1 < s2 ∨ (s1 = s2 ∧ (e1 < e2 ∨ (e1 = e2 ∧ l1 < l2))).
Proof.
  unfold triple_lt.
  destruct (Z.eqb_spec s1 s2), (Z.eqb_spec e1 e2); simpl;
    rewrite Z.ltb_lt; lia.
Qed.

Definition triple_le (k1 k2 : Z * Z * Z) : Prop := triple_lt k2 k1 = false.

Lemma triple_le_spec (s1 e1 l1 s2 e2 l2 : Z) :
  triple_le (s1, e1, l1) (s2, e2, l2)
  ↔ s1 < s2 ∨ (s1 = s2 ∧ (e1 < e2 ∨ (e1 = e2 ∧ l1 ≤ l2))).
Proof.
  unfold triple_le. rewrite <- not_true_iff_false, triple_lt_spec. lia.
Qed.

#[local] Instance triple_le_trans : Transitive triple_le.
Proof.
  intros [[s1 e1] l1] [[s2 e2] l2] [[s3 e3] l3].
  rewrite !triple_le_spec. lia.
Qed.

Lemma triple_le_lt (k1 k2 : Z * Z * Z) :
  triple_le k1 k2 → k1 ≠ k2 → triple_lt k1 k2 = true.
Proof.
  destruct k1 as [[s1 e1] l1], k2 as [[s2 e2] l2].
  rewrite triple_le_spec, triple_lt_spec. intros Hle Hne.
  destruct (decide (l1 = l2)) as [->|]; [|lia].
  destruct (decide (e1 = e2)) as [->|]; [|lia].
  destruct (decide (s1 = s2)) as [->|]; [done|lia].
Qed.

(** [sorted(d.keys())] is strictly increasing: the keys of a dictionary are
    distinct. *)
Lemma sorted_keys_strict (d : gset (Z * Z * Z)) :
  StronglySorted (λ k1 k2, triple_lt k1 k2 = true)
    (sorted_by triple_lt id (elements d)).
Proof.
  assert (Hs : StronglySorted triple_le (sorted_by triple_lt id (elements d))).
  { apply sorted_by_sorted; [apply _|..]; intros x y _ _; unfold triple_le; simpl.
    - destruct x as [[s1 e1] l1], y as [[s2 e2] l2].
      rewrite <- not_true_iff_false, !triple_lt_spec. lia.
    - done. }
  assert (Hn : NoDup (sorted_by triple_lt id (elements d))).
  { rewrite sorted_by_perm. apply NoDup_elements. }
  induction Hs as [|x l Hs IH Hx]; [constructor|].
  apply NoDup_cons in Hn as [Hx' Hn]. constructor; [by apply IH|].
  apply Forall_forall. intros y Hy. apply triple_le_lt.
  - by eapply Forall_forall in Hx.
  - by intros ->.
Qed.

Section windows.
Context {T : Type}.

(** The key [(r.start, r.end, r.length)] of a row, and of a window. *)
Definition row_key (r : Row.t T) : Z * Z * Z :=
  (Row.start r, Row.end_ r, Row.length r).

Definition win_key (w : Win.t) : Z * Z * Z :=
  (Win.start w, Win.end_ w, Win.length w).

(** Python's [<] on the keys of two windows. *)
Definition win_lt (w1 w2 : Win.t) : Prop :=
  triple_lt (win_key w1) (win_key w2) = true.

Lemma uniq_of_lookup (rows : list (Row.t T)) (c : string) (k : Z * Z * Z) :
  (∃ d, uniq_of rows !! c = Some d ∧ k ∈ d)
  ↔ ∃ r, r ∈ rows ∧ Row.chr r = c ∧ row_key r = k.
Proof.
  unfold uniq_of. induction rows as [|x rows IH] using rev_ind.
  - simpl. split.
    + intros (d & Hd & _). by rewrite lookup_empty in Hd.
    + by intros (r & Hr%elem_of_nil & _).
  - rewrite foldl_snoc. set (u := foldl _ ∅ rows) in *.
    destruct (decide (Row.chr x = c)) as [<-|Hne].
    + rewrite lookup_insert_eq. split.
      * intros (d & [= <-] & Hk).
        apply elem_of_union in Hk as [Hk%elem_of_singleton|Hk].
        -- exists x. split; [apply elem_of_app; right; by left|done].
        -- destruct (u !! Row.chr x) as [d|] eqn:Hd; simpl in Hk;
             [|by apply elem_of_empty in Hk].
           destruct (proj1 IH) as (r & Hr & Hc & Hkr); [by exists d|].
           exists r. split; [apply elem_of_app; by left|done].
      * intros (r & Hr & Hc & Hk). eexists; split; [done|].
        apply elem_of_app in Hr as [Hr|Hr%list_elem_of_singleton].
        -- apply elem_of_union; right.
           destruct (proj2 IH) as (d & -> & Hd); [by exists r|done].
        -- subst. apply elem_of_union; left. by apply elem_of_singleton.
    + rewrite lookup_insert_ne by done. rewrite IH.
      split; intros (r & Hr & Hc & Hk); exists r; (split; [|done]).
      * apply elem_of_app; by left.
      * apply elem_of_app in Hr as [Hr|Hr%list_elem_of_singleton]; [done|].
        congruence.
Qed.

Lemma uniq_of_is_Some (rows : list (Row.t T)) (c : string) :
  is_Some (uniq_of rows !! c) ↔ ∃ r, r ∈ rows ∧ Row.chr r = c.
Proof.
  unfold uniq_of. induction rows as [|x rows IH] using rev_ind.
  - simpl. rewrite lookup_empty. split; [by intros [? ?]|].
    by intros (r & Hr%elem_of_nil & _).
  - rewrite foldl_snoc. set (u := foldl _ ∅ rows) in *.
    destruct (decide (Row.chr x = c)) as [<-|Hne].
    + rewrite lookup_insert_eq. split; [|done]. intros _.
      exists x. split; [apply elem_of_app; right; by left|done].
    + rewrite lookup_insert_ne by done. rewrite IH.
      split; intros (r & Hr & Hc); exists r; (split; [|done]).
      * apply elem_of_app; by left.
      * apply elem_of_app in Hr as [Hr|Hr%list_elem_of_singleton]; [done|].
        congruence.
Qed.

Lemma wins_of_elem (c : string) (d : gset (Z * Z * Z)) (w : Win.t) :
  w ∈ wins_of c d ↔ Win.chr w = c ∧ win_key w ∈ d.
Proof.
  unfold wins_of. rewrite list_elem_of_fmap. split.
  - intros ([[s e] l] & -> & Hk). apply sorted_by_elem, elem_of_elements in Hk.
    done.
  - intros [<- Hk]. exists (win_key w). split; [by destruct w|].
    by apply sorted_by_elem, elem_of_elements.
Qed.

Lemma wins_of_sorted (c : string) (d : gset (Z * Z * Z)) :
  StronglySorted win_lt (wins_of c d).
Proof.
  unfold wins_of. eapply StronglySorted_fmap; [|apply sorted_keys_strict].
  by intros [[s1 e1] l1] [[s2 e2] l2].
Qed.

Lemma build_windows_lookup (rows : list (Row.t T)) (c : string)
    (wins : list Win.t) :
  (build_windows rows).1 !! c = Some wins
  ↔ ∃ d, uniq_of rows !! c = Some d ∧ wins = wins_of c d.
Proof.
  simpl. rewrite map_lookup_imap.
  destruct (uniq_of rows !! c) as [d|]; simpl.
  - split; [intros [= <-]; by exists d|by intros (d' & [= <-] & ->)].
  - split; [done|by intros (d' & ? & _)].
Qed.

Lemma build_windows_index (rows : list (Row.t T)) (c : string) :
  (build_windows rows).2 !! c = index_of <$> (build_windows rows).1 !! c.
Proof. simpl. by rewrite lookup_fmap. Qed.

(** X6.  The windows of a chromosome are the distinct [(start, end, length)]
    of the rows of that chromosome, in increasing order; a chromosome has
    windows exactly when a row names it. *)
Theorem build_windows_sorted (rows : list (Row.t T)) (c : string) :
  let wins_by_chr := (build_windows rows).1 in
  (is_Some (wins_by_chr !! c) ↔ ∃ r, r ∈ rows ∧ Row.chr r = c) ∧
  ∀ wins, wins_by_chr !! c = Some wins →
    StronglySorted win_lt wins ∧
    ∀ w, w ∈ wins
         ↔ Win.chr w = c ∧ ∃ r, r ∈ rows ∧ Row.chr r = c ∧ row_key r = win_key w.
Proof.
  cbv zeta. split.
  - rewrite <- uniq_of_is_Some. split.
    + intros [wins (d & Hd & _)%build_windows_lookup]. by exists d.
    + intros [d Hd]. exists (wins_of c d). apply build_windows_lookup. by exists d.
  - intros wins (d & Hd & ->)%build_windows_lookup.
    split; [apply wins_of_sorted|].
    intros w. rewrite wins_of_elem, <- uniq_of_lookup. split.
    + intros [? ?]. split; [done|]. by exists d.
    + intros [? (d' & Hd' & ?)]. split; [done|]. congruence.
Qed.

(** X7.  The windows and their index do not depend on the order of the rows
    of the table. *)
Theorem build_windows_row_order (rows rows' : list (Row.t T)) :
  rows ≡ₚ rows' → build_windows rows = build_windows rows'.
Proof.
  intros Hperm. unfold build_windows.
  assert (uniq_of rows = uniq_of rows') as ->; [|done].
  apply map_eq. intros c.
  pose proof (uniq_of_is_Some rows c) as Hs.
  pose proof (uniq_of_is_Some rows' c) as Hs'.
  pose proof (uniq_of_lookup rows c) as Hl.
  pose proof (uniq_of_lookup rows' c) as Hl'.
  destruct (uniq_of rows !! c) as [d|], (uniq_of rows' !! c) as [d'|].
  - f_equal. apply set_eq. intros k. split; intros Hk.
    + destruct (proj1 (Hl k)) as (r & Hr & Hc & Hkr); [by exists d|].
      destruct (proj2 (Hl' k)) as (d0 & [= <-] & ?); [|done].
      exists r. by rewrite <- Hperm.
    + destruct (proj1 (Hl' k)) as (r & Hr & Hc & Hkr); [by exists d'|].
      destruct (proj2 (Hl k)) as (d0 & [= <-] & ?); [|done].
      exists r. by rewrite Hperm.
  - destruct (proj1 Hs) as (r & Hr & Hc); [done|].
    destruct (proj2 Hs') as [? [=]]. exists r. by rewrite <- Hperm.
  - destruct (proj1 Hs') as (r & Hr & Hc); [done|].
    destruct (proj2 Hs) as [? [=]]. exists r. by rewrite Hperm.
  - done.
Qed.

(** ** The index of a window list *)

Lemma index_of_snoc (wins : list Win.t) (w : Win.t) :
  index_of (wins ++ [w])
  = <[(Win.start w, Win.end_ w) := length wins]> (index_of wins).
Proof.
  unfold index_of. rewrite imap_app, foldl_app. simpl.
  by rewrite Nat.add_0_r.
Qed.

(** An index found for [(s, e)] is that of the last window with this
    start and end. *)
Lemma index_of_lookup (wins : list Win.t) (s e : Z) (i : nat) :
  index_of wins !! (s, e) = Some i →
  ∃ w, wins !! i = Some w ∧ Win.start w = s ∧ Win.end_ w = e ∧
       ∀ j w', wins !! j = Some w' → Win.start w' = s → Win.end_ w' = e →
               (j ≤ i)%nat.
Proof.
  induction wins as [|x wins IH] using rev_ind; [done|].
  rewrite index_of_snoc.
  destruct (decide ((Win.start x, Win.end_ x) = (s, e))) as [Heq|Hne].
  - rewrite Heq, lookup_insert_eq. intros [= <-]. injection Heq as <- <-.
    exists x. rewrite list_lookup_middle by done. repeat split; try done.
    intros j w' Hj _ _. apply lookup_lt_Some in Hj.
    rewrite length_app in Hj. simpl in Hj. lia.
  - rewrite lookup_insert_ne by done. intros Hi.
    destruct (IH Hi) as (w & Hw & Hs & He & Hlast).
    exists w. rewrite lookup_app_l by by eapply lookup_lt_Some.
    repeat split; try done. intros j w' Hj Hs' He'.
    destruct (decide (j < length wins)%nat) as [Hlt|Hge].
    + rewrite lookup_app_l in Hj by done. by eapply Hlast.
    + apply lookup_lt_Some in Hj as Hj'. rewrite length_app in Hj'. simpl in Hj'.
      assert (j = length wins) as -> by lia.
      rewrite list_lookup_middle in Hj by done. injection Hj as <-.
      congruence.
Qed.

Lemma index_of_elem (wins : list Win.t) (w : Win.t) :
  w ∈ wins → is_Some (index_of wins !! (Win.start w, Win.end_ w)).
Proof.
  induction wins as [|x wins IH] using rev_ind; [by intros ?%elem_of_nil|].
  rewrite index_of_snoc. intros Hw.
  destruct (decide ((Win.start x, Win.end_ x) = (Win.start w, Win.end_ w)))
    as [Heq|Hne].
  - by rewrite Heq, lookup_insert_eq.
  - rewrite lookup_insert_ne by done. apply IH.
    apply elem_of_app in Hw as [Hw|Hw%list_elem_of_singleton]; [done|].
    by subst.
Qed.

(** Rows that give the same chromosome, start and end give the same
    length. *)
Definition consistent_lengths (rows : list (Row.t T)) : Prop :=
  ∀ r1 r2, r1 ∈ rows → r2 ∈ rows →
    Row.chr r1 = Row.chr r2 → Row.start r1 = Row.start r2 →
    Row.end_ r1 = Row.end_ r2 → Row.length r1 = Row.length r2.

Lemma StronglySorted_lookup_eq (wins : list Win.t) (i j : nat) (w : Win.t) :
  StronglySorted win_lt wins →
  wins !! i = Some w → wins !! j = Some w → i = j.
Proof.
  intros Hs Hi Hj.
  assert (Hirr : ∀ i j, (i < j)%nat → wins !! i = Some w → wins !! j = Some w
                        → False).
  { clear i j Hi Hj. intros i j Hij Hi Hj.
    rewrite <- (take_drop j wins) in Hs.
    assert (win_lt w w) as Hlt.
    { eapply StronglySorted_app_1_elem_of; [exact Hs|..].
      - apply list_elem_of_lookup. exists i. by rewrite lookup_take_lt.
      - apply list_elem_of_lookup. exists 0%nat.
        by rewrite lookup_drop, Nat.add_0_r. }
    unfold win_lt in Hlt. destruct (win_key w) as [[s e] l].
    apply triple_lt_spec in Hlt. lia. }
  destruct (Nat.lt_trichotomy i j) as [?|[?|?]]; [|done|]; exfalso; eauto.
Qed.

(** X8.  The round trip between the two dictionaries [build_windows] returns.
    An index found under [(start, end)] is the position of a window with
    this start and end; every window is found under its own start and
    end, at its own position or, if a later window has the same start and
    end, at the position of the last such window. *)
Theorem window_index_round_trip (rows : list (Row.t T)) (c : string)
    (wins : list Win.t) :
  (build_windows rows).1 !! c = Some wins →
  ∃ index, (build_windows rows).2 !! c = Some index ∧
    (∀ s e i, index !! (s, e) = Some i →
       ∃ w, wins !! i = Some w ∧ Win.start w = s ∧ Win.end_ w = e) ∧
    (∀ i w, wins !! i = Some w →
       ∃ j w', index !! (Win.start w, Win.end_ w) = Some j ∧ (i ≤ j)%nat ∧
               wins !! j = Some w' ∧ Win.start w' = Win.start w ∧
               Win.end_ w' = Win.end_ w) ∧
    (consistent_lengths rows →
     ∀ i w, wins !! i = Some w →
            index !! (Win.start w, Win.end_ w) = Some i).
Proof.
  intros Hw. rewrite build_windows_index, Hw.
  apply build_windows_lookup in Hw as (d & Hd & ->).
  pose proof (wins_of_sorted c d) as Hsorted.
  assert (Helem : ∀ w, w ∈ wins_of c d →
            ∃ r, r ∈ rows ∧ Row.chr r = c ∧ row_key r = win_key w).
  { intros w [_ Hk]%wins_of_elem. apply uniq_of_lookup. by exists d. }
  set (wins := wins_of c d) in *. simpl.
  exists (index_of wins). split; [done|].
  assert (Hfound : ∀ i w, wins !! i = Some w →
            ∃ j w', index_of wins !! (Win.start w, Win.end_ w) = Some j
                    ∧ (i ≤ j)%nat ∧ wins !! j = Some w'
                    ∧ Win.start w' = Win.start w ∧ Win.end_ w' = Win.end_ w).
  { intros i w Hi.
    destruct (index_of_elem wins w) as [j Hj]; [by eapply list_elem_of_lookup_2|].
    destruct (index_of_lookup wins _ _ j Hj) as (w' & Hw' & Hs & He & Hlast).
    exists j, w'. repeat split; try done. by eapply Hlast. }
  split; [|split; [done|]].
  - intros s e i Hi.
    destruct (index_of_lookup wins s e i Hi) as (w & ? & ? & ? & _). by exists w.
  - intros Hcons i w Hi.
    destruct (Hfound i w Hi) as (j & w' & Hj & _ & Hw' & Hs & He).
    assert (w' = w) as ->.
    { assert (Win.chr w = c ∧ Win.chr w' = c) as [Hc1 Hc2].
      { split; eapply wins_of_elem, list_elem_of_lookup_2; eassumption. }
      apply list_elem_of_lookup_2, Helem in Hi as (r1 & Hr1 & Hrc1 & Hk1).
      apply list_elem_of_lookup_2, Helem in Hw' as (r2 & Hr2 & Hrc2 & Hk2).
      unfold row_key, win_key in *. injection Hk1 as Hs1 He1 Hl1.
      injection Hk2 as Hs2 He2 Hl2.
      assert (Row.length r1 = Row.length r2) by (apply Hcons; congruence).
      destruct w, w'. simpl in *. congruence. }
    by rewrite (StronglySorted_lookup_eq wins i j w Hsorted Hi Hw').
Qed.
End windows.

(** * Pair tracks *)

(** ** Updates of an insertion-ordered dictionary *)

Section dd_update_facts.
Context {K V : Type} `{EqDecision K}.

Lemma dd_update_keys (k : K) (dflt : V) (f : V → V) (d : list (K * V)) :
  (dd_update k dflt f d).*1 = if decide (k ∈ d.*1) then d.*1 else d.*1 ++ [k].
Proof.
  induction d as [|[k' v] d IH].
  - cbn [dd_update fmap list_fmap fst app].
    rewrite decide_False; [done|]. by intros ?%elem_of_nil.
  - cbn [dd_update]. destruct (decide (k = k')) as [->|Hne];
      rewrite !fmap_cons; cbn [fst].
    + rewrite decide_True; [done|]. by left.
    + rewrite IH. destruct (decide (k ∈ d.*1)) as [Hin|Hin].
      * rewrite decide_True; [done|]. by right.
      * rewrite decide_False; [done|]. by intros [?|?]%elem_of_cons.
Qed.

Lemma dd_update_NoDup (k : K) (dflt : V) (f : V → V) (d : list (K * V)) :
  NoDup d.*1 → NoDup (dd_update k dflt f d).*1.
Proof.
  intros Hd. rewrite dd_update_keys. case_decide; [done|].
  apply NoDup_app. split; [done|]. split; [|apply NoDup_singleton].
  by intros x Hx ->%list_elem_of_singleton.
Qed.

Lemma dd_update_nonempty (k : K) (dflt : V) (f : V → V) (d : list (K * V)) :
  dd_update k dflt f d ≠ [].
Proof. destruct d as [|[k' v] d]; simpl; [done|]. by case_decide. Qed.

(** A property of all entries is kept when the updated value has it. *)
Lemma dd_update_Forall (P : K * V → Prop) (k : K) (dflt : V) (f : V → V)
    (d : list (K * V)) :
  Forall P d →
  (∀ v, v = dflt ∨ P (k, v) → P (k, f v)) →
  Forall P (dd_update k dflt f d).
Proof.
  intros Hd Hf. induction Hd as [|[k' v] d Hv Hd IH]; simpl.
  - constructor; [|constructor]. apply Hf. by left.
  - destruct (decide (k = k')) as [->|Hne].
    + constructor; [|done]. apply Hf. by right.
    + by constructor.
Qed.

(** The contents of the dictionary, flattened by [flat], grow by the one
    element [x] that the update adds to the value of [k]. *)
Lemma dd_update_perm {E} (flat : K → V → list E) (k : K) (dflt : V)
    (f : V → V) (d : list (K * V)) (x : E) :
  flat k dflt = [] →
  (∀ v, flat k (f v) ≡ₚ x :: flat k v) →
  dd_update k dflt f d ≫= (λ kv, flat kv.1 kv.2)
  ≡ₚ x :: (d ≫= λ kv, flat kv.1 kv.2).
Proof.
  intros Hdflt Hf. induction d as [|[k' v] d IH]; simpl.
  - by rewrite Hf, Hdflt.
  - destruct (decide (k = k')) as [->|Hne]; simpl.
    + by rewrite Hf.
    + rewrite IH. by rewrite Permutation_middle.
Qed.
End dd_update_facts.

(** ** The entries of the tracks *)

Section track_facts.
Context {T : Type}.

(** An entry with the chromosome and the pair it is filed under. *)
Definition chr_entries (cts : list (ChrTracks T))
    : list (string * TrackEntry T) :=
  cts ≫= λ ct, (λ e, (ct.1, e)) <$> ct.2.

Definition track_entries (tracks : list (PairTracks T))
    : list ((string * string) * string * TrackEntry T) :=
  tracks ≫= λ pt, (λ ce, (pt.1, ce.1, ce.2)) <$> chr_entries pt.2.

(** What [build_pair_tracks] does with a row: the entry it files, or
    [None] when a lookup fails. *)
Definition row_entry (index_by_chr : gmap string (gmap (Z * Z) nat))
    (r : Row.t T) : option ((string * string) * string * TrackEntry T) :=
  index ← index_by_chr !! Row.chr r;
  idx ← index !! (Row.start r, Row.end_ r);
  Some (pair_key (Row.a r) (Row.b r), Row.chr r,
        (idx, Row.ident r, Row.length r)).

Lemma chr_entries_update (c : string) (e : TrackEntry T)
    (cts : list (ChrTracks T)) :
  chr_entries (dd_update c [] (λ l, l ++ [e]) cts) ≡ₚ (c, e) :: chr_entries cts.
Proof.
  unfold chr_entries.
  apply (dd_update_perm (λ c l, (λ e : TrackEntry T, (c, e)) <$> l)); [done|].
  intros l. rewrite fmap_app. simpl. by rewrite <- Permutation_cons_append.
Qed.

Lemma track_entries_update (p : string * string) (c : string)
    (e : TrackEntry T) (tracks : list (PairTracks T)) :
  track_entries (dd_update p [] (dd_update c [] (λ l, l ++ [e])) tracks)
  ≡ₚ (p, c, e) :: track_entries tracks.
Proof.
  unfold track_entries.
  apply (dd_update_perm
           (λ p cts, (λ ce : string * TrackEntry T, (p, ce.1, ce.2))
                       <$> chr_entries cts)); [done|].
  intros cts. by rewrite chr_entries_update.
Qed.

Lemma track_entries_sort (tracks : list (PairTracks T)) :
  track_entries (sort_tracks tracks) ≡ₚ track_entries tracks.
Proof.
  unfold track_entries, sort_tracks.
  induction tracks as [|[p cts] tracks IH]; [done|].
  cbn [fmap list_fmap mbind list_bind]. rewrite IH.
  apply Permutation_app; [|done]. simpl. apply fmap_Permutation.
  unfold chr_entries. clear IH.
  induction cts as [|[c l] cts IH]; [done|].
  cbn [fmap list_fmap mbind list_bind]. rewrite IH.
  apply Permutation_app; [|done]. simpl. apply fmap_Permutation.
  apply sorted_by_perm.
Qed.

Lemma track_loop (index_by_chr : gmap string (gmap (Z * Z) nat))
    (rows : list (Row.t T)) (tracks : list (PairTracks T)) entries :
  Forall2 (λ r e, row_entry index_by_chr r = Some e) rows entries →
  ∃ tracks', for_each (track_body index_by_chr) tracks rows = Some tracks'
             ∧ track_entries tracks' ≡ₚ track_entries tracks ++ entries.
Proof.
  intros Hrows. revert tracks.
  induction Hrows as [|r e rows entries Hr _ IH]; intros tracks.
  - exists tracks. by rewrite app_nil_r.
  - cbn [for_each]. unfold row_entry in Hr. unfold track_body at 2.
    destruct (index_by_chr !! Row.chr r) as [index|]; [|done]. simpl in *.
    destruct (index !! (Row.start r, Row.end_ r)) as [idx|]; [|done].
    simpl in *. injection Hr as <-.
    destruct (IH (dd_update (pair_key (Row.a r) (Row.b r)) []
                    (dd_update (Row.chr r) []
                       (λ l, l ++ [(idx, Row.ident r, Row.length r)]))
                    tracks)) as (tracks' & -> & Hperm).
    exists tracks'. split; [done|].
    rewrite Hperm, track_entries_update. simpl. apply Permutation_middle.
Qed.

(** The row [r] is filed as the entry [e]: under its canonical pair key
    and its chromosome, with its identity and length, at the index of a
    window that has its start and end. *)
Definition placed (rows : list (Row.t T)) (r : Row.t T)
    (e : (string * string) * string * TrackEntry T) : Prop :=
  ∃ wins idx w,
    (build_windows rows).1 !! Row.chr r = Some wins ∧
    wins !! idx = Some w ∧
    Win.start w = Row.start r ∧ Win.end_ w = Row.end_ r ∧
    e = (pair_key (Row.a r) (Row.b r), Row.chr r,
         (idx, Row.ident r, Row.length r)).

Lemma row_entry_placed (rows : list (Row.t T)) (r : Row.t T) :
  r ∈ rows →
  ∃ e, row_entry (build_windows rows).2 r = Some e ∧ placed rows r e.
Proof.
  intros Hr.
  destruct (proj2 (uniq_of_lookup rows (Row.chr r) (row_key r)))
    as (d & Hd & Hk); [by exists r|].
  set (wins := wins_of (Row.chr r) d).
  assert (Hwins : (build_windows rows).1 !! Row.chr r = Some wins).
  { apply build_windows_lookup. by exists d. }
  assert (Hw : Win.mk (Row.chr r) (Row.start r) (Row.end_ r) (Row.length r)
               ∈ wins).
  { by apply wins_of_elem. }
  destruct (index_of_elem wins _ Hw) as [idx Hidx]. simpl in Hidx.
  destruct (index_of_lookup wins _ _ idx Hidx) as (w & Hwi & Hs & He & _).
  eexists. unfold row_entry. rewrite build_windows_index, Hwins. simpl.
  rewrite Hidx. simpl. split; [done|]. by exists wins, idx, w.
Qed.

Lemma Forall2_choice {A B} (P : A → B → Prop) (l : list A) :
  (∀ x, x ∈ l → ∃ y, P x y) → ∃ k, Forall2 P l k.
Proof.
  induction l as [|x l IH]; intros Hl; [by exists []|].
  destruct (Hl x) as [y Hy]; [by left|].
  destruct IH as [k Hk]; [intros x' Hx'; apply Hl; by right|].
  exists (y :: k). by constructor.
Qed.

Lemma build_pair_tracks_placed (rows : list (Row.t T)) :
  ∃ tracks entries,
    build_pair_tracks rows (build_windows rows).2 = Some tracks ∧
    Forall2 (placed rows) rows entries ∧
    track_entries tracks ≡ₚ entries.
Proof.
  destruct (Forall2_choice
              (λ r e, row_entry (build_windows rows).2 r = Some e
                      ∧ placed rows r e) rows) as (entries & Hall).
  { intros r Hr. by apply row_entry_placed. }
  destruct (track_loop (build_windows rows).2 rows [] entries)
    as (tracks & Hrun & Hperm).
  { eapply Forall2_impl; [exact Hall|]. by intros r e [? _]. }
  exists (sort_tracks tracks), entries. unfold build_pair_tracks.
  rewrite Hrun. simpl. split; [done|]. split.
  - eapply Forall2_impl; [exact Hall|]. by intros r e [_ ?].
  - by rewrite track_entries_sort, Hperm.
Qed.

(** X9.  With the index that [build_windows] makes of the same rows,
    [build_pair_tracks] raises no [KeyError] and skips no row: the tracks
    hold one entry for every row and no other entry.  The entry of a row
    is filed under the canonical pair key and the chromosome of the row,
    with its identity and length, at the index of a window that has its
    start and end. *)
Theorem every_row_placed (rows : list (Row.t T)) :
  ∃ tracks entries,
    build_pair_tracks rows (build_windows rows).2 = Some tracks ∧
    track_entries tracks ≡ₚ entries ∧
    length entries = length rows ∧
    ∀ i r, rows !! i = Some r →
      ∃ wins idx w,
        (build_windows rows).1 !! Row.chr r = Some wins ∧
        wins !! idx = Some w ∧
        Win.start w = Row.start r ∧ Win.end_ w = Row.end_ r ∧
        entries !! i = Some (pair_key (Row.a r) (Row.b r), Row.chr r,
                             (idx, Row.ident r, Row.length r)).
Proof.
  destruct (build_pair_tracks_placed rows)
    as (tracks & entries & Hrun & Hall & Hperm).
  exists tracks, entries. split; [done|]. split; [done|].
  split; [symmetry; by eapply Forall2_length|].
  intros i r Hi.
  destruct (Forall2_lookup_l _ _ _ _ _ Hall Hi)
    as (e & He & wins & idx & w & ? & ? & ? & ? & ->).
  by exists wins, idx, w.
Qed.

(** ** The shape of the tracks *)

(** The entries of a track are in non-decreasing order of window index. *)
Definition idx_le (e1 e2 : TrackEntry T) : Prop := (e1.1.1 ≤ e2.1.1)%nat.

#[local] Instance idx_le_trans : Transitive idx_le.
Proof. intros x y z. unfold idx_le. lia. Qed.

Definition chr_track_ok (index_by_chr : gmap string (gmap (Z * Z) nat))
    (ct : ChrTracks T) : Prop :=
  ct.2 ≠ [] ∧ is_Some (index_by_chr !! ct.1).

Definition pair_tracks_ok (index_by_chr : gmap string (gmap (Z * Z) nat))
    (pt : PairTracks T) : Prop :=
  String.leb pt.1.1 pt.1.2 = true ∧ NoDup pt.2.*1 ∧ pt.2 ≠ [] ∧
  Forall (chr_track_ok index_by_chr) pt.2.

Lemma track_body_ok (index_by_chr : gmap string (gmap (Z * Z) nat))
    (tracks tracks' : list (PairTracks T)) (r : Row.t T) :
  NoDup tracks.*1 → Forall (pair_tracks_ok index_by_chr) tracks →
  track_body index_by_chr tracks r = Some tracks' →
  NoDup tracks'.*1 ∧ Forall (pair_tracks_ok index_by_chr) tracks'.
Proof.
  intros Hnd Hok. unfold track_body.
  destruct (index_by_chr !! Row.chr r) as [index|] eqn:Hindex; [|done]. simpl.
  destruct (index !! (Row.start r, Row.end_ r)) as [idx|];
    intros [= <-]; [|done].
  split; [by apply dd_update_NoDup|].
  apply dd_update_Forall; [done|]. intros cts Hcts. unfold pair_tracks_ok. simpl.
  split; [apply pair_key_leb|].
  split; [|split; [apply dd_update_nonempty|]].
  - apply dd_update_NoDup. destruct Hcts as [->|(_ & ? & _)]; [constructor|done].
  - apply dd_update_Forall.
    + destruct Hcts as [->|(_ & _ & _ & ?)]; [constructor|done].
    + intros l _. split; simpl; [by destruct l|by rewrite Hindex].
Qed.

Lemma sort_track_sorted (ct : ChrTracks T) :
  StronglySorted idx_le (sort_track ct).2.
Proof.
  unfold sort_track. simpl. apply sorted_by_sorted; [apply _|..];
    intros x y _ _; unfold idx_le.
  - intros ?%Nat.ltb_lt. lia.
  - intros ?%Nat.ltb_ge. lia.
Qed.

Lemma sorted_by_nonempty {A K} (lt : K → K → bool) (key : A → K) (l : list A) :
  l ≠ [] → sorted_by lt key l ≠ [].
Proof.
  intros Hl Hs. apply Hl, Permutation_nil_r. by rewrite <- Hs, sorted_by_perm.
Qed.

Lemma build_pair_tracks_ok (rows : list (Row.t T))
    (index_by_chr : gmap string (gmap (Z * Z) nat))
    (tracks : list (PairTracks T)) :
  build_pair_tracks rows index_by_chr = Some tracks →
  NoDup tracks.*1 ∧ Forall (pair_tracks_ok index_by_chr) tracks.
Proof.
  unfold build_pair_tracks. intros Hrun.
  destruct (for_each _ _ rows) as [tracks0|] eqn:Hloop; [|done].
  simpl in Hrun. injection Hrun as <-.
  assert (Hinv : NoDup tracks0.*1 ∧ Forall (pair_tracks_ok index_by_chr) tracks0).
  { revert Hloop.
    assert (H0 : NoDup ([] : list (PairTracks T)).*1
                 ∧ Forall (pair_tracks_ok index_by_chr) []).
    { split; constructor. }
    revert H0. generalize ([] : list (PairTracks T)) as tr.
    induction rows as [|r rows IH]; intros tr Htr; simpl.
    - by intros [= <-].
    - destruct (track_body index_by_chr tr r) as [tr'|] eqn:Hb; [|done]. simpl.
      apply IH. destruct Htr. by eapply track_body_ok. }
  destruct Hinv as [Hnd Hok]. unfold sort_tracks. split.
  - by rewrite <- list_fmap_compose.
  - apply Forall_fmap. eapply Forall_impl; [exact Hok|].
    intros [p cts] (Hp & Hc & Hne & Hcts). simpl in *.
    split; [done|]. simpl. split; [by rewrite <- list_fmap_compose|].
    split; [by destruct cts|]. apply Forall_fmap.
    eapply Forall_impl; [exact Hcts|]. intros [c l] [Hl Hi]. split; [|done].
    simpl in *. by apply sorted_by_nonempty.
Qed.

Lemma build_pair_tracks_sorted (rows : list (Row.t T))
    (index_by_chr : gmap string (gmap (Z * Z) nat))
    (tracks : list (PairTracks T)) :
  build_pair_tracks rows index_by_chr = Some tracks →
  Forall (λ pt, Forall (λ ct, StronglySorted idx_le ct.2) pt.2) tracks.
Proof.
  unfold build_pair_tracks. intros Hrun.
  destruct (for_each _ _ rows) as [tracks0|]; [|done].
  simpl in Hrun. injection Hrun as <-.
  unfold sort_tracks. apply Forall_fmap, Forall_forall. intros pt _. simpl.
  apply Forall_fmap, Forall_forall. intros ct _. apply sort_track_sorted.
Qed.

(** X10.  The tracks [build_pair_tracks] returns, whatever the index: [tracks]
    has one entry per pair key, and the key is canonical; under it there
    is one track per chromosome, not empty and in non-decreasing order of
    window index; and the chromosome of a track has an index. *)
Theorem tracks_well_formed (rows : list (Row.t T))
    (index_by_chr : gmap string (gmap (Z * Z) nat))
    (tracks : list (PairTracks T)) :
  build_pair_tracks rows index_by_chr = Some tracks →
  NoDup tracks.*1 ∧
  ∀ a b cts, ((a, b), cts) ∈ tracks →
    String.leb a b = true ∧ NoDup cts.*1 ∧ cts ≠ [] ∧
    ∀ c track, (c, track) ∈ cts →
      track ≠ [] ∧ is_Some (index_by_chr !! c) ∧
      StronglySorted (λ e1 e2 : TrackEntry T, (e1.1.1 ≤ e2.1.1)%nat) track.
Proof.
  intros Hrun. destruct (build_pair_tracks_ok _ _ _ Hrun) as [Hnd Hok].
  pose proof (build_pair_tracks_sorted _ _ _ Hrun) as Hsorted.
  split; [done|]. intros a b cts Hpt.
  eapply Forall_forall in Hok as (Hab & Hc & Hne & Hcts); [|exact Hpt].
  eapply Forall_forall in Hsorted; [|exact Hpt]. simpl in *.
  split; [done|]. split; [done|]. split; [done|]. intros c track Hct.
  eapply Forall_forall in Hcts as [? ?]; [|exact Hct].
  eapply Forall_forall in Hsorted; [|exact Hct]. done.
Qed.

(** ** The dictionary of a track *)

Lemma ident_by_idx_of_snoc (track : list (TrackEntry T)) (e : TrackEntry T) :
  ident_by_idx_of (track ++ [e]) = <[e.1.1 := e.1.2]> (ident_by_idx_of track).
Proof. unfold ident_by_idx_of. rewrite foldl_snoc. by destruct e as [[? ?] ?]. Qed.

(** The identity recorded for window [i] is that of the last entry of the
    track with this index. *)
Lemma ident_by_idx_of_last (track : list (TrackEntry T)) (i : nat) :
  ident_by_idx_of track !! i
  = (λ e : TrackEntry T, e.1.2) <$> last (filter (λ e, e.1.1 = i) track).
Proof.
  induction track as [|e track IH] using rev_ind; [done|].
  rewrite ident_by_idx_of_snoc, filter_app, filter_cons, filter_nil.
  destruct (decide (e.1.1 = i)) as [Heq|Hne].
  - by rewrite Heq, lookup_insert_eq, last_snoc.
  - by rewrite lookup_insert_ne, app_nil_r.
Qed.

(** The sort is stable: entries with the same index keep their order. *)
Lemma filter_insert_by (track : list (TrackEntry T)) (e : TrackEntry T)
    (i : nat) :
  filter (λ x : TrackEntry T, x.1.1 = i)
    (insert_by Nat.ltb (λ x : TrackEntry T, x.1.1) e track)
  = filter (λ x : TrackEntry T, x.1.1 = i) (e :: track).
Proof.
  induction track as [|y track IH]; simpl; [done|].
  destruct (Nat.ltb_spec y.1.1 e.1.1) as [Hlt|Hge]; [|done].
  rewrite (filter_cons _ y), IH, !filter_cons.
  destruct (decide (y.1.1 = i)), (decide (e.1.1 = i)); try done. lia.
Qed.

Lemma filter_sorted_by (track : list (TrackEntry T)) (i : nat) :
  filter (λ x : TrackEntry T, x.1.1 = i)
    (sorted_by Nat.ltb (λ x : TrackEntry T, x.1.1) track)
  = filter (λ x : TrackEntry T, x.1.1 = i) track.
Proof.
  induction track as [|e track IH]; simpl; [done|].
  by rewrite filter_insert_by, !filter_cons, IH.
Qed.

Lemma ident_by_idx_of_sorted (track : list (TrackEntry T)) :
  ident_by_idx_of (sorted_by Nat.ltb (λ x : TrackEntry T, x.1.1) track)
  = ident_by_idx_of track.
Proof.
  apply map_eq. intros i. by rewrite !ident_by_idx_of_last, filter_sorted_by.
Qed.
End track_facts.

(** * Further properties of the RLE caller *)

Section rle_spans.
Context {T : Type} `{Number T}.
Variables (track_list : list (TrackEntry T)) (wins : list Win.t)
          (min_id : T) (max_gap min_windows min_len_bp : Z)
          (treat_missing_as_gap : bool) (drop_tolerance : T).

Local Abbreviation ident_at i := (ident_by_idx_of track_list !! i).
Local Abbreviation good x := (qualifies min_id drop_tolerance x).
Local Abbreviation taken o :=
  (absorbs min_id treat_missing_as_gap drop_tolerance o).

(** X11.  If no window of the chromosome qualifies, and in particular for an
    empty track or an empty window list, the caller returns no segment. *)
Theorem rle_nothing_qualifies :
  (∀ i x, (i < length wins)%nat → ident_at i = Some x → good x = false) →
  rle_segments_for_pair track_list wins min_id max_gap min_windows
    min_len_bp treat_missing_as_gap drop_tolerance = Some [].
Proof.
  intros Hnone.
  destruct (rle_result track_list wins min_id max_gap min_windows min_len_bp
              treat_missing_as_gap drop_tolerance
              (λ _ st, current st = None ∧ segments st = []))
    as (st & segs & Hrun & [Hc Hs] & _ & Hfin).
  - done.
  - intros i st st' Hi _ [Hc Hs] Hstep.
    destruct Hstep as [_ _|x _ Hx Hq|cur Hc'|cur segs Hc'|cur segs Hc'];
      try congruence; [done|].
    rewrite (Hnone i x Hi Hx) in Hq. done.
  - rewrite Hc in Hfin. by rewrite Hrun, Hfin, Hs.
Qed.

(** The segment [seg] reports the windows [s..e]: their chromosome, the
    start of the first and the end of the last, their number and the sum
    of their lengths. *)
Definition reports (seg : Seg.t T) (s e : nat) : Prop :=
  (s ≤ e)%nat ∧
  ∃ ws we, wins !! s = Some ws ∧ wins !! e = Some we ∧
    Seg.chr seg = Win.chr ws ∧ Seg.start seg = Win.start ws ∧
    Seg.end_ seg = Win.end_ we ∧
    Seg.n_windows seg = Z.of_nat e - Z.of_nat s + 1 ∧
    Seg.covered_bp seg = covered wins s e.

Lemma run_segment_reports cur called sum min g ws we :
  (start_idx cur ≤ end_idx cur)%nat →
  wins !! start_idx cur = Some ws → wins !! end_idx cur = Some we →
  reports (run_segment wins cur called sum min g ws we)
    (start_idx cur) (end_idx cur).
Proof. intros Hle Hs He. split; [done|]. by exists ws, we. Qed.

(** The run [s..e] of a segment: it opens on a window that qualifies, and
    each of its windows qualifies or, when missing windows count as gaps,
    is missing. *)
Definition rle_run (se : nat * nat) : Prop :=
  (∃ x, ident_at se.1 = Some x ∧ good x = true) ∧
  ∀ k, (se.1 ≤ k ≤ se.2)%nat → taken (ident_at k) = true.

Definition rle_span (seg : Seg.t T) (se : nat * nat) : Prop :=
  reports seg se.1 se.2 ∧ rle_run se.

(** The run [a] ends before the run [b] starts. *)
Definition span_lt (a b : nat * nat) : Prop := (a.2 < b.1)%nat.

Definition spans_inv (i : nat) (st : RleState T) : Prop :=
  (∃ spans, Forall2 rle_span (segments st) spans ∧
     StronglySorted span_lt spans ∧
     Forall (λ se, (se.2 < match current st with
                           | Some cur => start_idx cur
                           | None => i
                           end)%nat) spans) ∧
  ∀ cur, current st = Some cur →
    (∃ x, ident_at (start_idx cur) = Some x ∧ good x = true) ∧
    ∀ k, (start_idx cur ≤ k < i)%nat → taken (ident_at k) = true.

Lemma closes_spans st cur g segs spans :
  (start_idx cur ≤ end_idx cur)%nat →
  Forall2 rle_span (segments st) spans →
  StronglySorted span_lt spans →
  Forall (λ se, (se.2 < start_idx cur)%nat) spans →
  rle_run (start_idx cur, end_idx cur) →
  closes wins min_windows min_len_bp st cur g segs →
  ∃ spans', Forall2 rle_span segs spans' ∧
    StronglySorted span_lt spans' ∧
    Forall (λ se, (se.2 ≤ end_idx cur)%nat) spans'.
Proof.
  intros Hle Hsegs Hsorted Hbound Hrun (ws & we & Hws & Hwe & ->). simpl.
  destruct (passes _ _ _).
  - exists (spans ++ [(start_idx cur, end_idx cur)]). split; [|split].
    + apply Forall2_app; [done|]. constructor; [|constructor].
      split; [|done]. by apply run_segment_reports.
    + apply StronglySorted_app_2; [|done|repeat constructor].
      intros a b Ha ->%list_elem_of_singleton. unfold span_lt. simpl.
      by eapply Forall_forall in Hbound.
    + apply Forall_app. split; [|by repeat constructor].
      eapply Forall_impl; [exact Hbound|]. simpl. lia.
  - exists spans. rewrite app_nil_r. split; [done|]. split; [done|].
    eapply Forall_impl; [exact Hbound|]. simpl. lia.
Qed.

Lemma spans_inv_step i st st' :
  rle_wf i st → spans_inv i st →
  rle_step track_list wins min_id max_gap min_windows min_len_bp
    treat_missing_as_gap drop_tolerance i st st' →
  spans_inv (S i) st'.
Proof.
  intros Hwf [(spans & Hsegs & Hsorted & Hbound) Hrun] Hstep.
  unfold spans_inv, rle_wf in *.
  rle_step_cases Hstep; rewrite Hc in *; simpl.
  - split; [|done]. exists spans. repeat split; try done.
    eapply Forall_impl; [exact Hbound|]. simpl. lia.
  - split.
    + exists spans. repeat split; try done.
    + intros cur [= <-]. simpl. split; [by exists x|].
      intros k Hk. assert (k = i) as -> by lia. by rewrite Hx.
  - destruct Hwf as [Hs He]. destruct (Hrun cur eq_refl) as [Hfirst Hall].
    assert (Hnew : ∀ c, Some {| start_idx := start_idx cur; end_idx := i |}
                        = Some c →
              (∃ x, ident_at (start_idx c) = Some x ∧ good x = true) ∧
              ∀ k, (start_idx c ≤ k < S i)%nat → taken (ident_at k) = true).
    { intros c [= <-]. simpl. split; [done|]. intros k Hk.
      destruct (decide (k = i)) as [->|]; [done|apply Hall; lia]. }
    destruct (ident_at i); simpl; (split; [by exists spans|exact Hnew]).
  - destruct Hwf as [Hs He]. destruct (Hrun cur eq_refl) as [Hfirst Hall].
    split; [|done].
    destruct (closes_spans (extend_run st cur i (ident_at i))
                {| start_idx := start_idx cur; end_idx := i - 1 |}
                max_gap segs spans) as (spans' & ? & ? & Hb'); simpl; try done.
    { lia. }
    { by destruct (ident_at i). }
    { split; simpl; [done|intros k Hk; apply Hall; lia]. }
    exists spans'. repeat split; try done.
    eapply Forall_impl; [exact Hb'|]. simpl. lia.
  - destruct Hwf as [Hs He]. destruct (Hrun cur eq_refl) as [Hfirst Hall].
    split; [|done].
    destruct (closes_spans st cur (gaps st) segs spans)
      as (spans' & ? & ? & Hb'); try done.
    { lia. }
    { split; simpl; [done|intros k Hk; apply Hall; lia]. }
    exists spans'. repeat split; try done.
    eapply Forall_impl; [exact Hb'|]. simpl. lia.
Qed.

Lemma rle_spans_aux :
  ∃ segs spans,
    rle_segments_for_pair track_list wins min_id max_gap min_windows
      min_len_bp treat_missing_as_gap drop_tolerance = Some segs ∧
    Forall2 rle_span segs spans ∧ StronglySorted span_lt spans.
Proof.
  destruct (rle_result track_list wins min_id max_gap min_windows min_len_bp
              treat_missing_as_gap drop_tolerance spans_inv)
    as (st & segs & Hrun & [(spans & Hsegs & Hsorted & Hbound) Hact] & Hwf & Hfin).
  - split; [|done]. exists []. repeat split; constructor.
  - intros i st st' _. apply spans_inv_step.
  - exists segs. unfold rle_wf in Hwf.
    destruct (current st) as [cur|]; [|subst; by exists spans].
    destruct Hwf as [Hs He]. destruct (Hact cur eq_refl) as [Hfirst Hall].
    destruct (closes_spans st cur (gaps st) segs spans)
      as (spans' & ? & ? & _); try done.
    { lia. }
    { split; simpl; [done|intros k Hk; apply Hall; lia]. }
    by exists spans'.
Qed.

(** X12.  The segments the caller returns are the reports of runs of windows
    that follow one another without a window in common.  Each run opens on
    a window that qualifies, and a window of a run either qualifies or is
    missing from the track while missing windows count as gaps: a present
    window below the threshold is in no segment. *)
Theorem rle_segments_are_runs :
  ∃ segs spans,
    rle_segments_for_pair track_list wins min_id max_gap min_windows
      min_len_bp treat_missing_as_gap drop_tolerance = Some segs ∧
    Forall2 (λ seg se,
               reports seg se.1 se.2 ∧
               (∃ x, ident_at se.1 = Some x ∧ good x = true) ∧
               ∀ k, (se.1 ≤ k ≤ se.2)%nat →
                 match ident_at k with
                 | Some x => good x = true
                 | None => treat_missing_as_gap = true
                 end) segs spans ∧
    StronglySorted (λ a b : nat * nat, (a.2 < b.1)%nat) spans.
Proof.
  destruct rle_spans_aux as (segs & spans & Hrun & Hsegs & Hsorted).
  exists segs, spans. split; [done|]. split; [|done].
  eapply Forall2_impl; [exact Hsegs|].
  intros seg se [Hrep [Hfirst Hall]]. split; [done|]. split; [done|].
  intros k Hk. specialize (Hall k Hk). by destruct (ident_at k).
Qed.

(** ** The gaps of a segment *)

Section gaps.
Hypothesis max_gap_nonneg : 0 ≤ max_gap.

(** [n_gaps] is the number [g] of missing windows among the windows
    [s..e] of the segment, within the budget, and [frac_called] is the
    fraction of the other windows. *)
Definition gaps_ok (seg : Seg.t T) : Prop :=
  ∃ s e g,
    reports seg s e ∧ Seg.n_gaps seg = Some g ∧
    g = missing_in track_list s e ∧ 0 ≤ g ≤ max_gap ∧
    g < Seg.n_windows seg ∧
    Seg.frac_called seg
    = ndiv (nofZ (Seg.n_windows seg - g)) (nofZ (Seg.n_windows seg)).

Definition gaps_ok_inv (i : nat) (st : RleState T) : Prop :=
  counts_inv max_gap i st ∧ gaps_inv track_list i st ∧
  Forall gaps_ok (segments st).

Lemma run_segment_gaps_ok cur called sum min ws we :
  (start_idx cur ≤ end_idx cur)%nat →
  wins !! start_idx cur = Some ws → wins !! end_idx cur = Some we →
  let g := missing_in track_list (start_idx cur) (end_idx cur) in
  0 ≤ g ≤ max_gap → 1 ≤ called →
  called + g = Z.of_nat (end_idx cur) - Z.of_nat (start_idx cur) + 1 →
  gaps_ok (run_segment wins cur called sum min g ws we).
Proof.
  intros Hle Hs He g Hg Hcalled Hsum.
  exists (start_idx cur), (end_idx cur), g.
  split; [by apply run_segment_reports|]. simpl.
  repeat split; try done; try lia.
  destruct (0 <? _) eqn:Hn; [f_equal; f_equal; lia|].
  apply Z.ltb_ge in Hn. lia.
Qed.

Lemma gaps_ok_inv_step i st st' :
  rle_wf i st → gaps_ok_inv i st →
  rle_step track_list wins min_id max_gap min_windows min_len_bp
    treat_missing_as_gap drop_tolerance i st st' →
  gaps_ok_inv (S i) st'.
Proof.
  intros Hwf (Hcounts & Hgaps & Hsegs) Hstep.
  split; [by eapply counts_inv_step|]. split; [by eapply gaps_inv_step|].
  destruct Hcounts as [_ Hact]. unfold gaps_inv, rle_wf in *.
  rle_step_cases Hstep; rewrite Hc in *; simpl; try done.
  - by destruct (ident_at i).
  - destruct Hwf as [Hs He]. destruct (Hact cur eq_refl) as (Hcalled & Hg & Hsum).
    specialize (Hgaps cur eq_refl).
    eapply closes_Forall; [| |exact Hcl]; [by destruct (ident_at i)|].
    intros ws we Hws Hwe seg _. subst seg. simpl in Hws, Hwe.
    destruct (ident_at i) as [x|]; simpl in *; [lia|].
    assert (max_gap = missing_in track_list (start_idx cur) (i - 1)) as Hm by lia.
    rewrite Hm at 1.
    apply (run_segment_gaps_ok {| start_idx := start_idx cur; end_idx := i - 1 |});
      simpl; try done; lia.
  - destruct Hwf as [Hs He]. destruct (Hact cur eq_refl) as (Hcalled & Hg & Hsum).
    specialize (Hgaps cur eq_refl).
    eapply closes_Forall; [exact Hsegs| |exact Hcl].
    intros ws we Hws Hwe seg _. subst seg. rewrite Hgaps, <- He.
    apply run_segment_gaps_ok; try done; rewrite He, <- ?Hgaps; lia.
Qed.

(** X13.  For a [max_gap] that is not negative, the [n_gaps] a segment of the
    RLE caller carries is the number of windows of its run that are
    missing from the track; it is within [max_gap] and below [n_windows],
    and [frac_called] is the fraction of the other windows of the run. *)
Theorem rle_gaps_counted :
  ∃ segs,
    rle_segments_for_pair track_list wins min_id max_gap min_windows
      min_len_bp treat_missing_as_gap drop_tolerance = Some segs ∧
    Forall gaps_ok segs.
Proof.
  destruct (rle_result track_list wins min_id max_gap min_windows min_len_bp
              treat_missing_as_gap drop_tolerance gaps_ok_inv)
    as (st & segs & Hrun & (Hcounts & Hgaps & Hsegs) & Hwf & Hfin).
  - split; [split; [constructor|done]|]. split; [by intros cur|constructor].
  - intros i st st' _. apply gaps_ok_inv_step.
  - exists segs. split; [done|]. unfold rle_wf, gaps_inv in *.
    destruct Hcounts as [_ Hact].
    destruct (current st) as [cur|]; [|by subst].
    destruct Hwf as [Hs He]. destruct (Hact cur eq_refl) as (Hcalled & Hg & Hsum).
    specialize (Hgaps cur eq_refl).
    eapply closes_Forall; [exact Hsegs| |exact Hfin].
    intros ws we Hws Hwe seg _. subst seg. rewrite Hgaps, <- He.
    apply run_segment_gaps_ok; try done; rewrite He, <- ?Hgaps; lia.
Qed.
End gaps.
End rle_spans.

(** * Two runs of a loop *)

(** Two loops over the same list, whose bodies keep a relation between
    their states and raise together. *)
Lemma for_each_sim {S1 S2 A} (R : S1 → S2 → Prop)
    (f : S1 → A → option S1) (g : S2 → A → option S2) (l : list A) s1 s2 :
  R s1 s2 →
  (∀ s1 s2 x, R s1 s2 → option_Forall2 R (f s1 x) (g s2 x)) →
  option_Forall2 R (for_each f s1 l) (for_each g s2 l).
Proof.
  intros HR Hstep. revert s1 s2 HR.
  induction l as [|x l IH]; intros s1 s2 HR; simpl; [by constructor|].
  destruct (Hstep s1 s2 x HR) as [t1 t2 Ht|]; simpl; [by apply IH|constructor].
Qed.

(** * The size filter of the RLE caller *)

#[export] Instance size_ok_dec {T} (min_windows min_len_bp : Z) (seg : Seg.t T) :
  Decision (size_ok min_windows min_len_bp seg).
Proof. unfold size_ok. apply _. Defined.

Section size_filter.
Context {T : Type} `{Number T}.
Variables (track_list : list (TrackEntry T)) (wins : list Win.t)
          (min_id : T) (max_gap : Z)
          (treat_missing_as_gap : bool) (drop_tolerance : T).
Variables (min_windows min_len_bp min_windows' min_len_bp' : Z).
Hypothesis (Hwindows : min_windows ≤ min_windows')
           (Hlen : min_len_bp ≤ min_len_bp').

Local Abbreviation keeps := (size_ok (T := T) min_windows' min_len_bp').

(** The scan with the stricter filter is in the state of the scan with
    the other filter, and has kept the segments that pass the stricter
    filter. *)
Definition filtered (st st' : RleState T) : Prop :=
  current st' = current st ∧ gaps st' = gaps st ∧ called st' = called st ∧
  ident_sum st' = ident_sum st ∧ min_ident st' = min_ident st ∧
  segments st' = filter keeps (segments st).

Lemma close_run_filtered st st' cur g :
  filtered st st' →
  option_Forall2 filtered
    (close_run wins min_windows min_len_bp st cur g)
    (close_run wins min_windows' min_len_bp' st' cur g).
Proof.
  intros (Hc & Hg & Hcalled & Hsum & Hmin & Hsegs).
  unfold close_run, finalize_segment. rewrite Hcalled, Hsum, Hmin.
  destruct (wins !! start_idx cur) as [ws|]; simpl; [|constructor].
  destruct (wins !! end_idx cur) as [we|]; simpl; [|constructor].
  set (n := Z.of_nat (end_idx cur) - Z.of_nat (start_idx cur) + 1).
  set (cov := covered wins (start_idx cur) (end_idx cur)).
  destruct ((min_windows' <=? n) && (min_len_bp' <=? cov)) eqn:Hstrict;
    destruct ((min_windows <=? n) && (min_len_bp <=? cov)) eqn:Hlenient;
    simpl; constructor; unfold filtered; simpl; repeat split; try done;
    rewrite ?filter_app, ?filter_cons, ?filter_nil, ?Hsegs.
  - rewrite decide_True; [done|]. unfold size_ok. simpl.
    apply andb_prop in Hstrict as [?%Z.leb_le ?%Z.leb_le]. done.
  - apply andb_prop in Hstrict as [?%Z.leb_le ?%Z.leb_le].
    apply andb_false_iff in Hlenient as [?%Z.leb_gt|?%Z.leb_gt]; lia.
  - rewrite decide_False; [by rewrite app_nil_r|]. unfold size_ok. simpl.
    apply andb_false_iff in Hstrict as [?%Z.leb_gt|?%Z.leb_gt]; lia.
Qed.

Lemma rle_body_filtered st st' i :
  filtered st st' →
  option_Forall2 filtered
    (rle_body track_list wins min_id max_gap min_windows min_len_bp
       treat_missing_as_gap drop_tolerance st i)
    (rle_body track_list wins min_id max_gap min_windows' min_len_bp'
       treat_missing_as_gap drop_tolerance st' i).
Proof.
  intros HR. pose proof HR as (Hc & Hg & Hcalled & Hsum & Hmin & Hsegs).
  assert (Hstart : ∀ x, filtered (start_run st i x) (start_run st' i x)).
  { intros x. unfold filtered. by simpl. }
  assert (Hext : ∀ cur o, filtered (extend_run st cur i o)
                                   (extend_run st' cur i o)).
  { intros cur [x|]; unfold filtered; simpl; rewrite ?Hg, ?Hcalled, ?Hsum, ?Hmin;
      done. }
  assert (Hcheck : ∀ cur o,
            option_Forall2 filtered
              (check_gaps wins max_gap min_windows min_len_bp
                 (extend_run st cur i o) cur i)
              (check_gaps wins max_gap min_windows' min_len_bp'
                 (extend_run st' cur i o) cur i)).
  { intros cur o. unfold check_gaps.
    destruct (Hext cur o) as (_ & -> & _).
    destruct (max_gap <? _); [by apply close_run_filtered|by constructor]. }
  unfold rle_body. rewrite Hc, Hg.
  destruct (ident_by_idx_of track_list !! i) as [x|];
    destruct (current st) as [cur|]; try (by constructor).
  - destruct (qualifies min_id drop_tolerance x); [apply Hcheck|].
    destruct (close_run_filtered st st' cur (gaps st) HR) as [t t' Ht|];
      simpl; by constructor.
  - destruct (qualifies min_id drop_tolerance x); by constructor.
  - destruct treat_missing_as_gap; [apply Hcheck|by apply close_run_filtered].
Qed.

(** X14.  Raising [min_windows] or [min_len_bp] only removes segments: the scan
    does not depend on the filter, and the caller returns the segments of
    the run with the lower bounds that pass the higher ones, in the same
    order. *)
Theorem rle_size_filter :
  rle_segments_for_pair track_list wins min_id max_gap min_windows'
    min_len_bp' treat_missing_as_gap drop_tolerance
  = filter (size_ok min_windows' min_len_bp')
    <$> rle_segments_for_pair track_list wins min_id max_gap min_windows
          min_len_bp treat_missing_as_gap drop_tolerance.
Proof.
  unfold rle_segments_for_pair, rle_loop.
  destruct (for_each_sim filtered
              (rle_body track_list wins min_id max_gap min_windows min_len_bp
                 treat_missing_as_gap drop_tolerance)
              (rle_body track_list wins min_id max_gap min_windows' min_len_bp'
                 treat_missing_as_gap drop_tolerance)
              (seq 0 (length wins)) rle_init rle_init)
    as [st st' HR|]; [by unfold filtered|apply rle_body_filtered| |done].
  simpl. pose proof HR as (Hc & Hg & _ & _ & _ & Hsegs). rewrite Hc, Hg.
  destruct (current st) as [cur|]; simpl; [|by rewrite Hsegs].
  destruct (close_run_filtered st st' cur (gaps st) HR) as [t t' Ht|];
    simpl; [|done].
  by destruct Ht as (_ & _ & _ & _ & _ & ->).
Qed.
End size_filter.

(** * The order of a track *)

Section track_order.
Context {T : Type} `{Number T}.

(** The callers read a track through its dictionary only. *)
Lemma call_segments_ext (args : Args.t T) (track1 track2 : list (TrackEntry T))
    (wins : list Win.t) :
  ident_by_idx_of track1 = ident_by_idx_of track2 →
  call_segments args track1 wins = call_segments args track2 wins.
Proof.
  intros Heq. unfold call_segments.
  destruct (Args.mode args).
  - unfold rle_segments_for_pair, rle_loop, rle_body. by rewrite Heq.
  - unfold seed_extend_segments_for_pair, seed_candidates, find_seeds, seed_run,
      seed_window, seed_body, extend_left, extend_right, xdrop_extend.
    by rewrite Heq.
Qed.

(** X16.  The identity a caller reads for a window is that of the last entry
    of the track with the index of the window: entries are appended in the
    order of the rows, so of several rows of a pair for one window the
    last one in the file counts.  The sort of the track by window index
    keeps the order of such entries, and changes nothing in what the
    callers return. *)
Theorem last_entry_wins (args : Args.t T) (c : string)
    (track : list (TrackEntry T)) (wins : list Win.t) :
  (∀ i, ident_by_idx_of track !! i
        = (λ e : TrackEntry T, e.1.2)
          <$> last (filter (λ e : TrackEntry T, e.1.1 = i) track)) ∧
  ident_by_idx_of (sort_track (c, track)).2 = ident_by_idx_of track ∧
  call_segments args (sort_track (c, track)).2 wins
  = call_segments args track wins.
Proof.
  split; [apply ident_by_idx_of_last|].
  split; [apply ident_by_idx_of_sorted|].
  apply call_segments_ext, ident_by_idx_of_sorted.
Qed.
End track_order.

(** * Further properties of the seed-and-extend caller *)

Section seed_extra.
Context {T : Type} `{Number T}.
Variables (track_list : list (TrackEntry T)) (wins : list Win.t)
          (seed_thr : T) (seed_k : Z) (ext_thr xdrop reward pen_bad pen_miss : T)
          (min_windows min_len_bp : Z) (treat_missing_as_gap : bool).

Lemma find_seeds_none fuel i :
  (∀ k, (k < length wins)%nat → seed_window track_list seed_thr k = false) →
  (length wins - i < fuel)%nat →
  find_seeds track_list wins seed_thr seed_k fuel i [] = Some [].
Proof.
  intros Hnone. revert i. induction fuel as [|fuel IH]; intros i Hf; [lia|].
  rewrite find_seeds_S. destruct (i <? length wins)%nat eqn:Hi; [|done].
  apply Nat.ltb_lt in Hi. rewrite (Hnone i Hi). apply IH. lia.
Qed.

(** X17.  Without a window at or above the seed threshold, and in particular
    for an empty track or an empty window list, there is no seed and the
    caller returns no segment. *)
Theorem seed_nothing_seeds :
  (∀ i x, (i < length wins)%nat → ident_by_idx_of track_list !! i = Some x →
          nge x seed_thr = false) →
  seed_extend_segments_for_pair track_list wins seed_thr seed_k ext_thr xdrop
    reward pen_bad pen_miss min_windows min_len_bp treat_missing_as_gap
  = Some [].
Proof.
  intros Hnone. unfold seed_extend_segments_for_pair, seed_candidates.
  rewrite find_seeds_none; [done| |lia].
  intros k Hk. unfold seed_window.
  destruct (ident_by_idx_of track_list !! k) as [x|] eqn:Hx; [|done].
  by apply (Hnone k).
Qed.
End seed_extra.

(** * Further properties of the merge step *)

Section merge_extra.
Context {T : Type} `{Number T}.

(** [out] covers [c]: same chromosome, and a range that contains the
    range of [c]. *)
Definition covers (out c : Seg.t T) : Prop :=
  Seg.chr out = Seg.chr c ∧ Seg.start out ≤ Seg.start c ∧
  Seg.end_ c ≤ Seg.end_ out.

Lemma merge_fold_covers (rest : list (Seg.t T)) init last (c : Seg.t T) :
  (∃ out, out ∈ init ++ [last] ∧ covers out c) ∨ c ∈ rest →
  ∃ out, out ∈ (let '(i, l) := foldl merge_body (init, last) rest in i ++ [l])
         ∧ covers out c.
Proof.
  revert init last.
  induction rest as [|s rest IH]; intros init last Hc; simpl.
  - destruct Hc as [?|Hc]; [done|by apply elem_of_nil in Hc].
  - destruct (String.eqb (Seg.chr s) (Seg.chr last)
              && (Seg.start s <=? Seg.end_ last)) eqn:Hm; apply IH.
    + apply andb_prop in Hm as [Hchr%String.eqb_eq Hs%Z.leb_le].
      destruct Hc as [(out & Hout & Hcov)|Hc].
      * left. apply elem_of_app in Hout as [Hout|Hout%list_elem_of_singleton].
        -- exists out. split; [apply elem_of_app; by left|done].
        -- subst out. eexists. split; [apply elem_of_app; right; by left|].
           unfold covers in *. simpl. intuition lia.
      * apply elem_of_cons in Hc as [->|Hc]; [|by right].
        left. eexists. split; [apply elem_of_app; right; by left|].
        unfold covers. simpl. split; [done|]. lia.
    + destruct Hc as [(out & Hout & Hcov)|Hc].
      * left. exists out. split; [apply elem_of_app; by left|done].
      * apply elem_of_cons in Hc as [->|Hc]; [|by right].
        left. exists s. split; [apply elem_of_app; right; by left|].
        unfold covers. repeat split; lia.
Qed.

(** X19.  Merging loses no position: every candidate lies within a merged
    segment of its chromosome. *)
Theorem merge_covers_candidates (segs : list (Seg.t T)) (wins : list Win.t)
    (c : Seg.t T) :
  c ∈ segs →
  ∃ out, out ∈ merge_segments segs wins ∧ Seg.chr out = Seg.chr c ∧
         Seg.start out ≤ Seg.start c ∧ Seg.end_ c ≤ Seg.end_ out.
Proof.
  intros Hc. unfold merge_segments.
  apply (sorted_by_elem key_lt seg_key) in Hc.
  destruct (sorted_by key_lt seg_key segs) as [|s0 rest];
    [by apply elem_of_nil in Hc|].
  apply (merge_fold_covers rest [] s0 c).
  apply elem_of_cons in Hc as [->|Hc]; [|by right].
  left. exists s0. split; [by left|]. unfold covers. repeat split; lia.
Qed.

(** ** On one chromosome *)

(** The order of the sort key on one chromosome: by [start], then by
    [end]. *)
Definition lex_le (x y : Seg.t T) : Prop :=
  Seg.start x < Seg.start y
  ∨ (Seg.start x = Seg.start y ∧ Seg.end_ x ≤ Seg.end_ y).

#[local] Instance lex_le_trans : Transitive lex_le.
Proof. intros x y z. unfold lex_le. lia. Qed.

Lemma key_lt_lex (x y : Seg.t T) :
  Seg.chr x = Seg.chr y →
  key_lt (seg_key y) (seg_key x) = false ↔ lex_le x y.
Proof.
  intros Hc. unfold key_lt, seg_key, lex_le. rewrite Hc, String.eqb_refl. simpl.
  destruct (Z.eqb_spec (Seg.start y) (Seg.start x)); simpl;
    rewrite Z.ltb_ge; lia.
Qed.

Lemma sorted_by_lex (segs : list (Seg.t T)) (c : string) :
  Forall (λ s, Seg.chr s = c) segs →
  StronglySorted lex_le (sorted_by key_lt seg_key segs).
Proof.
  intros Hc. apply sorted_by_sorted; [apply _|..];
    intros x y Hx%(proj1 (Forall_forall _ _) Hc) Hy%(proj1 (Forall_forall _ _) Hc).
  - intros Hlt. apply key_lt_lex; [congruence|].
    unfold key_lt, seg_key in *. rewrite Hx, Hy, String.eqb_refl in *.
    simpl in *.
    destruct (Z.eqb_spec (Seg.start y) (Seg.start x)),
             (Z.eqb_spec (Seg.start x) (Seg.start y)); simpl in *; lia.
  - intros Hge. apply key_lt_lex; [congruence|done].
Qed.

(** [x] is in its final place before [y]: in the order of the sort key,
    and ending before [y] starts. *)
Definition settled (x y : Seg.t T) : Prop :=
  lex_le x y ∧ Seg.end_ x < Seg.start y.

#[local] Instance settled_trans : Transitive settled.
Proof. intros x y z. unfold settled, lex_le. lia. Qed.

(** [s] with its [end] replaced. *)
Definition with_end (s : Seg.t T) (e : Z) : Seg.t T :=
  Seg.mk (Seg.chr s) (Seg.start s) e (Seg.n_windows s) (Seg.covered_bp s)
         (Seg.mean_ident s) (Seg.min_ident s) (Seg.n_gaps s)
         (Seg.frac_called s).

Lemma with_end_id (s : Seg.t T) : with_end s (Seg.end_ s) = s.
Proof. by destruct s. Qed.

(** A merged segment: a candidate [first] whose [end] has become that of
    a candidate [latest]. *)
Definition merged_from (l0 : list (Seg.t T)) (x : Seg.t T) : Prop :=
  ∃ first latest, first ∈ l0 ∧ latest ∈ l0 ∧
    Seg.end_ first ≤ Seg.end_ latest ∧ x = with_end first (Seg.end_ latest).

Local Abbreviation merge_out init last rest :=
  (let '(i, l) := foldl merge_body (init, last) rest in i ++ [l]).

Lemma merge_fold_settled c (l0 rest : list (Seg.t T)) init last :
  Forall (λ s, Seg.chr s = c) (last :: rest) →
  (∀ s, s ∈ rest → s ∈ l0) →
  StronglySorted lex_le rest →
  Forall (λ s, Seg.start last ≤ Seg.start s ∧
               (Seg.start s = Seg.start last →
                Seg.end_ last ≤ Seg.end_ s ∨ Seg.start last ≤ Seg.end_ last))
         rest →
  StronglySorted settled (init ++ [last]) →
  Forall (merged_from l0) (init ++ [last]) →
  StronglySorted settled (merge_out init last rest)
  ∧ Forall (merged_from l0) (merge_out init last rest).
Proof.
  revert init last.
  induction rest as [|s rest IH]; intros init last Hc Hin Hs Hlast Hb Hm;
    [done|].
  apply Forall_cons in Hc as [Hcl Hc]. pose proof Hc as [Hcs Hc']%Forall_cons.
  apply StronglySorted_inv in Hs as [Hs Hsr].
  apply Forall_cons in Hlast as [[Hls Hle] Hlast].
  apply StronglySorted_app in Hb as (Hil & Hi & _).
  apply Forall_app in Hm as [Hmi Hml]. apply Forall_inv in Hml.
  cbn [foldl]. unfold merge_body at 2 4.
  rewrite Hcs, Hcl, String.eqb_refl. simpl.
  destruct (Seg.start s <=? Seg.end_ last) eqn:Hmerge.
  - apply Z.leb_le in Hmerge. apply IH.
    + by constructor.
    + intros t Ht. apply Hin. by right.
    + done.
    + apply Forall_forall. intros t Ht. simpl.
      eapply Forall_forall in Hlast as [Hlt _]; [|exact Ht]. split; lia.
    + apply StronglySorted_app. split; [|split; [done|repeat constructor]].
      intros x y Hx ->%list_elem_of_singleton.
      destruct (Hil x last) as [Hxl Hxe]; [done|by left|].
      unfold settled, lex_le in *. simpl. lia.
    + apply Forall_app. split; [done|]. apply Forall_singleton.
      destruct Hml as (first & latest & Hf & Hl & Hfl & ->).
      simpl in *. rewrite Z.min_l by lia.
      destruct (Z.max_spec (Seg.end_ latest) (Seg.end_ s)) as [[? ->]|[? ->]].
      * exists first, s. split; [done|]. split; [apply Hin; by left|].
        split; [lia|]. unfold with_end. by rewrite Hcl.
      * exists first, latest. repeat split; try done.
        unfold with_end. by rewrite Hcl.
  - apply Z.leb_gt in Hmerge.
    assert (Hlast_s : settled last s).
    { split; [|done]. unfold lex_le.
      destruct (decide (Seg.start s = Seg.start last)) as [Heq|Hne]; [|lia].
      destruct (Hle Heq); lia. }
    apply IH.
    + done.
    + intros t Ht. apply Hin. by right.
    + done.
    + apply Forall_forall. intros t Ht.
      eapply Forall_forall in Hsr; [|exact Ht]. unfold lex_le in Hsr. split; lia.
    + apply StronglySorted_app. split; [|split; [|repeat constructor]].
      * intros x y Hx ->%list_elem_of_singleton.
        apply elem_of_app in Hx as [Hx| ->%list_elem_of_singleton]; [|done].
        etrans; [|exact Hlast_s]. apply Hil; [done|by left].
      * apply StronglySorted_app. split; [done|split; [done|repeat constructor]].
    + apply Forall_app. split.
      * apply Forall_app. split; [done|by apply Forall_singleton].
      * apply Forall_singleton. exists s, s.
        split; [apply Hin; by left|]. split; [apply Hin; by left|].
        split; [lia|by rewrite with_end_id].
Qed.

Lemma merge_segments_settled (segs : list (Seg.t T)) wins c :
  Forall (λ s, Seg.chr s = c) segs →
  StronglySorted settled (merge_segments segs wins)
  ∧ Forall (merged_from segs) (merge_segments segs wins).
Proof.
  intros Hc. unfold merge_segments.
  pose proof (sorted_by_lex segs c Hc) as Hs.
  assert (Hc' : Forall (λ s, Seg.chr s = c) (sorted_by key_lt seg_key segs)).
  { apply Forall_forall. intros x Hx%sorted_by_elem. by eapply Forall_forall in Hc. }
  assert (Hin : ∀ s, s ∈ sorted_by key_lt seg_key segs → s ∈ segs).
  { intros s. apply sorted_by_elem. }
  destruct (sorted_by key_lt seg_key segs) as [|s0 rest];
    [split; constructor|].
  apply StronglySorted_inv in Hs as [Hs Hs0].
  apply (merge_fold_settled c segs rest [] s0); try done.
  - intros s Hs'. apply Hin. by right.
  - eapply Forall_impl; [exact Hs0|]. intros t. unfold lex_le. lia.
  - repeat constructor.
  - apply Forall_singleton. exists s0, s0.
    split; [apply Hin; by left|]. split; [apply Hin; by left|].
    split; [lia|by rewrite with_end_id].
Qed.

(** X20.  The merge step does not recompute a segment: on one chromosome, a
    merged segment is a candidate of which only the [end] has changed,
    into the [end] of a candidate that ends no earlier.  Its [start],
    [n_windows], [covered_bp] and identity statistics are those of the
    first candidate of its group. *)
Theorem merge_keeps_first_candidate (segs : list (Seg.t T))
    (wins : list Win.t) (c : string) (out : Seg.t T) :
  Forall (λ s, Seg.chr s = c) segs →
  out ∈ merge_segments segs wins →
  ∃ first latest,
    first ∈ segs ∧ latest ∈ segs ∧ Seg.end_ first ≤ Seg.end_ latest ∧
    out = Seg.mk (Seg.chr first) (Seg.start first) (Seg.end_ latest)
                 (Seg.n_windows first) (Seg.covered_bp first)
                 (Seg.mean_ident first) (Seg.min_ident first)
                 (Seg.n_gaps first) (Seg.frac_called first).
Proof.
  intros Hc Hout. destruct (merge_segments_settled segs wins c Hc) as [_ Hm].
  by eapply Forall_forall in Hm.
Qed.

(** A list in the order of its sort is left as it is. *)
Lemma sorted_by_id {A K} (lt : K → K → bool) (key : A → K) (R : relation A)
    (l : list A) :
  StronglySorted R l →
  (∀ x y, x ∈ l → y ∈ l → R x y → lt (key y) (key x) = false) →
  sorted_by lt key l = l.
Proof.
  intros Hs HR. induction Hs as [|x l Hs IH Hx]; [done|]. simpl.
  rewrite IH by (intros y z Hy Hz; apply HR; by right).
  destruct l as [|y l]; [done|]. simpl.
  rewrite HR; [done|by left|by right; left|].
  by apply Forall_cons in Hx as [? _].
Qed.

Lemma merge_fold_id (rest : list (Seg.t T)) init last :
  StronglySorted settled (last :: rest) →
  (let '(i, l) := foldl merge_body (init, last) rest in i ++ [l])
  = init ++ last :: rest.
Proof.
  revert init last. induction rest as [|s rest IH]; intros init last Hs; [done|].
  apply StronglySorted_inv in Hs as [Hs Hl].
  apply Forall_cons in Hl as [[_ Hlt] _].
  cbn [foldl]. unfold merge_body at 2.
  assert ((Seg.start s <=? Seg.end_ last) = false) as -> by by apply Z.leb_gt.
  rewrite andb_false_r, IH by done. by rewrite <- app_assoc.
Qed.

(** X21.  On one chromosome the merge step is idempotent: merged segments are
    in the order of the sort and none meets the next, so that merging
    them again changes nothing. *)
Theorem merge_idempotent (segs : list (Seg.t T)) (wins : list Win.t)
    (c : string) :
  Forall (λ s, Seg.chr s = c) segs →
  merge_segments (merge_segments segs wins) wins = merge_segments segs wins.
Proof.
  intros Hc. destruct (merge_segments_settled segs wins c Hc) as [Hs Hm].
  assert (Hchr : Forall (λ s, Seg.chr s = c) (merge_segments segs wins)).
  { eapply Forall_impl; [exact Hm|].
    intros x (first & latest & Hf & _ & _ & ->). simpl.
    by eapply Forall_forall in Hc. }
  set (O := merge_segments segs wins) in *. unfold merge_segments at 1.
  rewrite (sorted_by_id key_lt seg_key settled O Hs).
  - destruct O as [|s0 rest]; [done|]. by rewrite merge_fold_id.
  - intros x y Hx Hy [Hle _]. apply key_lt_lex; [|done].
    eapply Forall_forall in Hx; [|exact Hchr].
    eapply Forall_forall in Hy; [|exact Hchr]. simpl in *. congruence.
Qed.
End merge_extra.

(** * The driver loop *)

Lemma filter_all {A} (P : A → Prop) `{∀ x, Decision (P x)} (l : list A) :
  Forall P l → filter P l = l.
Proof.
  induction 1 as [|x l Hx _ IH]; [done|].
  by rewrite filter_cons, decide_True, IH.
Qed.

Lemma filter_none {A} (P : A → Prop) `{∀ x, Decision (P x)} (l : list A) :
  Forall (λ x, ¬ P x) l → filter P l = [].
Proof.
  induction 1 as [|x l Hx _ IH]; [done|].
  by rewrite filter_cons, decide_False, IH.
Qed.

(** A loop whose body only appends to the state writes the concatenation
    of what it appends for each element. *)
Lemma for_each_concat {A B} (body : list B → A → option (list B))
    (rows : A → option (list B)) (l : list A) :
  (∀ w x, body w x = (w ++.) <$> rows x) →
  ∀ w, for_each body w l = (λ rs, w ++ concat rs) <$> mapM rows l.
Proof.
  intros Hbody. induction l as [|x l IH]; intros w; simpl.
  - by rewrite app_nil_r.
  - rewrite Hbody. destruct (rows x) as [r|]; simpl; [|done].
    rewrite IH. destruct (mapM rows l); simpl; [|done]. by rewrite app_assoc.
Qed.

Lemma track_entries_elem {T} (tracks : list (PairTracks T)) p c
    (e : TrackEntry T) :
  (p, c, e) ∈ track_entries tracks
  ↔ ∃ cts track, (p, cts) ∈ tracks ∧ (c, track) ∈ cts ∧ e ∈ track.
Proof.
  unfold track_entries, chr_entries. rewrite list_elem_of_bind. split.
  - intros ([p' cts] & Hin & Hpt). simpl in Hin.
    apply list_elem_of_fmap in Hin as ([c' e'] & [= -> -> ->] & Hce).
    apply list_elem_of_bind in Hce as ([c'' track] & Hin & Hct). simpl in Hin.
    apply list_elem_of_fmap in Hin as (e'' & [= -> ->] & He).
    by exists cts, track.
  - intros (cts & track & Hpt & Hct & He). exists (p, cts). split; [|done].
    simpl. apply list_elem_of_fmap. exists (c, e). split; [done|].
    apply list_elem_of_bind. exists (c, track). split; [|done].
    simpl. apply list_elem_of_fmap. by exists e.
Qed.

Section driver.
Context {T : Type} `{Number T}.
Variables (fmt6 fmt3 : T → string).

(** Neither caller raises, whatever the track, the windows and the
    configuration. *)
Lemma call_segments_total (args : Args.t T) (track : list (TrackEntry T))
    (wins : list Win.t) :
  is_Some (call_segments args track wins).
Proof.
  unfold call_segments. destruct (Args.mode args).
  - destruct (rle_result track wins (Args.min_identity args) (Args.max_gap args)
                (Args.min_windows args) (Args.min_length_bp args)
                (Args.missing_as_gap args) (Args.drop_tolerance args)
                (λ _ _, True)) as (st & segs & -> & _); done.
  - destruct (seed_extend_spec track wins (Args.seed_threshold args)
                (Args.seed_k args) (Args.extend_threshold args) (Args.xdrop args)
                (Args.reward args) (Args.penalty_bad args)
                (Args.penalty_miss args) (Args.min_windows args)
                (Args.min_length_bp args) (Args.missing_as_gap args))
      as (segs & -> & _); done.
Qed.

(** The lines written for one chromosome of a pair, and for a pair. *)
Definition chr_rows (args : Args.t T) (wins_by_chr : gmap string (list Win.t))
    (a b : string) (ct : ChrTracks T) : option (list Out.t) :=
  let '(chr_, track) := ct in
  wins ← wins_by_chr !! chr_;
  segs ← call_segments args track wins;
  Some (fmap (M := list) (out_row fmt6 fmt3 args chr_ a b) segs).

Definition pair_rows (args : Args.t T) (wins_by_chr : gmap string (list Win.t))
    (pair_filter : option (gset (string * string))) (pt : PairTracks T)
    : option (list Out.t) :=
  if skip_pair pair_filter pt.1.1 pt.1.2 then Some []
  else @concat Out.t <$> mapM (chr_rows args wins_by_chr pt.1.1 pt.1.2) pt.2.

Lemma chr_body_appends args wins_by_chr a b w ct :
  chr_body fmt6 fmt3 args wins_by_chr a b w ct
  = (w ++.) <$> chr_rows args wins_by_chr a b ct.
Proof.
  unfold chr_rows, chr_body. destruct ct as [c track]. simpl.
  destruct (wins_by_chr !! c) as [wins|]; simpl; [|done].
  by destruct (call_segments args track wins).
Qed.

Lemma pair_body_appends args wins_by_chr pair_filter w pt :
  pair_body fmt6 fmt3 args wins_by_chr pair_filter w pt
  = (w ++.) <$> pair_rows args wins_by_chr pair_filter pt.
Proof.
  unfold pair_body, pair_rows. destruct pt as [[a b] cts]. simpl.
  destruct (skip_pair pair_filter a b); simpl; [by rewrite app_nil_r|].
  rewrite (for_each_concat _ (chr_rows args wins_by_chr a b))
    by (intros; apply chr_body_appends).
  by destruct (mapM _ cts).
Qed.

(** [main] after the parsing of the table, as the concatenation of the
    lines of the pairs. *)
Lemma main_rows_concat (args : Args.t T) (pairs : option (list string))
    (rows : list (Row.t T)) :
  rows ≠ [] →
  main_rows fmt6 fmt3 args pairs rows
  = of_option (tracks ← build_pair_tracks rows (build_windows rows).2;
               pair_filter ← load_pairs pairs;
               @concat Out.t <$> mapM (pair_rows args (build_windows rows).1
                                  pair_filter) tracks).
Proof.
  intros Hrows. unfold main_rows. destruct rows as [|r rows]; [done|].
  destruct (build_windows (r :: rows)) as [wins_by_chr index_by_chr]. simpl.
  destruct (build_pair_tracks _ _) as [tracks|]; simpl; [|done].
  destruct (load_pairs pairs) as [pair_filter|]; simpl; [|done].
  rewrite (for_each_concat _ (pair_rows args wins_by_chr pair_filter))
    by (intros; apply pair_body_appends).
  by destruct (mapM _ tracks).
Qed.

(** ** No uncaught exception *)

(** Every line of the pairs file is blank, a comment, or holds a TAB. *)
Definition pairs_ok (pairs : option (list string)) : Prop :=
  match pairs with
  | None => True
  | Some lines =>
      Forall (λ line, blank line = true ∨ is_comment line = true
                      ∨ has_tab (rstrip_nl line) = true) lines
  end.

Lemma load_pairs_total (pairs : option (list string)) :
  pairs_ok pairs → is_Some (load_pairs pairs).
Proof.
  destruct pairs as [lines|]; [|done]. simpl. intros Hlines.
  assert (∀ pf, is_Some (for_each pairs_body pf lines)) as Hloop.
  { induction Hlines as [|line lines Hline _ IH]; intros pf; [done|]. simpl.
    destruct (pairs_body pf line) as [pf'|] eqn:Hb; [apply IH|].
    apply pairs_body_None in Hb as (? & ? & ?).
    destruct Hline as [?|[?|?]]; congruence. }
  destruct (Hloop ∅) as [pf ->]. done.
Qed.

Lemma chr_rows_total args (rows : list (Row.t T)) a b (ct : ChrTracks T) :
  chr_track_ok (build_windows rows).2 ct →
  is_Some (chr_rows args (build_windows rows).1 a b ct).
Proof.
  intros [_ [index Hindex]]. unfold chr_rows. destruct ct as [c track].
  rewrite build_windows_index in Hindex. cbn [fst] in Hindex.
  destruct ((build_windows rows).1 !! c) as [wins|]; [|done].
  cbn [mbind option_bind].
  destruct (call_segments_total args track wins) as [segs ->]. done.
Qed.

Lemma main_rows_total (args : Args.t T) (pairs : option (list string))
    (rows : list (Row.t T)) :
  rows ≠ [] → pairs_ok pairs →
  ∃ out, main_rows fmt6 fmt3 args pairs rows = Ok out.
Proof.
  intros Hrows Hpairs. rewrite main_rows_concat by done.
  destruct (build_pair_tracks_placed rows) as (tracks & _ & Hrun & _).
  rewrite Hrun. cbn [mbind option_bind].
  destruct (load_pairs_total pairs Hpairs) as [pair_filter ->].
  cbn [mbind option_bind].
  destruct (build_pair_tracks_ok _ _ _ Hrun) as [_ Hok].
  destruct (mapM_is_Some_2
              (pair_rows args (build_windows rows).1 pair_filter) tracks)
    as [rs ->]; [|by eexists].
  eapply Forall_impl; [exact Hok|]. intros [[a b] cts] (_ & _ & _ & Hcts).
  unfold compose, pair_rows. cbn [fst snd] in *.
  destruct (skip_pair pair_filter a b); [done|].
  destruct (mapM_is_Some_2 (chr_rows args (build_windows rows).1 a b) cts)
    as [rs ->]; [|done].
  eapply Forall_impl; [exact Hcts|]. intros ct Hct. by apply chr_rows_total.
Qed.

(** A line that gets through the [try] has a cell for CHR, group.a and
    group.b. *)
Definition labelled (int_ : string → option Z) (float_ : string → option T)
    (identity_col : string) (r : gmap string string) : Prop :=
  is_Some (parse_row int_ float_ identity_col r) →
  is_Some (r !! "CHR") ∧ is_Some (r !! "group.a") ∧ is_Some (r !! "group.b").

Lemma to_row_labelled (int_ : string → option Z) (float_ : string → option T)
    (identity_col : string) (records : list (gmap string string)) :
  Forall (labelled int_ float_ identity_col) records →
  Forall (λ p, no_group p = false ∧ is_Some (to_row p))
         (omap (parse_row int_ float_ identity_col) records).
Proof.
  intros Hrecords. apply Forall_forall. intros p (r & Hr & Hp)%list_elem_of_omap.
  eapply Forall_forall in Hrecords; [|exact Hr].
  destruct Hrecords as ([c Hc] & [a Ha] & [b Hb]); [by rewrite Hp|].
  apply parse_row_cells in Hp as (_ & Hpc & Hpa & Hpb).
  rewrite Hc in Hpc. rewrite Ha in Hpa. rewrite Hb in Hpb. split.
  - apply bool_decide_eq_false. rewrite Hpa, Hpb. by intros [?|?].
  - unfold to_row. by rewrite Hpc, Hpa, Hpb.
Qed.

(** X22.  On a table that has the required columns and a line that gets through
    the [try], where every such line has a cell for CHR, group.a and
    group.b, and with a pairs file (if any) whose lines are blank, comments
    or hold a TAB, [main] ends normally: no lookup of a window, of an index
    or of a chromosome fails, in either mode and for any configuration. *)
Theorem main_never_raises (int_ : string → option Z)
    (float_ : string → option T) (args : Args.t T)
    (pairs : option (list string)) (fieldnames : option (list string))
    (records : list (gmap string string)) :
  let identity_col := Args.identity_col args in
  columns_superset (default [] fieldnames) (required_columns identity_col) →
  Exists (λ r, is_Some (parse_row int_ float_ identity_col r)) records →
  Forall (labelled int_ float_ identity_col) records →
  pairs_ok pairs →
  ∃ out, main fmt6 fmt3 int_ float_ args pairs fieldnames records
         = Some (Ok out).
Proof.
  simpl. intros Hcols Hsome Hlabels Hpairs. unfold main, parse_table.
  assert (Hhead : default [] fieldnames ≠ []).
  { intros Hnil. rewrite Hnil in Hcols.
    specialize (Hcols "REGION" ltac:(by left)). by apply elem_of_nil in Hcols. }
  apply req_subseteq in Hcols. rewrite (bool_decide_eq_true_2 _ Hcols).
  destruct fieldnames as [[|c header]|]; [done| |done]. simpl.
  apply to_row_labelled in Hlabels.
  destruct (omap _ records) as [|p parsed] eqn:Hparsed.
  { apply omap_None_nil in Hparsed. apply Exists_exists in Hsome as (r & Hr & Hp).
    eapply Forall_forall in Hparsed; [|exact Hr]. rewrite Hparsed in Hp.
    by destruct Hp. }
  assert (existsb no_group (p :: parsed) = false) as ->.
  { apply not_true_is_false. intros (q & Hq & Hno)%existsb_exists.
    apply list_elem_of_In in Hq. eapply Forall_forall in Hlabels; [|exact Hq].
    destruct Hlabels. congruence. }
  destruct (mapM_is_Some_2 to_row (p :: parsed)) as [rows Hrows].
  { eapply Forall_impl; [exact Hlabels|]. by intros q [_ ?]. }
  rewrite Hrows. simpl.
  destruct (main_rows_total args pairs rows) as [out ->]; [|done|by exists out].
  intros ->. by apply length_mapM in Hrows.
Qed.

(** ** The lines of a pair *)

Definition line_of (args : Args.t T) (a b c : string) (o : Out.t) : Prop :=
  Out.hap1 o = a ∧ Out.hap2 o = b ∧ Out.chr o = c
  ∧ Out.mode o = Args.mode args.

Lemma chr_rows_lines args wins_by_chr a b (ct : ChrTracks T) out :
  chr_rows args wins_by_chr a b ct = Some out →
  Forall (line_of args a b ct.1) out.
Proof.
  unfold chr_rows. destruct ct as [c track].
  destruct (wins_by_chr !! c) as [wins|]; [|done]. simpl.
  destruct (call_segments args track wins) as [segs|]; [|done]. simpl.
  intros [= <-]. apply Forall_fmap, Forall_forall. by intros s _.
Qed.

Lemma pair_rows_lines args wins_by_chr pair_filter (pt : PairTracks T) out :
  pair_rows args wins_by_chr pair_filter pt = Some out →
  Forall (λ o, ∃ ct, ct ∈ pt.2 ∧ line_of args pt.1.1 pt.1.2 ct.1 o) out.
Proof.
  unfold pair_rows. destruct (skip_pair _ _ _); [by intros [= <-]|].
  destruct (mapM _ pt.2) as [rs|] eqn:Hrs; [|done]. simpl. intros [= <-].
  apply mapM_Some in Hrs. induction Hrs as [|ct r cts rs Hct _ IH]; [done|].
  simpl. apply Forall_app. split.
  - apply chr_rows_lines in Hct. eapply Forall_impl; [exact Hct|].
    intros o Ho. exists ct. split; [by left|done].
  - eapply Forall_impl; [exact IH|]. intros o (ct' & Hin & Ho).
    exists ct'. split; [by right|done].
Qed.

Lemma concat_Forall {A} (P : A → Prop) (ls : list (list A)) :
  Forall (Forall P) ls → Forall P (concat ls).
Proof.
  induction 1 as [|l ls Hl _ IH]; [done|]. simpl. by apply Forall_app.
Qed.

(** X23.  Every line [main] writes is for a pair and a chromosome of the table:
    its HAP1 and HAP2 are the two labels of some row, in non-decreasing
    order, its CHR is the chromosome of that row, and its MODE is the mode
    of the run. *)
Theorem lines_come_from_rows (args : Args.t T) (pairs : option (list string))
    (rows : list (Row.t T)) (out : list Out.t) (o : Out.t) :
  main_rows fmt6 fmt3 args pairs rows = Ok out → o ∈ out →
  String.leb (Out.hap1 o) (Out.hap2 o) = true ∧
  Out.mode o = Args.mode args ∧
  ∃ r, r ∈ rows ∧ Row.chr r = Out.chr o ∧
       pair_key (Row.a r) (Row.b r) = (Out.hap1 o, Out.hap2 o).
Proof.
  intros Hmain Ho.
  assert (rows ≠ []) as Hrows by (by intros ->).
  rewrite main_rows_concat in Hmain by done.
  destruct (build_pair_tracks_placed rows)
    as (tracks & entries & Hrun & Hplaced & Hperm).
  rewrite Hrun in Hmain. cbn [mbind option_bind] in Hmain.
  destruct (load_pairs pairs) as [pair_filter|]; [|done].
  cbn [mbind option_bind] in Hmain.
  destruct (mapM _ tracks) as [rs|] eqn:Hrs; [|done]. simpl in Hmain.
  injection Hmain as <-.
  destruct (build_pair_tracks_ok _ _ _ Hrun) as [_ Hok].
  apply mapM_Some in Hrs.
  assert (Hline : ∃ pt ct, pt ∈ tracks ∧ ct ∈ pt.2
                           ∧ line_of args pt.1.1 pt.1.2 ct.1 o).
  { clear Hok Hperm Hrun. induction Hrs as [|pt r tracks rs Hpt _ IH];
      [by apply elem_of_nil in Ho|].
    simpl in Ho. apply elem_of_app in Ho as [Ho|Ho].
    - apply pair_rows_lines in Hpt. eapply Forall_forall in Hpt; [|exact Ho].
      destruct Hpt as (ct & Hct & Hl). exists pt, ct. split; [by left|done].
    - destruct (IH Ho) as (pt' & ct & Hin & Hct & Hl).
      exists pt', ct. split; [by right|done]. }
  destruct Hline as ([[a b] cts] & [c track] & Hpt & Hct & Ha & Hb & Hc & Hm).
  simpl in *. rewrite Ha, Hb, Hc.
  eapply Forall_forall in Hok as (Hab & _ & _ & Hcts); [|exact Hpt].
  simpl in *. split; [done|]. split; [done|].
  eapply Forall_forall in Hcts as [Hne _]; [|exact Hct]. simpl in Hne.
  destruct track as [|e track]; [done|].
  assert (((a, b), c, e) ∈ entries) as He.
  { rewrite <- Hperm. apply track_entries_elem.
    exists cts, (e :: track). repeat split; try done. by left. }
  apply list_elem_of_lookup in He as [i He].
  destruct (Forall2_lookup_r _ _ _ _ _ Hplaced He)
    as (r & Hr & wins & idx & w & _ & _ & _ & _ & Heq).
  injection Heq as Hkey -> _. exists r.
  split; [by eapply list_elem_of_lookup_2|]. done.
Qed.

(** ** The allow-list *)

(** X24.  With an allow-list that is not empty, [main] writes the lines it
    writes without an allow-list for the pairs of the list, in the same
    order, and no other line. *)
Theorem allow_list_restricts (args : Args.t T) (lines : list string)
    (pair_filter : gset (string * string)) (rows : list (Row.t T))
    (out : list Out.t) :
  load_pairs (Some lines) = Some (Some pair_filter) → pair_filter ≠ ∅ →
  main_rows fmt6 fmt3 args None rows = Ok out →
  main_rows fmt6 fmt3 args (Some lines) rows
  = Ok (filter (λ o, (Out.hap1 o, Out.hap2 o) ∈ pair_filter) out).
Proof.
  intros Hload Hne Hmain.
  assert (rows ≠ []) as Hrows by (by intros ->).
  rewrite main_rows_concat in Hmain |- * by done.
  destruct (build_pair_tracks _ _) as [tracks|] eqn:Hrun; [|done].
  rewrite Hload. cbn [mbind option_bind load_pairs] in *.
  destruct (mapM _ tracks) as [rs|] eqn:Hrs; [|done]. simpl in Hmain.
  injection Hmain as <-.
  destruct (build_pair_tracks_ok _ _ _ Hrun) as [_ Hok].
  apply mapM_Some in Hrs.
  set (P := λ o, (Out.hap1 o, Out.hap2 o) ∈ pair_filter).
  assert (∃ rs', mapM (pair_rows args (build_windows rows).1 (Some pair_filter))
                      tracks = Some rs'
                 ∧ concat rs' = filter P (concat rs)) as (rs' & -> & <-);
    [|done].
  clear Hrun. induction Hrs as [|pt r tracks rs Hpt _ IH]; [by exists []|].
  apply Forall_cons in Hok as [(Hab & _) Hok].
  destruct (IH Hok) as (rs' & Hrs' & Hconcat).
  pose proof (pair_rows_lines _ _ _ _ _ Hpt) as Hlines.
  assert (Hkey : pair_key pt.1.1 pt.1.2 = pt.1).
  { rewrite pair_key_fixed by done. by destruct pt as [[a b] cts]. }
  assert (Hall : Forall (λ o, (Out.hap1 o, Out.hap2 o) = pt.1) r).
  { eapply Forall_impl; [exact Hlines|].
    intros o (ct & _ & -> & -> & _). by destruct pt as [[a b] cts]. }
  assert (Hpt' : pair_rows args (build_windows rows).1 (Some pair_filter) pt
                 = Some (if decide (pt.1 ∈ pair_filter) then r else [])).
  { unfold pair_rows in *. unfold skip_pair in *.
    rewrite Hkey, (bool_decide_eq_false_2 _ Hne). cbn [negb andb] in *.
    destruct (decide (pt.1 ∈ pair_filter)) as [Hin|Hnin].
    - by rewrite (bool_decide_eq_true_2 _ Hin).
    - by rewrite (bool_decide_eq_false_2 _ Hnin). }
  cbn [mapM]. rewrite Hpt', Hrs'. cbn [mbind option_bind mret option_ret].
  eexists. split; [done|]. cbn [concat]. rewrite filter_app, <- Hconcat.
  f_equal. destruct (decide (pt.1 ∈ pair_filter)) as [Hin|Hnin].
  - rewrite filter_all; [done|].
    eapply Forall_impl; [exact Hall|]. intros o Ho. unfold P. by rewrite Ho.
  - rewrite filter_none; [done|].
    eapply Forall_impl; [exact Hall|]. intros o Ho. unfold P. by rewrite Ho.
Qed.
End driver.

(** * Coverage and coordinates *)

Section tiling.
Variable wins : list Win.t.

(** The windows tile the chromosome: each has the length of its range,
    and each starts where the one before it ends. *)
Definition tiled : Prop :=
  ∀ i w, wins !! i = Some w →
    Win.length w = Win.end_ w - Win.start w ∧
    ∀ w', wins !! S i = Some w' → Win.start w' = Win.end_ w.

Lemma covered_tiled (s e : nat) ws we :
  tiled → (s ≤ e)%nat → wins !! s = Some ws → wins !! e = Some we →
  covered wins s e = Win.end_ we - Win.start ws.
Proof.
  intros Htiled Hse Hs He. rewrite covered_pre by lia.
  revert we He. induction Hse as [|e Hse IH]; intros we He.
  - replace (s + 1)%nat with (S s) by lia. rewrite pre_S. unfold len_at.
    rewrite Hs in He. injection He as <-. rewrite Hs. simpl.
    destruct (Htiled s ws Hs) as [-> _]. lia.
  - destruct (lookup_lt_is_Some_2 wins e) as [w Hw].
    { apply lookup_lt_Some in He. lia. }
    specialize (IH w Hw). replace (S e + 1)%nat with (S (e + 1)) by lia.
    rewrite pre_S. replace (e + 1)%nat with (S e) in * by lia.
    unfold len_at. rewrite He. simpl.
    destruct (Htiled (S e) we He) as [-> _].
    destruct (Htiled e w Hw) as [_ Hnext]. rewrite (Hnext we He). lia.
Qed.
End tiling.

Section coverage_of_segments.
Context {T : Type} `{Number T}.
Variables (track_list : list (TrackEntry T)) (wins : list Win.t).
Hypothesis wins_tiled : tiled wins.

(** X25.  On windows that tile the chromosome, a segment of the RLE caller
    covers its whole range, [covered_bp = end - start]; a segment of the
    seed-and-extend caller, whose range the merge step may have widened
    without recomputing [covered_bp], covers at most its range. *)
Theorem covered_bp_of_tiling
    (min_id : T) (max_gap min_windows min_len_bp : Z)
    (treat_missing_as_gap : bool) (drop_tolerance : T)
    (seed_thr : T) (seed_k : Z) (ext_thr xdrop reward pen_bad pen_miss : T) :
  (∃ segs, rle_segments_for_pair track_list wins min_id max_gap min_windows
             min_len_bp treat_missing_as_gap drop_tolerance = Some segs
           ∧ Forall (λ seg, Seg.covered_bp seg
                            = Seg.end_ seg - Seg.start seg) segs) ∧
  (∃ segs, seed_extend_segments_for_pair track_list wins seed_thr seed_k
             ext_thr xdrop reward pen_bad pen_miss min_windows min_len_bp
             treat_missing_as_gap = Some segs
           ∧ Forall (λ seg, Seg.covered_bp seg
                            ≤ Seg.end_ seg - Seg.start seg) segs).
Proof.
  split.
  - destruct (rle_spans_aux track_list wins min_id max_gap min_windows
                min_len_bp treat_missing_as_gap drop_tolerance)
      as (segs & spans & Hrun & Hsegs & _).
    exists segs. split; [done|]. clear Hrun.
    induction Hsegs as [|seg se segs spans Hseg _ IH]; constructor; [|done].
    destruct Hseg as [(Hle & ws & we & Hs & He & _ & -> & -> & _ & ->) _].
    by apply covered_tiled.
  - destruct (seed_extend_spec track_list wins seed_thr seed_k ext_thr xdrop
                reward pen_bad pen_miss min_windows min_len_bp
                treat_missing_as_gap) as (segs & Hrun & Hsegs).
    exists segs. split; [done|]. eapply Forall_impl; [exact Hsegs|].
    intros seg (c & (l & r & se & Hse & Hl & Hr & Hsum & _) & Hw).
    destruct Hse as ([Hse _] & _).
    unfold summarize_segment in Hsum.
    destruct (wins !! l) as [wl|] eqn:Hwl; [|done].
    destruct (wins !! r) as [wr|] eqn:Hwr; [|done].
    simpl in Hsum. injection Hsum as <-.
    destruct Hw as (_ & Hstart & Hend & _ & -> & _). simpl in *.
    rewrite (covered_tiled wins l r wl wr) by (done || lia). lia.
Qed.
End coverage_of_segments.

(** * Tracks without a missing window *)

Lemma for_each_ext_in {S A} (f g : S → A → option S) (l : list A) (st : S) :
  (∀ st x, x ∈ l → f st x = g st x) → for_each f st l = for_each g st l.
Proof.
  revert st. induction l as [|x l IH]; intros st Hfg; simpl; [done|].
  rewrite Hfg by by left. destruct (g st x); simpl; [|done].
  apply IH. intros st' y Hy. apply Hfg. by right.
Qed.

Section complete_track.
Context {T : Type} `{Number T}.
Variables (track_list : list (TrackEntry T)) (wins : list Win.t).

(** The track has an entry for every window of the chromosome. *)
Definition complete : Prop :=
  ∀ i, (i < length wins)%nat → is_Some (ident_by_idx_of track_list !! i).

Lemma xdrop_extend_flag (ext_thr xdrop reward pen_bad pen_miss : T)
    (ks : list nat) (score best_score : T) (best : nat) :
  (∀ k, k ∈ ks → is_Some (ident_by_idx_of track_list !! k)) →
  xdrop_extend track_list ext_thr xdrop reward pen_bad pen_miss true
    ks score best_score best
  = xdrop_extend track_list ext_thr xdrop reward pen_bad pen_miss false
      ks score best_score best.
Proof.
  revert score best_score best.
  induction ks as [|k ks IH]; intros score best_score best Hks; [done|].
  cbn [xdrop_extend].
  destruct (Hks k) as [x ->]; [by left|].
  assert (IH' : ∀ sc bs b,
            xdrop_extend track_list ext_thr xdrop reward pen_bad pen_miss true
              ks sc bs b
            = xdrop_extend track_list ext_thr xdrop reward pen_bad pen_miss
                false ks sc bs b).
  { intros sc bs b. apply IH. intros k' Hk'. apply Hks. by right. }
  cbv zeta. destruct (ngt _ best_score); cbv beta iota;
    destruct (ngt _ xdrop); done.
Qed.

(** X26.  For a pair that has every window of the chromosome, the option
    [--missing-as-gap] changes nothing in what either caller returns. *)
Theorem missing_as_gap_needs_missing
    (min_id : T) (max_gap min_windows min_len_bp : Z) (drop_tolerance : T)
    (seed_thr : T) (seed_k : Z) (ext_thr xdrop reward pen_bad pen_miss : T) :
  complete →
  rle_segments_for_pair track_list wins min_id max_gap min_windows min_len_bp
    true drop_tolerance
  = rle_segments_for_pair track_list wins min_id max_gap min_windows
      min_len_bp false drop_tolerance
  ∧ seed_extend_segments_for_pair track_list wins seed_thr seed_k ext_thr
      xdrop reward pen_bad pen_miss min_windows min_len_bp true
    = seed_extend_segments_for_pair track_list wins seed_thr seed_k ext_thr
        xdrop reward pen_bad pen_miss min_windows min_len_bp false.
Proof.
  intros Hall. split.
  - unfold rle_segments_for_pair, rle_loop.
    rewrite (for_each_ext_in
               (rle_body track_list wins min_id max_gap min_windows min_len_bp
                  true drop_tolerance)
               (rle_body track_list wins min_id max_gap min_windows min_len_bp
                  false drop_tolerance)); [done|].
    intros st i Hi%elem_of_seq. unfold rle_body.
    destruct (Hall i) as [x ->]; [lia|done].
  - unfold seed_extend_segments_for_pair, seed_candidates.
    destruct (find_seeds_spec track_list wins seed_thr seed_k
                (S (length wins)) 0 []) as (seeds & -> & Hseeds);
      [lia|constructor|].
    cbn [mbind option_bind].
    rewrite (for_each_ext_in
               (seed_body track_list wins ext_thr xdrop reward pen_bad pen_miss
                  min_windows min_len_bp true)
               (seed_body track_list wins ext_thr xdrop reward pen_bad pen_miss
                  min_windows min_len_bp false)); [done|].
    intros [used segs] [s e] Hse.
    eapply Forall_forall in Hseeds as ([Hs He] & _); [|exact Hse].
    simpl in Hs, He. unfold seed_body, extend_left, extend_right.
    rewrite !(xdrop_extend_flag ext_thr xdrop reward pen_bad pen_miss); [done|..].
    + intros k Hk%elem_of_seq. apply Hall. lia.
    + intros k Hk%elem_of_reverse%elem_of_seq. apply Hall. lia.
Qed.
End complete_track.

(** * The theorems above on small inputs *)

(** Four windows of pair B/A, the last below every threshold. *)
Definition rows_BA : list (Row.t Q) :=
  toy_rows "B" "A" [0.9998; 0.9998; 0.9998; 0.9950]%Q.

(** Two windows below every threshold. *)
Definition low_Q : list Q := [0.9950; 0.9900]%Q.

(** A line of the pairs file for the pair A/B, and one without a TAB. *)
Definition line_AB : string := "A" +:+ tab +:+ "B" +:+ nl.
Definition line_A : string := "A" +:+ nl.

(** No formatting of the statistics. *)
Definition no_fmt : Q → string := λ _, EmptyString.

Lemma pairs_line_parsed_witness :
  blank line_AB = false ∧ is_comment line_AB = false ∧
  has_tab "A" = false ∧ has_tab "B" = false ∧
  rstrip_nl line_AB = "A" +:+ tab +:+ "B" +:+ "" ∧
  pairs_body ∅ line_AB = Some ({[ pair_key "A" "B" ]} ∪ ∅).
Proof.
  repeat (split; [reflexivity|]).
  exact (pairs_line_parsed ∅ line_AB "A" "B" None eq_refl eq_refl eq_refl
           eq_refl eq_refl).
Defined.

Lemma pairs_line_without_tab_raises_witness :
  line_A ∈ [line_AB; line_A] ∧
  blank line_A = false ∧ is_comment line_A = false ∧
  has_tab (rstrip_nl line_A) = false ∧ rows_BA ≠ [] ∧
  load_pairs (Some [line_AB; line_A]) = None ∧
  main_rows no_fmt no_fmt (default_args_Q mode_seed) (Some [line_AB; line_A])
    rows_BA = Raised.
Proof.
  assert (Hin : line_A ∈ [line_AB; line_A]) by (right; left).
  assert (Hrows : rows_BA ≠ []) by discriminate.
  split; [exact Hin|]. repeat (split; [reflexivity|]). split; [exact Hrows|].
  exact (pairs_line_without_tab_raises no_fmt no_fmt (default_args_Q mode_seed)
           [line_AB; line_A] line_A rows_BA Hin eq_refl eq_refl eq_refl Hrows).
Defined.

Lemma window_index_round_trip_witness :
  let wins := toy_wins 4 in
  (build_windows rows_BA).1 !! "chr1" = Some wins ∧
  ∃ index, (build_windows rows_BA).2 !! "chr1" = Some index ∧
    (∀ s e i, index !! (s, e) = Some i →
       ∃ w, wins !! i = Some w ∧ Win.start w = s ∧ Win.end_ w = e) ∧
    (∀ i w, wins !! i = Some w →
       ∃ j w', index !! (Win.start w, Win.end_ w) = Some j ∧ (i ≤ j)%nat ∧
               wins !! j = Some w' ∧ Win.start w' = Win.start w ∧
               Win.end_ w' = Win.end_ w) ∧
    (consistent_lengths rows_BA →
     ∀ i w, wins !! i = Some w →
            index !! (Win.start w, Win.end_ w) = Some i).
Proof.
  cbv zeta.
  assert (Hw : (build_windows rows_BA).1 !! "chr1" = Some (toy_wins 4))
    by (vm_compute; reflexivity).
  split; [exact Hw|].
  exact (window_index_round_trip rows_BA "chr1" (toy_wins 4) Hw).
Defined.

Lemma tracks_well_formed_witness :
  let index_by_chr := (build_windows rows_BA).2 in
  let tracks := [(("A", "B"), [("chr1", toy_track [0.9998; 0.9998; 0.9998;
                                                   0.9950]%Q)])] in
  build_pair_tracks rows_BA index_by_chr = Some tracks ∧
  NoDup tracks.*1 ∧
  ∀ a b cts, ((a, b), cts) ∈ tracks →
    String.leb a b = true ∧ NoDup cts.*1 ∧ cts ≠ [] ∧
    ∀ c track, (c, track) ∈ cts →
      track ≠ [] ∧ is_Some (index_by_chr !! c) ∧
      StronglySorted (λ e1 e2 : TrackEntry Q, (e1.1.1 ≤ e2.1.1)%nat) track.
Proof.
  cbv zeta.
  assert (Hrun : build_pair_tracks rows_BA (build_windows rows_BA).2
                 = Some [(("A", "B"),
                          [("chr1", toy_track [0.9998; 0.9998; 0.9998;
                                               0.9950]%Q)])])
    by (vm_compute; reflexivity).
  split; [exact Hrun|].
  exact (tracks_well_formed rows_BA (build_windows rows_BA).2 _ Hrun).
Defined.

Lemma low_Q_below (i : nat) (x : Q) :
  (i < length (toy_wins 2))%nat →
  ident_by_idx_of (toy_track low_Q) !! i = Some x →
  nge x 0.9995%Q = false.
Proof.
  destruct i as [|[|i]]; simpl; intros Hi Hx; [..|lia];
    vm_compute in Hx; injection Hx as <-; reflexivity.
Defined.

Lemma rle_nothing_qualifies_witness :
  (∀ i x, (i < length (toy_wins 2))%nat →
          ident_by_idx_of (toy_track low_Q) !! i = Some x →
          qualifies 0.9995%Q 0%Q x = false) ∧
  rle_segments_for_pair (toy_track low_Q) (toy_wins 2) 0.9995%Q 1 1 0 true 0%Q
  = Some [].
Proof.
  assert (Hlow : ∀ i x, (i < length (toy_wins 2))%nat →
            ident_by_idx_of (toy_track low_Q) !! i = Some x →
            qualifies 0.9995%Q 0%Q x = false).
  { intros i x Hi Hx. unfold qualifies.
    rewrite (low_Q_below i x Hi Hx). reflexivity. }
  split; [exact Hlow|].
  exact (rle_nothing_qualifies (toy_track low_Q) (toy_wins 2) 0.9995%Q 1 1 0
           true 0%Q Hlow).
Defined.

Lemma rle_gaps_counted_witness :
  0 ≤ 1 ∧
  ∃ segs,
    rle_segments_for_pair gapped_Q (toy_wins 6) 0.9990%Q 1 1 5000 true 0%Q
    = Some segs ∧
    Forall (gaps_ok gapped_Q (toy_wins 6) 1) segs.
Proof.
  assert (Hgap : 0 ≤ 1) by lia.
  split; [exact Hgap|].
  exact (rle_gaps_counted gapped_Q (toy_wins 6) 0.9990%Q 1 1 5000 true 0%Q Hgap).
Defined.

Lemma rle_size_filter_witness :
  1 ≤ 3 ∧ 5000 ≤ 20000 ∧
  rle_segments_for_pair (toy_track toy1_Q) (toy_wins 10) 0.9995%Q 1 3 20000
    false 0%Q
  = filter (size_ok 3 20000)
    <$> rle_segments_for_pair (toy_track toy1_Q) (toy_wins 10) 0.9995%Q 1 1
          5000 false 0%Q.
Proof.
  assert (Hw : 1 ≤ 3) by lia. assert (Hl : 5000 ≤ 20000) by lia.
  split; [exact Hw|]. split; [exact Hl|].
  exact (rle_size_filter (toy_track toy1_Q) (toy_wins 10) 0.9995%Q 1 false 0%Q
           1 5000 3 20000 Hw Hl).
Defined.

Lemma seed_nothing_seeds_witness :
  (∀ i x, (i < length (toy_wins 2))%nat →
          ident_by_idx_of (toy_track low_Q) !! i = Some x →
          nge x 0.9995%Q = false) ∧
  seed_extend_segments_for_pair (toy_track low_Q) (toy_wins 2) 0.9995%Q 2
    0.9995%Q 2%Q 1%Q 1%Q 1%Q 3 5000 false
  = Some [].
Proof.
  split; [exact low_Q_below|].
  exact (seed_nothing_seeds (toy_track low_Q) (toy_wins 2) 0.9995%Q 2 0.9995%Q
           2%Q 1%Q 1%Q 1%Q 3 5000 false low_Q_below).
Defined.

(** Three candidates on chr1, of which the last two overlap. *)
Definition three_candidates : list (Seg.t Q) :=
  [seg_at 30000 45000; seg_at 0 15000; seg_at 10000 25000].

Lemma three_candidates_chr1 :
  Forall (λ s : Seg.t Q, Seg.chr s = "chr1") three_candidates.
Proof. repeat constructor. Defined.

Lemma merge_covers_candidates_witness :
  seg_at 10000 25000 ∈ three_candidates ∧
  ∃ out, out ∈ merge_segments three_candidates [] ∧
         Seg.chr out = Seg.chr (seg_at 10000 25000) ∧
         Seg.start out ≤ Seg.start (seg_at 10000 25000) ∧
         Seg.end_ (seg_at 10000 25000) ≤ Seg.end_ out.
Proof.
  assert (Hin : seg_at 10000 25000 ∈ three_candidates) by (right; right; left).
  split; [exact Hin|].
  exact (merge_covers_candidates three_candidates [] (seg_at 10000 25000) Hin).
Defined.

Lemma merge_keeps_first_candidate_witness :
  let out := Seg.mk "chr1" 0 25000 3 15000 1%Q 1%Q None 1%Q in
  Forall (λ s : Seg.t Q, Seg.chr s = "chr1") three_candidates ∧
  out ∈ merge_segments three_candidates [] ∧
  ∃ first latest,
    first ∈ three_candidates ∧ latest ∈ three_candidates ∧
    Seg.end_ first ≤ Seg.end_ latest ∧
    out = Seg.mk (Seg.chr first) (Seg.start first) (Seg.end_ latest)
                 (Seg.n_windows first) (Seg.covered_bp first)
                 (Seg.mean_ident first) (Seg.min_ident first)
                 (Seg.n_gaps first) (Seg.frac_called first).
Proof.
  cbv zeta.
  assert (Hout : Seg.mk "chr1" 0 25000 3 15000 1%Q 1%Q None 1%Q
                 ∈ merge_segments three_candidates []) by left.
  split; [exact three_candidates_chr1|]. split; [exact Hout|].
  exact (merge_keeps_first_candidate three_candidates [] "chr1" _
           three_candidates_chr1 Hout).
Defined.

Lemma merge_idempotent_witness :
  Forall (λ s : Seg.t Q, Seg.chr s = "chr1") three_candidates ∧
  merge_segments (merge_segments three_candidates []) []
  = merge_segments three_candidates [].
Proof.
  split; [exact three_candidates_chr1|].
  exact (merge_idempotent three_candidates [] "chr1" three_candidates_chr1).
Defined.

(** A table of three lines for the pair B/A, the second with an identity
    that is no number, and the [int] and [float] of its cells. *)
Definition toy_int (cell : string) : option Z :=
  if String.eqb cell "0" then Some 0
  else if String.eqb cell "5000" then Some 5000
  else if String.eqb cell "10000" then Some 10000
  else None.

Definition toy_float (cell : string) : option Q :=
  if String.eqb cell "0.9998" then Some 0.9998%Q else None.

Definition toy_line (start end_ ident : string) : gmap string string :=
  list_to_map [("REGION", "r"); ("CHR", "chr1"); ("START", start);
               ("END", end_); ("LENGTH", "5000"); ("group.a", "B");
               ("group.b", "A"); ("estimated.identity", ident)].

Definition toy_table : list (gmap string string) :=
  [toy_line "0" "5000" "0.9998"; toy_line "5000" "10000" "n/a";
   toy_line "5000" "10000" "0.9998"].

Lemma toy_line_labelled start end_ ident :
  labelled toy_int toy_float "estimated.identity" (toy_line start end_ ident).
Proof. intros _. repeat split; eexists; reflexivity. Defined.

Lemma main_never_raises_witness :
  let header := Some (required_columns "estimated.identity") in
  let pairs := Some (comment_lines ++ [line_AB]) in
  columns_superset (default [] header) (required_columns "estimated.identity") ∧
  Exists (λ r, is_Some (parse_row toy_int toy_float "estimated.identity" r))
         toy_table ∧
  Forall (labelled toy_int toy_float "estimated.identity") toy_table ∧
  pairs_ok pairs ∧
  ∃ out, main no_fmt no_fmt toy_int toy_float (default_args_Q mode_seed) pairs
           header toy_table = Some (Ok out).
Proof.
  cbv zeta.
  assert (Hcols : columns_superset
                    (default [] (Some (required_columns "estimated.identity")))
                    (required_columns "estimated.identity"))
    by (intros c Hc; exact Hc).
  assert (Hsome : Exists (λ r, is_Some (parse_row toy_int toy_float
                                          "estimated.identity" r)) toy_table)
    by (apply Exists_cons_hd; eexists; reflexivity).
  assert (Hlabels : Forall (labelled toy_int toy_float "estimated.identity")
                           toy_table)
    by (repeat (apply Forall_cons; split; [apply toy_line_labelled|]);
        apply Forall_nil_2).
  assert (Hpairs : pairs_ok (Some (comment_lines ++ [line_AB]))).
  { unfold pairs_ok, comment_lines. cbn [app].
    repeat (apply Forall_cons; split); [..|apply Forall_nil_2];
      first [left; reflexivity|right; left; reflexivity
            |right; right; reflexivity]. }
  split; [exact Hcols|]. split; [exact Hsome|]. split; [exact Hlabels|].
  split; [exact Hpairs|].
  exact (main_never_raises no_fmt no_fmt toy_int toy_float
           (default_args_Q mode_seed) (Some (comment_lines ++ [line_AB]))
           (Some (required_columns "estimated.identity")) toy_table
           Hcols Hsome Hlabels Hpairs).
Defined.

(** The line that the RLE mode writes for [rows_BA]. *)
Definition line_BA : Out.t :=
  Out.mk "chr1" 0 15000 "A" "B" 3 15000 "" "" "" mode_rle.

Lemma main_rows_BA :
  main_rows no_fmt no_fmt (default_args_Q mode_rle) None rows_BA
  = Ok [line_BA].
Proof. vm_compute. reflexivity. Defined.

Lemma lines_come_from_rows_witness :
  main_rows no_fmt no_fmt (default_args_Q mode_rle) None rows_BA
  = Ok [line_BA] ∧
  line_BA ∈ [line_BA] ∧
  String.leb (Out.hap1 line_BA) (Out.hap2 line_BA) = true ∧
  Out.mode line_BA = Args.mode (default_args_Q mode_rle) ∧
  ∃ r, r ∈ rows_BA ∧ Row.chr r = Out.chr line_BA ∧
       pair_key (Row.a r) (Row.b r) = (Out.hap1 line_BA, Out.hap2 line_BA).
Proof.
  assert (Hin : line_BA ∈ [line_BA]) by left.
  split; [exact main_rows_BA|]. split; [exact Hin|].
  exact (lines_come_from_rows no_fmt no_fmt (default_args_Q mode_rle) None
           rows_BA [line_BA] line_BA main_rows_BA Hin).
Defined.

Lemma allow_list_restricts_witness :
  let pair_filter : gset (string * string) := {[ pair_key "A" "B" ]} ∪ ∅ in
  load_pairs (Some [line_AB]) = Some (Some pair_filter) ∧
  pair_filter ≠ ∅ ∧
  main_rows no_fmt no_fmt (default_args_Q mode_rle) None rows_BA
  = Ok [line_BA] ∧
  main_rows no_fmt no_fmt (default_args_Q mode_rle) (Some [line_AB]) rows_BA
  = Ok (filter (λ o, (Out.hap1 o, Out.hap2 o) ∈ pair_filter) [line_BA]).
Proof.
  cbv zeta.
  assert (Hload : load_pairs (Some [line_AB])
                  = Some (Some ({[ pair_key "A" "B" ]} ∪ ∅)))
    by reflexivity.
  assert (Hne : ({[ pair_key "A" "B" ]} ∪ ∅ : gset (string * string)) ≠ ∅).
  { intros Heq. apply (not_elem_of_empty (C := gset (string * string))
                         (pair_key "A" "B")).
    rewrite <- Heq. apply elem_of_union. left. by apply elem_of_singleton. }
  split; [exact Hload|]. split; [exact Hne|]. split; [exact main_rows_BA|].
  exact (allow_list_restricts no_fmt no_fmt (default_args_Q mode_rle) [line_AB]
           _ rows_BA [line_BA] Hload Hne main_rows_BA).
Defined.

Lemma toy_wins_tiled : tiled (toy_wins 3).
Proof.
  intros [|[|[|i]]] w Hw; try discriminate; injection Hw as <-;
    (split; [reflexivity|]);
    intros w' Hw'; try discriminate; injection Hw' as <-; reflexivity.
Defined.

Lemma covered_bp_of_tiling_witness :
  tiled (toy_wins 3) ∧
  (∃ segs, rle_segments_for_pair (toy_track dip_Q) (toy_wins 3) 0.9995%Q 1 1
             5000 true 0%Q = Some segs
           ∧ Forall (λ seg, Seg.covered_bp seg
                            = Seg.end_ seg - Seg.start seg) segs) ∧
  (∃ segs, seed_extend_segments_for_pair (toy_track dip_Q) (toy_wins 3)
             0.9998%Q 1 0.9995%Q 2%Q 1%Q 1%Q 1%Q 1 5000 true = Some segs
           ∧ Forall (λ seg, Seg.covered_bp seg
                            ≤ Seg.end_ seg - Seg.start seg) segs).
Proof.
  split; [exact toy_wins_tiled|].
  exact (covered_bp_of_tiling (toy_track dip_Q) (toy_wins 3) toy_wins_tiled
           0.9995%Q 1 1 5000 true 0%Q 0.9998%Q 1 0.9995%Q 2%Q 1%Q 1%Q 1%Q).
Defined.

Lemma dip_Q_complete : complete (toy_track dip_Q) (toy_wins 3).
Proof.
  intros [|[|[|i]]] Hi; [eexists; reflexivity..|simpl in Hi; lia].
Defined.

Lemma missing_as_gap_needs_missing_witness :
  complete (toy_track dip_Q) (toy_wins 3) ∧
  rle_segments_for_pair (toy_track dip_Q) (toy_wins 3) 0.9995%Q 1 1 5000
    true 0%Q
  = rle_segments_for_pair (toy_track dip_Q) (toy_wins 3) 0.9995%Q 1 1 5000
      false 0%Q
  ∧ seed_extend_segments_for_pair (toy_track dip_Q) (toy_wins 3) 0.9998%Q 1
      0.9995%Q 2%Q 1%Q 1%Q 1%Q 1 5000 true
    = seed_extend_segments_for_pair (toy_track dip_Q) (toy_wins 3) 0.9998%Q 1
        0.9995%Q 2%Q 1%Q 1%Q 1%Q 1 5000 false.
Proof.
  split; [exact dip_Q_complete|].
  exact (missing_as_gap_needs_missing (toy_track dip_Q) (toy_wins 3) 0.9995%Q
           1 1 5000 0%Q 0.9998%Q 1 0.9995%Q 2%Q 1%Q 1%Q 1%Q dip_Q_complete).
Defined.

(** Two rows of one pair, and the same rows in the other order. *)
Definition two_rows : list (Row.t Q) :=
  [Row.mk (Some "") "chr1" 5000 10000 5000 "A" "B" 0.9998%Q;
   Row.mk (Some "") "chr1" 0 5000 5000 "B" "A" 0.9950%Q].

Lemma build_windows_row_order_witness :
  two_rows ≡ₚ reverse two_rows ∧
  build_windows two_rows = build_windows (reverse two_rows).
Proof.
  assert (Hperm : two_rows ≡ₚ reverse two_rows) by apply perm_swap.
  split; [exact Hperm|].
  exact (build_windows_row_order two_rows (reverse two_rows) Hperm).
Defined.
